(** * IntlLocale polyfill: language-tag validation, canonicalization and
      locale-list canonicalization (src/src/polyfill.js)

    A shallow embedding of the polyfill in Rocq.  JavaScript strings are
    modelled as [string] (sequences of 8-bit code units); every pattern of the
    program is pure ASCII, so a code unit above 127 behaves in the validator
    like any other character outside the grammar.  Thrown errors are explicit
    ([completion]); objects used as dictionaries are [gmap]s; the [Set] built
    by [canonicalizeLocaleList] is a duplicate-free list in insertion order. *)

From Stdlib Require Import String Ascii List ZArith Lia Bool.
From stdpp Require Import base option list strings gmap.

Local Open Scope string_scope.
Local Open Scope list_scope.

(** ** Completions: a value, or a thrown error *)

Inductive error :=
| RangeError (message : string)
| ReferenceError (identifier : string)
| TypeError (message : string).

Inductive completion (A : Type) :=
| Normal (a : A)
| Throw (e : error).
Arguments Normal {A} a.
Arguments Throw {A} e.

#[global] Instance completion_ret : MRet completion := fun _ a => Normal a.

#[global] Instance completion_bind : MBind completion := fun _ _ k c =>
  match c with
  | Normal a => k a
  | Throw e => Throw e
  end.

Definition raises {A} (c : completion A) : Prop := exists e, c = Throw e.

(** ** Strings *)

Module Str.

Definition isLower (c : ascii) : bool :=
  ((97 <=? nat_of_ascii c) && (nat_of_ascii c <=? 122))%nat.

Definition isUpper (c : ascii) : bool :=
  ((65 <=? nat_of_ascii c) && (nat_of_ascii c <=? 90))%nat.

Definition charToUpper (c : ascii) : ascii :=
  if isLower c then ascii_of_nat (nat_of_ascii c - 32) else c.

Definition charToLower (c : ascii) : ascii :=
  if isUpper c then ascii_of_nat (nat_of_ascii c + 32) else c.

(** [String.prototype.toLowerCase] / [toUpperCase] on ASCII letters; other
    code units are kept (they never occur in a structurally valid tag). *)
Fixpoint toLowerCase (s : string) : string :=
  match s with
  | EmptyString => EmptyString
  | String c s' => String (charToLower c) (toLowerCase s')
  end.

Fixpoint toUpperCase (s : string) : string :=
  match s with
  | EmptyString => EmptyString
  | String c s' => String (charToUpper c) (toUpperCase s')
  end.

Fixpoint take (n : nat) (s : string) : string :=
  match n, s with
  | S n', String c s' => String c (take n' s')
  | _, _ => EmptyString
  end.

Fixpoint drop (n : nat) (s : string) : string :=
  match n, s with
  | S n', String _ s' => drop n' s'
  | _, _ => s
  end.

Definition clamp (s : string) (k : Z) : nat :=
  Z.to_nat (Z.min (Z.max k 0) (Z.of_nat (String.length s))).

(** [s.substring(from, to)]: both ends are clamped to [0, s.length] and
    swapped when out of order. *)
Definition substring (s : string) (from to : Z) : string :=
  let a := clamp s from in
  let b := clamp s to in
  take (Nat.max a b - Nat.min a b) (drop (Nat.min a b) s).

(** [s.substring(from)] *)
Definition substringFrom (s : string) (from : Z) : string :=
  substring s from (Z.of_nat (String.length s)).

Fixpoint startsWith (s p : string) : bool :=
  match p, s with
  | EmptyString, _ => true
  | String a p', String b s' => if ascii_dec a b then startsWith s' p' else false
  | String _ _, EmptyString => false
  end.

(** [s.indexOf(p)]: the first position at which [p] occurs, or -1. *)
Fixpoint indexOfFrom (k : Z) (s p : string) : Z :=
  if startsWith s p then k
  else match s with
       | EmptyString => (-1)%Z
       | String _ s' => indexOfFrom (k + 1)%Z s' p
       end.

Definition indexOf (s p : string) : Z := indexOfFrom 0%Z s p.

(** [s.split(sep)] for a one-character separator: never the empty array. *)
Fixpoint split (sep : ascii) (s : string) : list string :=
  match s with
  | EmptyString => [EmptyString]
  | String c s' =>
      if ascii_dec c sep then EmptyString :: split sep s'
      else match split sep s' with
           | w :: ws => String c w :: ws
           | [] => [String c EmptyString]
           end
  end.

(** [a.join(sep)] *)
Definition join (sep : string) (a : list string) : string := String.concat sep a.

(** [a.slice(from, to)] and [a.slice(from)] for indices within the array. *)
Definition slice {A} (a : list A) (from to : nat) : list A :=
  List.firstn (to - from) (List.skipn from a).

Definition sliceFrom {A} (a : list A) (from : nat) : list A := List.skipn from a.

(** Code-unit order, the default order of [Array.prototype.sort]. *)
Definition leb (a b : string) : bool :=
  match String.compare a b with
  | Gt => false
  | _ => true
  end.

Fixpoint insertSorted (x : string) (l : list string) : list string :=
  match l with
  | [] => [x]
  | y :: l' => if leb x y then x :: l else y :: insertSorted x l'
  end.

Definition sort (l : list string) : list string := fold_right insertSorted [] l.

End Str.

(** ** Regular expressions

    The three patterns of the program use character classes, bounded and
    unbounded greedy quantifiers, alternation, the anchors, one capture group
    with a back-reference and a negative look-ahead.  The matcher follows the
    continuation-passing formulation of the ECMAScript specification. *)

Module RegExp.

Inductive regex :=
| Eps
| Lit (c : ascii)
| Class (ranges : list (ascii * ascii))
| Seq (r1 r2 : regex)
| Alt (r1 r2 : regex)
| Quant (min : nat) (max : option nat) (r : regex)
| Group (n : nat) (r : regex)
| Backref (n : nat)
| NegLookahead (r : regex)
| Bol
| Eol.

Fixpoint Seqs (l : list regex) : regex :=
  match l with
  | [] => Eps
  | [r] => r
  | r :: l' => Seq r (Seqs l')
  end.

Fixpoint Alts (l : list regex) : regex :=
  match l with
  | [] => Eps
  | [r] => r
  | r :: l' => Alt r (Alts l')
  end.

Fixpoint Word (s : string) : regex :=
  match s with
  | EmptyString => Eps
  | String c EmptyString => Lit c
  | String c s' => Seq (Lit c) (Word s')
  end.

Definition Star := Quant 0 None.
Definition Plus := Quant 1 None.
Definition Opt := Quant 0 (Some 1).
Definition Times (n : nat) := Quant n (Some n).
Definition Between (n m : nat) := Quant n (Some m).

Record mstate := MState { endIndex : nat; captures : list (nat * string) }.

Definition matcher := mstate -> (mstate -> option mstate) -> option mstate.

Fixpoint capture (n : nat) (caps : list (nat * string)) : option string :=
  match caps with
  | [] => None
  | (k, s) :: caps' => if Nat.eqb k n then Some s else capture n caps'
  end.

Fixpoint groupsOf (r : regex) : list nat :=
  match r with
  | Seq r1 r2 | Alt r1 r2 => groupsOf r1 ++ groupsOf r2
  | Quant _ _ r' | NegLookahead r' => groupsOf r'
  | Group n r' => n :: groupsOf r'
  | _ => []
  end.

Definition clearCaptures (gs : list nat) (x : mstate) : mstate :=
  MState (endIndex x)
         (List.filter (fun p => negb (existsb (Nat.eqb (fst p)) gs)) (captures x)).

Definition inRanges (ranges : list (ascii * ascii)) (c : ascii) : bool :=
  existsb (fun r => (nat_of_ascii (fst r) <=? nat_of_ascii c)%nat
                    && (nat_of_ascii c <=? nat_of_ascii (snd r))%nat) ranges.

Section Matcher.

(** The [i] flag and the subject string. *)
Variable ignoreCase : bool.
Variable input : string.

(** Canonicalize of the specification, restricted to what ASCII-only
    patterns can observe. *)
Definition canonicalize (c : ascii) : ascii :=
  if ignoreCase then Str.charToUpper c else c.

Definition charMatcher (p : ascii -> bool) : matcher := fun x c =>
  match String.get (endIndex x) input with
  | Some ch => if p ch then c (MState (S (endIndex x)) (captures x)) else None
  | None => None
  end.

Definition classMatcher (ranges : list (ascii * ascii)) : matcher :=
  charMatcher (fun ch =>
    if ignoreCase
    then inRanges ranges ch || inRanges ranges (Str.charToUpper ch)
         || inRanges ranges (Str.charToLower ch)
    else inRanges ranges ch).

Fixpoint sameChars (a b : string) : bool :=
  match a, b with
  | EmptyString, EmptyString => true
  | String x a', String y b' =>
      if ascii_dec (canonicalize x) (canonicalize y) then sameChars a' b' else false
  | _, _ => false
  end.

Definition backrefMatcher (n : nat) : matcher := fun x c =>
  match capture n (captures x) with
  | None => c x
  | Some s =>
      let len := String.length s in
      if (endIndex x + len <=? String.length input)%nat
         && sameChars s (Str.take len (Str.drop (endIndex x) input))
      then c (MState (endIndex x + len) (captures x))
      else None
  end.

(** The [min] mandatory iterations of a quantifier, then [rest]. *)
Fixpoint repeatMin (m : matcher) (gs : list nat) (min : nat) (rest : matcher)
  : matcher := fun x c =>
  match min with
  | 0 => rest x c
  | S min' => m (clearCaptures gs x) (fun y => repeatMin m gs min' rest y c)
  end.

(** At most [k] further greedy iterations; an iteration that consumes
    nothing is rejected. *)
Fixpoint repeatUpTo (m : matcher) (gs : list nat) (k : nat) : matcher := fun x c =>
  match k with
  | 0 => c x
  | S k' =>
      match m (clearCaptures gs x)
              (fun y => if Nat.eqb (endIndex y) (endIndex x) then None
                        else repeatUpTo m gs k' y c) with
      | Some z => Some z
      | None => c x
      end
  end.

(** An unbounded quantifier: every further iteration consumes at least one
    character, so the characters left bound the iterations. *)
Definition repeatMatcher (m : matcher) (gs : list nat) (min : nat) (max : option nat)
  : matcher :=
  repeatMin m gs min (fun x c =>
    let k := match max with
             | Some mx => mx - min
             | None => String.length input - endIndex x
             end in
    repeatUpTo m gs k x c).

Fixpoint compile (r : regex) : matcher :=
  match r with
  | Eps => fun x c => c x
  | Lit a => charMatcher (fun ch => if ascii_dec (canonicalize ch) (canonicalize a)
                                    then true else false)
  | Class ranges => classMatcher ranges
  | Seq r1 r2 => fun x c => compile r1 x (fun y => compile r2 y c)
  | Alt r1 r2 => fun x c =>
      match compile r1 x c with
      | Some z => Some z
      | None => compile r2 x c
      end
  | Quant min max r' => repeatMatcher (compile r') (groupsOf r') min max
  | Group n r' => fun x c =>
      compile r' x (fun y =>
        c (MState (endIndex y)
             ((n, Str.take (endIndex y - endIndex x) (Str.drop (endIndex x) input))
                :: captures y)))
  | Backref n => backrefMatcher n
  | NegLookahead r' => fun x c =>
      match compile r' x (fun y => Some y) with
      | Some _ => None
      | None => c x
      end
  | Bol => fun x c => if Nat.eqb (endIndex x) 0 then c x else None
  | Eol => fun x c => if Nat.eqb (endIndex x) (String.length input) then c x else None
  end.

Definition matchAt (r : regex) (start : nat) : bool :=
  match compile r (MState start []) (fun y => Some y) with
  | Some _ => true
  | None => false
  end.

End Matcher.

(** [new RegExp(pattern, flags)] with [flags] either empty or ["i"]. *)
Record RegExp := { pattern : regex; flagIgnoreCase : bool }.

(** [re.test(s)] for a regular expression without the [g] and [y] flags:
    a match is tried at every start position, left to right. *)
Definition test (re : RegExp) (s : string) : bool :=
  existsb (matchAt (flagIgnoreCase re) s (pattern re)) (List.seq 0 (S (String.length s))).

End RegExp.

(** ** The patterns of the program *)

Import RegExp.

(** RFC 5234 section B.1 and RFC 5646 section 2.1; each name is the constant
    of the same name in the source. *)
Definition ALPHA : regex := Class [("a", "z"); ("A", "Z")]%char.
Definition DIGIT : regex := Class [("0", "9")]%char.
Definition alphanum : regex := Alt ALPHA DIGIT.

Definition regular : regex :=
  Alts (map Word ["art-lojban"; "cel-gaulish"; "no-bok"; "no-nyn"; "zh-guoyu";
                  "zh-hakka"; "zh-min"; "zh-min-nan"; "zh-xiang"]).

Definition irregular : regex :=
  Alts (map Word ["en-GB-oed"; "i-ami"; "i-bnn"; "i-default"; "i-enochian"; "i-hak";
                  "i-klingon"; "i-lux"; "i-mingo"; "i-navajo"; "i-pwn"; "i-tao";
                  "i-tay"; "i-tsu"; "sgn-BE-FR"; "sgn-BE-NL"; "sgn-CH-DE"]).

Definition grandfathered : regex := Alt irregular regular.

(** [x(?:-[a-z0-9]{1,8})+] *)
Definition privateuse : regex :=
  Seq (Lit "x") (Plus (Seq (Lit "-") (Between 1 8 (Class [("a", "z"); ("0", "9")]%char)))).

(** [(?:[0-9]|[A-WY-Za-wy-z])] *)
Definition singleton : regex :=
  Alt DIGIT (Class [("A", "W"); ("Y", "Z"); ("a", "w"); ("y", "z")]%char).

Definition extension : regex :=
  Seq singleton (Plus (Seq (Lit "-") (Between 2 8 alphanum))).

Definition variant : regex :=
  Alt (Between 5 8 alphanum) (Seq DIGIT (Times 3 alphanum)).

Definition region : regex := Alt (Times 2 ALPHA) (Times 3 DIGIT).

Definition script : regex := Times 4 ALPHA.

Definition extlang : regex :=
  Seq (Times 3 ALPHA) (Between 0 2 (Seq (Lit "-") (Times 3 ALPHA))).

Definition language : regex :=
  Alts [Seq (Between 2 3 ALPHA) (Opt (Seq (Lit "-") extlang));
        Times 4 ALPHA;
        Between 5 8 ALPHA].

Definition langtag : regex :=
  Seqs [language;
        Opt (Seq (Lit "-") script);
        Opt (Seq (Lit "-") region);
        Star (Seq (Lit "-") variant);
        Star (Seq (Lit "-") extension);
        Opt (Seq (Lit "-") privateuse)].

Definition languageTag : regex :=
  Seqs [Bol; Alts [langtag; privateuse; grandfathered]; Eol].

(** Language tags are case insensitive: the [i] flag. *)
Definition languageTagRE : RegExp :=
  {| pattern := languageTag; flagIgnoreCase := true |}.

(** [(?:alphanum{2,8}-)+(variant)-(?:alphanum{2,8}-)*\1(?!alphanum)], built
    without flags. *)
Definition duplicateVariant : regex :=
  Seqs [Plus (Seq (Between 2 8 alphanum) (Lit "-"));
        Group 1 variant; Lit "-";
        Star (Seq (Between 2 8 alphanum) (Lit "-"));
        Backref 1;
        NegLookahead alphanum].

Definition duplicateVariantRE : RegExp :=
  {| pattern := duplicateVariant; flagIgnoreCase := false |}.

(** [-(singleton)-(?:alphanum+-)*\1(?!alphanum)], built without flags. *)
Definition duplicateSingleton : regex :=
  Seqs [Lit "-"; Group 1 singleton; Lit "-";
        Star (Seq (Plus alphanum) (Lit "-"));
        Backref 1;
        NegLookahead alphanum].

Definition duplicateSingletonRE : RegExp :=
  {| pattern := duplicateSingleton; flagIgnoreCase := false |}.

(** [-u(-[a-z0-9]{2,8})+], compiled once plain and once with the [g] flag;
    no function of the program refers to either. *)
Definition unicodeLocaleExtensionSequence : regex :=
  Seqs [Lit "-"; Lit "u";
        Plus (Group 1 (Seq (Lit "-") (Between 2 8 (Class [("a", "z"); ("0", "9")]%char))))].

Definition unicodeLocaleExtensionSequenceRE : RegExp :=
  {| pattern := unicodeLocaleExtensionSequence; flagIgnoreCase := false |}.

(** ** removeUnicodeExtensions *)

Definition removeUnicodeExtensions (locale : string) : string :=
  if Str.startsWith locale "x-" then locale
  else
    let pos := Str.indexOf locale "-x-" in
    let pos := if (pos <? 0)%Z then Z.of_nat (String.length locale) else pos in
    let left := Str.substring locale 0 pos in
    let right := Str.substringFrom locale pos in
    let combined := String.append left right in
    combined.

(** ** isStructurallyValidLanguageTag *)

Definition isStructurallyValidLanguageTag (locale : string) : bool :=
  if negb (test languageTagRE locale) then false
  else if Str.startsWith locale "x-" then true
  else
    let pos := Str.indexOf locale "-x-" in
    let locale := if negb (pos =? -1)%Z then Str.substring locale 0 pos else locale in
    negb (test duplicateVariantRE locale) && negb (test duplicateSingletonRE locale).

(** ** Objects used as dictionaries, and identifiers *)

(** The members every object literal inherits from [Object.prototype]. *)
Definition objectPrototypeProperties : list string :=
  ["constructor"; "hasOwnProperty"; "isPrototypeOf"; "propertyIsEnumerable";
   "toLocaleString"; "toString"; "valueOf"; "__proto__"; "__defineGetter__";
   "__defineSetter__"; "__lookupGetter__"; "__lookupSetter__"].

(** [o.hasOwnProperty(key)] followed, when it holds, by [o[key]]: the entry
    under [key], if any.  A table with an entry named [hasOwnProperty] hides
    the inherited method, and the call fails. *)
Definition ownProperty {V} (o : gmap string V) (key : string) : completion (option V) :=
  match o !! "hasOwnProperty" with
  | Some _ => Throw (TypeError "hasOwnProperty is not a function")
  | None => Normal (o !! key)
  end.

(** Evaluation of an identifier against the bindings in scope. *)
Fixpoint getIdentifier {A} (scope : list (string * A)) (name : string) : completion A :=
  match scope with
  | [] => Throw (ReferenceError name)
  | (n, v) :: scope' => if String.eqb n name then Normal v else getIdentifier scope' name
  end.

(** ** canonicalizeLanguageTag *)

Record extlangMapping := { preferred : string; prefix : string }.

Module WithTables.
Section Canonicalizer.

Variables langTagMappings langSubtagMappings : gmap string string.
Variable extlangMappings : gmap string extlangMapping.

(** [extlangMappings[key].prefix], read without an own-property test: an
    own entry gives its prefix, an inherited member has none ([undefined]),
    and an absent key makes the property read fail. *)
Definition prefixOf (key : string) : completion (option string) :=
  match extlangMappings !! key with
  | Some e => Normal (Some (prefix e))
  | None =>
      if bool_decide (key ∈ objectPrototypeProperties) then Normal None
      else Throw (TypeError "cannot read property prefix of undefined")
  end.

(** The re-casing at the head of the loop body. *)
Definition recase (i : nat) (subtag : string) : string :=
  if (String.length subtag =? 4)%nat
  then String.append (Str.toUpperCase (Str.substring subtag 0 1)) (Str.substringFrom subtag 1)
  else if negb (i =? 0)%nat && (String.length subtag =? 2)%nat
       then Str.toUpperCase subtag
       else subtag.

(** The first loop: all subtags before the first singleton or [x].  The
    array [subtags] is updated in place; [i] is the loop index.  Every turn
    makes [length subtags - i] smaller, which bounds the turns. *)
Fixpoint standardLoop (fuel : nat) (subtags : list string) (i : nat)
  : completion (list string * nat) :=
  match subtags !! i with
  | None => Normal (subtags, i)
  | Some subtag =>
      if (String.length subtag =? 1)%nat && ((0 <? i)%nat || String.eqb subtag "x")
      then Normal (subtags, i)
      else
        match fuel with
        | 0 => Normal (subtags, i)
        | S fuel' =>
            let subtag := recase i subtag in
            sub ← ownProperty langSubtagMappings subtag;
            match sub with
            | Some mapped =>
                standardLoop fuel' (<[i := mapped]> subtags) (S i)
            | None =>
                ext ← ownProperty extlangMappings subtag;
                match ext with
                | Some e =>
                    let subtag := preferred e in
                    if (i =? 1)%nat then
                      p ← prefixOf subtag;
                      if bool_decide (p = subtags !! 0 ∧ is_Some p) then
                        let subtags := tail subtags in
                        let i := i - 1 in
                        standardLoop fuel' (<[i := subtag]> subtags) (S i)
                      else standardLoop fuel' (<[i := subtag]> subtags) (S i)
                    else standardLoop fuel' (<[i := subtag]> subtags) (S i)
                | None => standardLoop fuel' (<[i := subtag]> subtags) (S i)
                end
            end
        end
  end.

(** [while (i < subtags.length && subtags[i].length > 1) i++] *)
Fixpoint skipSubtags (fuel : nat) (subtags : list string) (i : nat) : nat :=
  match subtags !! i with
  | None => i
  | Some subtag =>
      if (1 <? String.length subtag)%nat
      then match fuel with
           | 0 => i
           | S fuel' => skipSubtags fuel' subtags (S i)
           end
      else i
  end.

(** The second loop: extension sequences.  Its body names [sybtags], which
    neither the function, nor the module, nor a standard global object
    binds; the arrays in scope are [subtags] and [extensions]. *)
Fixpoint extensionLoop (fuel : nat) (subtags : list string) (i : nat)
    (extensions : list string) : completion (list string * nat) :=
  match subtags !! i with
  | None => Normal (extensions, i)
  | Some subtag =>
      if String.eqb subtag "x" then Normal (extensions, i)
      else
        match fuel with
        | 0 => Normal (extensions, i)
        | S fuel' =>
            let extensionStart := i in
            let i := S i in
            let i := skipSubtags (length subtags) subtags i in
            sybtags ← getIdentifier [("subtags", subtags); ("extensions", extensions)]
                                    "sybtags";
            let extension := Str.join "-" (Str.slice sybtags extensionStart i) in
            extensionLoop fuel' subtags i (extensions ++ [extension])
        end
  end.

Definition canonicalizeLanguageTag (locale : string) : completion string :=
  let locale := Str.toLowerCase locale in
  whole ← ownProperty langTagMappings locale;
  match whole with
  | Some mapped => Normal mapped
  | None =>
      let subtags := Str.split "-" locale in
      '(subtags, i) ← standardLoop (length subtags) subtags 0;
      let normal := Str.join "-" (Str.slice subtags 0 i) in
      '(extensions, i) ← extensionLoop (length subtags) subtags i [];
      let extensions := Str.sort extensions in
      let privateUse :=
        if (i <? length subtags)%nat then Str.join "-" (Str.sliceFrom subtags i) else "" in
      let canonical := normal in
      let canonical :=
        if (0 <? length extensions)%nat
        then String.append canonical (String.append "-" (Str.join "-" extensions))
        else canonical in
      let canonical :=
        if (0 <? String.length privateUse)%nat
        then if (0 <? String.length canonical)%nat
             then String.append canonical (String.append "-" privateUse)
             else privateUse
        else canonical in
      Normal canonical
  end.

(** ** canonicalizeLocaleList *)

(** [seen.add(tag)] on the insertion-ordered [Set]. *)
Definition Set_add (seen : list string) (tag : string) : list string :=
  if bool_decide (tag ∈ seen) then seen else seen ++ [tag].

(** The callback handed to [forEach], acting on the set [seen]. *)
Definition visit (seen : list string) (tag : string) : completion (list string) :=
  if negb (isStructurallyValidLanguageTag tag)
  then Throw (RangeError (String.append "invalid language tag " tag))
  else
    tag ← canonicalizeLanguageTag tag;
    Normal (Set_add seen tag).

Fixpoint forEach (locales : list string) (seen : list string) : completion (list string) :=
  match locales with
  | [] => Normal seen
  | tag :: locales' =>
      seen ← visit seen tag;
      forEach locales' seen
  end.

End Canonicalizer.
End WithTables.

(** The argument of [canonicalizeLocaleList]: absent, one string, or an
    ordered collection of strings (an [Array] or a [Set]). *)
Inductive Locales :=
| LocalesUndefined
| LocalesString (tag : string)
| LocalesList (tags : list string).

(** The three tables as the module defines them: empty object literals. *)
Definition langTagMappings : gmap string string := ∅.
Definition langSubtagMappings : gmap string string := ∅.
Definition extlangMappings : gmap string extlangMapping := ∅.

Definition canonicalizeLanguageTag : string -> completion string :=
  WithTables.canonicalizeLanguageTag langTagMappings langSubtagMappings extlangMappings.

(** [locales.forEach(...)] over the tables of the module, from a given [seen]. *)
Definition forEachTag : list string -> list string -> completion (list string) :=
  WithTables.forEach langTagMappings langSubtagMappings extlangMappings.

Definition canonicalizeLocaleList (locales : Locales) : completion (list string) :=
  match locales with
  | LocalesUndefined => Normal []
  | LocalesString tag => forEachTag [tag] []
  | LocalesList tags => forEachTag tags []
  end.

(** ** resolveLocale and the exported object *)

(** The values handed to the resolver. *)
#[local] Unset Elimination Schemes.
Inductive value :=
| Undefined
| Null
| Boolean (b : bool)
| Number (n : Z)
| Text (s : string)
| Array (elements : list value)
| Object (properties : list (string * value)).
#[local] Set Elimination Schemes.

Fixpoint lookupProperty (properties : list (string * value)) (name : string) : value :=
  match properties with
  | [] => Undefined
  | (n, v) :: properties' => if String.eqb n name then v else lookupProperty properties' name
  end.

(** [v.name] for a name that no built-in prototype defines. *)
Definition getProperty (v : value) (name : string) : completion value :=
  match v with
  | Undefined | Null => Throw (TypeError (String.append "cannot read property " name))
  | Object properties => Normal (lookupProperty properties name)
  | _ => Normal Undefined
  end.

Definition strictEquals (a : value) (s : string) : bool :=
  match a with
  | Text t => String.eqb t s
  | _ => false
  end.

(** A matcher, as [resolveLocale] calls it. *)
Definition Matcher := value -> value -> completion value.

(** The callable bindings in scope of [resolveLocale] that could be a
    matcher: the file declares neither [LookupMatcher] nor [BestFitMatcher],
    and no standard global bears either name. *)
Definition matchersInScope : list (string * Matcher) := [].

Definition resolveLocale
    (availableLocales requestedLocales options relevantExtensionKeys localeData : value)
  : completion value :=
  (* Steps 1-3. *)
  matcher ← getProperty options "localeMatcher";
  r ← (if strictEquals matcher "lookup"
       then LookupMatcher ← getIdentifier matchersInScope "LookupMatcher";
            LookupMatcher availableLocales requestedLocales
       else BestFitMatcher ← getIdentifier matchersInScope "BestFitMatcher";
            BestFitMatcher availableLocales requestedLocales);
  (* Step 4. *)
  foundLocale ← getProperty r "locale";
  (* Step 5.a. *)
  extension ← getProperty r "extension";
  (* Step 5: assignments to identifiers that nothing declares. *)
  _ ← match extension with
      | Undefined => Normal tt
      | _ => Throw (ReferenceError "extensionIndex")
      end;
  (* [new {}]: an object literal is not a constructor. *)
  result ← (Throw (TypeError "object is not a constructor") : completion value);
  (* no [return] statement *)
  Normal Undefined.

Module Exports.
Record t := {
  canonicalizeLocaleList : Locales -> completion (list string);
  resolveLocale : list value -> completion value;
  prioritizeAvailableLocales : list value -> completion value
}.
End Exports.

(** [const Locale = { canonicalizeLocaleList, resolveLocale: function() {},
    prioritizeAvailableLocales: function() {} }] *)
Definition Locale : Exports.t :=
  {| Exports.canonicalizeLocaleList := canonicalizeLocaleList;
     Exports.resolveLocale := fun _ => Normal Undefined;
     Exports.prioritizeAvailableLocales := fun _ => Normal Undefined |}.

(** A call of the internal [resolveLocale] with an argument list: missing
    arguments are [undefined], surplus ones are ignored. *)
Definition callResolveLocale (args : list value) : completion value :=
  resolveLocale (nth 0 args Undefined) (nth 1 args Undefined) (nth 2 args Undefined)
                (nth 3 args Undefined) (nth 4 args Undefined).

(** * Vocabulary of the statements *)

(** A subtag list holds an extension sequence: a one-character subtag other
    than [x] after position 0, outside the private-use part that the first
    [x] subtag opens. *)
Definition hasExtensionSequence (subtags : list string) : Prop :=
  exists (k : nat) (s : string),
    0 < k /\ subtags !! k = Some s /\ String.length s = 1 /\ s <> "x"
    /\ forall j, j < k -> subtags !! j <> Some "x".

(** The first occurrence of every element, in order. *)
Fixpoint firstOccurrences (l : list string) : list string :=
  match l with
  | [] => []
  | x :: l' => x :: filter (fun y => y <> x) (firstOccurrences l')
  end.

(** [canonicalForms tags cs]: every tag is structurally valid and
    canonicalizes, the results being [cs] in the same order. *)
Definition canonicalForms (tags cs : list string) : Prop :=
  Forall2 (fun t c => isStructurallyValidLanguageTag t = true
                      /\ canonicalizeLanguageTag t = Normal c) tags cs.

(** States of the matcher relative to the subject string: [within] its
    bounds; [ahead] of another state.  A matcher is [forward] when it hands
    its continuation only states ahead of its own, and fails when the
    continuation always fails. *)
Definition within (input : string) (x : RegExp.mstate) : Prop :=
  RegExp.endIndex x <= String.length input.

Definition ahead (input : string) (x y : RegExp.mstate) : Prop :=
  RegExp.endIndex x <= RegExp.endIndex y /\ RegExp.endIndex y <= String.length input.

Definition forward (input : string) (m : RegExp.matcher) : Prop :=
  (forall x c c', within input x -> (forall y, ahead input x y -> c y = c' y) ->
                  m x c = m x c')
  /\ (forall x, within input x -> m x (fun _ => None) = None).

(** The test that ends the first loop of [canonicalizeLanguageTag] at
    subtag [s] of index [i]. *)
Definition breaks (i : nat) (s : string) : bool :=
  (String.length s =? 1)%nat && ((0 <? i)%nat || String.eqb s "x").

(** The subtags as the first loop leaves them when no table has an entry:
    re-cased up to the first subtag that ends the loop, untouched from
    there on; and the number of subtags it re-cases. *)
Fixpoint recaseStandard (i : nat) (subtags : list string) : list string :=
  match subtags with
  | [] => []
  | s :: rest =>
      if breaks i s then s :: rest
      else WithTables.recase i s :: recaseStandard (S i) rest
  end.

Fixpoint standardLength (i : nat) (subtags : list string) : nat :=
  match subtags with
  | [] => 0
  | s :: rest => if breaks i s then 0 else S (standardLength (S i) rest)
  end.

(** The letter case of a canonical tag, subtag by subtag, as the comments
    of [canonicalizeLanguageTag] give it: a subtag of four characters has
    its first letter in upper case and the others in lower case; a subtag
    of two characters that is not the first is in upper case; any other
    subtag is in lower case.  This holds up to the first subtag of one
    character that is not the first subtag, or a first subtag [x]: that
    subtag and all those after it are in lower case. *)
Definition titleCase (u : string) : string :=
  match u with
  | EmptyString => EmptyString
  | String c u' => String (Str.charToUpper c) (Str.toLowerCase u')
  end.

Definition subtagCase (i : nat) (u : string) : string :=
  if (String.length u =? 4)%nat then titleCase u
  else if (String.length u =? 2)%nat && negb (i =? 0)%nat then Str.toUpperCase u
  else Str.toLowerCase u.

Definition opensRest (i : nat) (u : string) : bool :=
  (String.length u =? 1)%nat
  && (negb (i =? 0)%nat || String.eqb (Str.toLowerCase u) "x").

Fixpoint canonicalCase (i : nat) (subtags : list string) : list string :=
  match subtags with
  | [] => []
  | u :: rest =>
      if opensRest i u then map Str.toLowerCase (u :: rest)
      else subtagCase i u :: canonicalCase (S i) rest
  end.

(** ** The shape of a string, and the shapes a pattern can match

    A string is looked at as subtags separated by hyphens.  Its shape says
    how long its first and last (possibly partial) subtags are, every
    subtag between two hyphens being 1 to 8 alphanumerics long; [Bad] when
    that fails, when the first or the last is longer than 8, or when a
    character is neither alphanumeric nor a hyphen. *)

Module Shape.

Definition isAlnum (c : ascii) : bool :=
  let n := nat_of_ascii c in
  ((48 <=? n) && (n <=? 57) || (65 <=? n) && (n <=? 90) || (97 <=? n) && (n <=? 122))%nat.

Inductive shape :=
| Bad
| Run (n : nat)
| Split (first last : nat).

Definition subtagLength (n : nat) : bool := ((1 <=? n) && (n <=? 8))%nat.

(** The shape of a concatenation: [Bad] as soon as a run of alphanumerics
    is longer than 8. *)
Definition mul (a b : shape) : shape :=
  match a, b with
  | Bad, _ | _, Bad => Bad
  | Run n, Run m => if (n + m <=? 8)%nat then Run (n + m) else Bad
  | Run n, Split f l => if (n + f <=? 8)%nat then Split (n + f) l else Bad
  | Split f l, Run m => if (l + m <=? 8)%nat then Split f (l + m) else Bad
  | Split f l, Split f' l' => if subtagLength (l + f') then Split f l' else Bad
  end.

Definition ofChar (c : ascii) : shape :=
  if isAlnum c then Run 1 else if ascii_dec c "-" then Split 0 0 else Bad.

Fixpoint shapeOf (s : string) : shape :=
  match s with
  | EmptyString => Run 0
  | String c s' => mul (ofChar c) (shapeOf s')
  end.

(** A whole tag is well formed when all its subtags, the first and the last
    included, are 1 to 8 alphanumerics long. *)
Definition wellFormed (a : shape) : bool :=
  match a with
  | Bad => false
  | Run n => subtagLength n
  | Split f l => subtagLength f && subtagLength l
  end.

(** The shapes that strings have: no part longer than 8. *)
Definition normal (a : shape) : bool :=
  match a with
  | Bad => true
  | Run n => (n <=? 8)%nat
  | Split f l => ((f <=? 8) && (l <=? 8))%nat
  end.

(** Shapes of strings that are not empty and hold no hyphen; and, [Bad]
    apart, of strings that end with a hyphen; that are empty or end with a
    hyphen; that begin and end with a hyphen. *)
Definition isRun (a : shape) : bool :=
  match a with Run (S _) => true | _ => false end.

Definition closed (a : shape) : bool :=
  match a with Split _ 0 | Bad => true | _ => false end.

Definition emptyOrClosed (a : shape) : bool :=
  match a with Run 0 | Split _ 0 | Bad => true | _ => false end.

Definition hyphens (a : shape) : bool :=
  match a with Split 0 0 | Bad => true | _ => false end.

Definition eqb (a b : shape) : bool :=
  match a, b with
  | Bad, Bad => true
  | Run n, Run m => Nat.eqb n m
  | Split f l, Split f' l' => Nat.eqb f f' && Nat.eqb l l'
  | _, _ => false
  end.

(** Finite sets of shapes, as lists. *)
Definition mem (a : shape) (A : list shape) : bool := existsb (eqb a) A.

Definition add (a : shape) (A : list shape) : list shape :=
  if mem a A then A else a :: A.

Definition union (A B : list shape) : list shape := fold_right add B A.

Definition products (A B : list shape) : list shape :=
  fold_right (fun a acc => fold_right (fun b acc' => add (mul a b) acc') acc B) [] A.

Definition subset (A B : list shape) : bool := forallb (fun a => mem a B) A.

Definition allChars : list ascii := map ascii_of_nat (seq 0 256).

(** The shapes of the single characters that pass a test. *)
Definition charShapes (p : ascii -> bool) : list shape :=
  fold_right (fun c acc => if p c then add (ofChar c) acc else acc) [] allChars.

(** Up to [k] pieces with shapes in [T], in a row. *)
Fixpoint upTo (k : nat) (T : list shape) : list shape :=
  match k with
  | 0 => [Run 0]
  | S k' => add (Run 0) (products T (upTo k' T))
  end.

(** [n] pieces with shapes in [T], then one with a shape in [R]. *)
Fixpoint power (n : nat) (T R : list shape) : list shape :=
  match n with
  | 0 => R
  | S n' => products T (power n' T R)
  end.

(** A set that holds [C] and is closed under a further piece in front, if
    one is reached within [fuel] rounds. *)
Fixpoint closure (fuel : nat) (T C : list shape) : option (list shape) :=
  if subset (products T C) C then Some C
  else match fuel with
       | 0 => None
       | S fuel' => closure fuel' T (union (products T C) C)
       end.

(** The tests of the matcher on one character. *)
Definition litTest (ignoreCase : bool) (a : ascii) : ascii -> bool :=
  fun ch => if ascii_dec (RegExp.canonicalize ignoreCase ch) (RegExp.canonicalize ignoreCase a)
            then true else false.

Definition classTest (ignoreCase : bool) (ranges : list (ascii * ascii)) : ascii -> bool :=
  fun ch =>
    if ignoreCase
    then RegExp.inRanges ranges ch || RegExp.inRanges ranges (Str.charToUpper ch)
         || RegExp.inRanges ranges (Str.charToLower ch)
    else RegExp.inRanges ranges ch.

(** The shapes of the strings a pattern can match, when they can be told:
    not for a pattern with a group or a back-reference, nor when the
    closure of an unbounded quantifier is not reached. *)
Fixpoint shapes (ignoreCase : bool) (r : RegExp.regex) : option (list shape) :=
  match r with
  | RegExp.Eps | RegExp.Bol | RegExp.Eol => Some [Run 0]
  | RegExp.NegLookahead r' =>
      match shapes ignoreCase r' with
      | Some _ => Some [Run 0]
      | None => None
      end
  | RegExp.Lit a => Some (charShapes (litTest ignoreCase a))
  | RegExp.Class ranges => Some (charShapes (classTest ignoreCase ranges))
  | RegExp.Seq r1 r2 =>
      match shapes ignoreCase r1, shapes ignoreCase r2 with
      | Some A, Some B => Some (products A B)
      | _, _ => None
      end
  | RegExp.Alt r1 r2 =>
      match shapes ignoreCase r1, shapes ignoreCase r2 with
      | Some A, Some B => Some (union A B)
      | _, _ => None
      end
  | RegExp.Quant min max r' =>
      match shapes ignoreCase r' with
      | Some T =>
          match (match max with
                 | Some mx => Some (upTo (mx - min) T)
                 | None => closure 64 T [Run 0]
                 end) with
          | Some R => Some (power min T R)
          | None => None
          end
      | None => None
      end
  | RegExp.Group _ _ | RegExp.Backref _ => None
  end.

(** The part of the subject between two states of the matcher. *)
Definition piece (input : string) (x y : RegExp.mstate) : string :=
  Str.take (RegExp.endIndex y - RegExp.endIndex x) (Str.drop (RegExp.endIndex x) input).

(** A matcher is [sound] for a set of shapes when every match it finds
    spans a piece of the subject whose shape lies in the set, and leaves
    the captures as they were. *)
Definition sound (input : string) (m : RegExp.matcher) (T : list shape) : Prop :=
  forall x c z,
    within input x -> m x c = Some z ->
    exists y, ahead input x y /\ RegExp.captures y = RegExp.captures x
              /\ c y = Some z /\ mem (shapeOf (piece input x y)) T = true.

Fixpoint allAlnum (s : string) : bool :=
  match s with
  | EmptyString => true
  | String c s' => isAlnum c && allAlnum s'
  end.

(** A subtag: 1 to 8 ASCII letters or digits. *)
Definition subtag (w : string) : bool := subtagLength (String.length w) && allAlnum w.

(** The shape of a string tells how [split] cuts it. *)
Definition cut (s : string) (a : shape) : Prop :=
  match a with
  | Bad => True
  | Run n => Str.split "-" s = [s] /\ allAlnum s = true /\ String.length s = n
  | Split f l =>
      exists w ws w',
        Str.split "-" s = w :: ws ++ [w']
        /\ allAlnum w = true /\ String.length w = f
        /\ Forall (fun v => subtag v = true) ws
        /\ allAlnum w' = true /\ String.length w' = l
  end.

End Shape.

(** The alternatives of [languageTag] between its anchors. *)
Definition languageTagBody : RegExp.regex := Alts [langtag; privateuse; grandfathered].


(** Whether a match was found. *)
Definition found (o : option RegExp.mstate) : bool :=
  match o with Some _ => true | None => false end.

(** Patterns without a back-reference. *)
Fixpoint backrefFree (r : RegExp.regex) : bool :=
  match r with
  | RegExp.Eps | RegExp.Lit _ | RegExp.Class _ | RegExp.Bol | RegExp.Eol => true
  | RegExp.Seq r1 r2 | RegExp.Alt r1 r2 => backrefFree r1 && backrefFree r2
  | RegExp.Quant _ _ r' | RegExp.Group _ r' | RegExp.NegLookahead r' => backrefFree r'
  | RegExp.Backref _ => false
  end.

(** Two matchers, one on each subject, in step: they find a match together
    whenever their continuations do at equal positions. *)
Definition inStep (m m' : RegExp.matcher) : Prop :=
  forall x x' c c',
    RegExp.endIndex x = RegExp.endIndex x' ->
    (forall y y', RegExp.endIndex y = RegExp.endIndex y' -> found (c y) = found (c' y')) ->
    found (m x c) = found (m' x' c').

(** The tag as [isStructurallyValidLanguageTag] hands it to the checks for
    duplicates: without its private-use part. *)
Definition publicPart (locale : string) : string :=
  let pos := Str.indexOf locale "-x-" in
  if negb (pos =? -1)%Z then Str.substring locale 0 pos else locale.

(** The strings a pattern matches, for patterns without group,
    back-reference, look-ahead or anchor; every iteration of a quantifier
    takes at least one character. *)
Fixpoint lang (ignoreCase : bool) (r : RegExp.regex) (w : string) : Prop :=
  match r with
  | RegExp.Eps => w = ""
  | RegExp.Lit a => exists ch, w = String ch "" /\ Shape.litTest ignoreCase a ch = true
  | RegExp.Class ranges =>
      exists ch, w = String ch "" /\ Shape.classTest ignoreCase ranges ch = true
  | RegExp.Seq r1 r2 =>
      exists w1 w2, w = String.append w1 w2 /\ lang ignoreCase r1 w1 /\ lang ignoreCase r2 w2
  | RegExp.Alt r1 r2 => lang ignoreCase r1 w \/ lang ignoreCase r2 w
  | RegExp.Quant min max r' =>
      exists ws,
        w = String.concat "" ws
        /\ Forall (fun u => lang ignoreCase r' u /\ u <> "") ws
        /\ min <= length ws
        /\ match max with Some mx => length ws <= mx | None => True end
  | _ => False
  end.

(** The subject goes on with [w] at the position of [x]. *)
Definition goesOn (input : string) (x : RegExp.mstate) (w : string) : Prop :=
  exists rest, Str.drop (RegExp.endIndex x) input = String.append w rest.

(** The state after [w] has been taken. *)
Definition after (x : RegExp.mstate) (w : string) : RegExp.mstate :=
  RegExp.MState (RegExp.endIndex x + String.length w) (RegExp.captures x).

(** A matcher is [complete] for a set of strings when it finds a match
    wherever the subject goes on with one of them and the continuation
    finds a match after it. *)
Definition complete (input : string) (m : RegExp.matcher) (L : string -> Prop) : Prop :=
  forall w x c,
    L w -> goesOn input x w -> found (c (after x w)) = true -> found (m x c) = true.

(** RFC 5646 section 2.1, as the patterns of the program spell it:
    a variant is [5*8alphanum / (DIGIT 3alphanum)], a singleton one
    alphanumeric other than [x] and [X]. *)
Definition isDigit (c : ascii) : bool :=
  ((48 <=? nat_of_ascii c) && (nat_of_ascii c <=? 57))%nat.

Definition variantLike (v : string) : bool :=
  Shape.allAlnum v
  && ((5 <=? String.length v)%nat && (String.length v <=? 8)%nat
      || (String.length v =? 4)%nat
         && match v with String d _ => isDigit d | EmptyString => false end).

Definition singletonLike (v : string) : bool :=
  match v with
  | String c EmptyString =>
      Shape.isAlnum c && negb (Ascii.eqb c "x") && negb (Ascii.eqb c "X")
  | _ => false
  end.

(** A string, character by character. *)
Fixpoint letters (w : string) : list string :=
  match w with
  | EmptyString => []
  | String ch w' => String ch "" :: letters w'
  end.

(** Subtags with the hyphen that follows each. *)
Definition hyphenated (l : list string) : list string :=
  map (fun u => String.append u "-") l.

(** The subtags that the checks for duplicates can tell apart from
    others by their length: one character, or four and more. *)
Definition checkedLength (u : string) : bool :=
  (String.length u =? 1)%nat || (4 <=? String.length u)%nat.
(** * Properties *)

Ltac evaluate_subtags :=
  match goal with
  | |- context [WithTables.standardLoop _ _ _ ?l _] =>
      let l' := eval vm_compute in l in change l with l'
  end.

(** ** Strings *)

Module StrFacts.
Import Str.

Lemma take_drop n s : String.append (take n s) (drop n s) = s.
Proof.
  revert n; induction s as [|c s IH]; intros [|n]; simpl; try reflexivity.
  change (String c (String.append (take n s) (drop n s)) = String c s).
  f_equal. apply IH.
Qed.

Lemma length_drop n s : String.length (drop n s) = String.length s - n.
Proof.
  revert n; induction s as [|c s IH]; intros [|n]; simpl; auto.
Qed.

Lemma take_all n s : String.length s <= n -> take n s = s.
Proof.
  revert n; induction s as [|c s IH]; intros [|n] H; simpl in *; try reflexivity; try lia.
  rewrite IH; [reflexivity | lia].
Qed.

Lemma clamp_le s k : clamp s k <= String.length s.
Proof. unfold clamp; lia. Qed.

Lemma substring_prefix s k : substring s 0 k = take (clamp s k) s.
Proof.
  unfold substring.
  replace (clamp s 0) with 0 by (unfold clamp; lia).
  rewrite Nat.max_0_l, Nat.min_0_l, Nat.sub_0_r. reflexivity.
Qed.

Lemma substringFrom_suffix s k : substringFrom s k = drop (clamp s k) s.
Proof.
  unfold substringFrom, substring.
  pose proof (clamp_le s k) as Hk.
  replace (clamp s (Z.of_nat (String.length s))) with (String.length s)
    by (unfold clamp; lia).
  rewrite Nat.max_r, Nat.min_l by lia.
  apply take_all. rewrite length_drop. lia.
Qed.

Lemma substring_split s k :
  String.append (substring s 0 k) (substringFrom s k) = s.
Proof. rewrite substring_prefix, substringFrom_suffix. apply take_drop. Qed.

End StrFacts.

(** ** The matcher: the bound on an unbounded quantifier is never felt *)

Module RegExpFacts.
Import RegExp.

Section Bound.

Variable ignoreCase : bool.
Variable input : string.

Lemma get_within n (s : string) ch : String.get n s = Some ch -> n < String.length s.
Proof.
  revert n. induction s as [|a s IH]; intros [|n] H; simpl in *; try discriminate; try lia.
  apply IH in H. lia.
Qed.

Lemma forward_charMatcher p : forward input (charMatcher input p).
Proof.
  split; intros x; unfold charMatcher.
  - intros c c' Hx Hc. destruct (String.get _ _) as [ch|] eqn:E; [| reflexivity].
    apply get_within in E. destruct (p ch); [| reflexivity].
    apply Hc. split; simpl; lia.
  - intros _. destruct (String.get _ _) as [ch|]; [destruct (p ch) |]; reflexivity.
Qed.

Lemma forward_backref n : forward input (backrefMatcher ignoreCase input n).
Proof.
  split; intros x; unfold backrefMatcher.
  - intros c c' Hx Hc. destruct (capture n (captures x)) as [s|].
    + destruct (_ && _) eqn:E; [| reflexivity].
      apply andb_true_iff in E as [E _]. apply Nat.leb_le in E.
      apply Hc. split; simpl; lia.
    + apply Hc. split; [lia | exact Hx].
  - intros _. destruct (capture n (captures x)); [destruct (_ && _) |]; reflexivity.
Qed.

Lemma forward_repeatUpTo m gs :
  forward input m -> forall k, forward input (repeatUpTo m gs k).
Proof.
  intros [Hm Hfail] k. induction k as [|k [IHk IHfail]]; split; intros x; simpl.
  - intros c c' Hx Hc. apply Hc. split; [lia | exact Hx].
  - reflexivity.
  - intros c c' Hx Hc.
    rewrite (Hm (clearCaptures gs x) _
               (fun y => if Nat.eqb (endIndex y) (endIndex x) then None
                         else repeatUpTo m gs k y c')).
    + rewrite (Hc x) by (split; [lia | exact Hx]). reflexivity.
    + exact Hx.
    + intros y [Hy1 Hy2]. destruct (Nat.eqb _ _); [reflexivity |].
      apply IHk; [exact Hy2 |]. intros z [Hz1 Hz2]. apply Hc. split; simpl in *; lia.
  - intros Hx.
    rewrite (Hm (clearCaptures gs x) _ (fun _ => None)).
    + rewrite Hfail by exact Hx. reflexivity.
    + exact Hx.
    + intros y [_ Hy]. destruct (Nat.eqb _ _); [reflexivity |]. apply IHfail, Hy.
Qed.

Lemma forward_repeatMin m gs rest :
  forward input m -> forward input rest -> forall min, forward input (repeatMin m gs min rest).
Proof.
  intros [Hm Hfail] [Hr Hrfail] min.
  induction min as [|min [IH IHfail]]; split; intros x; simpl.
  - apply Hr.
  - apply Hrfail.
  - intros c c' Hx Hc. apply Hm; [exact Hx |].
    intros y [Hy1 Hy2]. apply IH; [exact Hy2 |].
    intros z [Hz1 Hz2]. apply Hc. split; simpl in *; lia.
  - intros Hx. rewrite (Hm (clearCaptures gs x) _ (fun _ => None)).
    + apply Hfail, Hx.
    + exact Hx.
    + intros y [_ Hy]. apply IHfail, Hy.
Qed.

Lemma forward_compile r : forward input (compile ignoreCase input r).
Proof.
  induction r as [| a | ranges | r1 [IH1 IF1] r2 [IH2 IF2] | r1 [IH1 IF1] r2 [IH2 IF2]
                 | min max r [IH IF] | n r [IH IF] | n | r [IH IF] | |]; simpl.
  - split; intros x; [intros c c' Hx Hc; apply Hc; split; [lia | exact Hx] | reflexivity].
  - apply forward_charMatcher.
  - apply forward_charMatcher.
  - split; intros x.
    + intros c c' Hx Hc. apply IH1; [exact Hx |].
      intros y [Hy1 Hy2]. apply IH2; [exact Hy2 |].
      intros z [Hz1 Hz2]. apply Hc. split; lia.
    + intros Hx. rewrite (IH1 x _ (fun _ => None)); [apply IF1, Hx | exact Hx |].
      intros y [_ Hy]. apply IF2, Hy.
  - split; intros x.
    + intros c c' Hx Hc. rewrite (IH1 x c c' Hx Hc), (IH2 x c c' Hx Hc). reflexivity.
    + intros Hx. rewrite IF1, IF2 by exact Hx. reflexivity.
  - assert (forward input (compile ignoreCase input r)) as Hm by (split; assumption).
    apply forward_repeatMin; [exact Hm |].
    split; intros x.
    + intros c c' Hx Hc. cbv zeta.
      apply (proj1 (forward_repeatUpTo _ (groupsOf r) Hm _)); assumption.
    + intros Hx. cbv zeta.
      apply (proj2 (forward_repeatUpTo _ (groupsOf r) Hm _)); assumption.
  - split; intros x.
    + intros c c' Hx Hc. apply IH; [exact Hx |].
      intros y [Hy1 Hy2]. apply Hc. split; simpl; lia.
    + intros Hx. apply IF, Hx.
  - apply forward_backref.
  - split; intros x.
    + intros c c' Hx Hc. destruct (compile _ _ r x _); [reflexivity |].
      apply Hc. split; [lia | exact Hx].
    + intros _. destruct (compile _ _ r x _); reflexivity.
  - split; intros x.
    + intros c c' Hx Hc. destruct (Nat.eqb _ _); [| reflexivity].
      apply Hc. split; [lia | exact Hx].
    + intros _. destruct (Nat.eqb _ _); reflexivity.
  - split; intros x.
    + intros c c' Hx Hc. destruct (Nat.eqb _ _); [| reflexivity].
      apply Hc. split; [lia | exact Hx].
    + intros _. destruct (Nat.eqb _ _); reflexivity.
Qed.

(** Once [k] covers the characters left, one more permitted iteration
    changes nothing: an iteration must consume a character. *)
Lemma repeatUpTo_step m gs :
  forward input m ->
  forall k x c, within input x -> String.length input - endIndex x <= k ->
    repeatUpTo m gs (S k) x c = repeatUpTo m gs k x c.
Proof.
  intros [Hm Hfail] k. induction k as [|k IH]; intros x c Hx Hk.
  - simpl. rewrite (Hm (clearCaptures gs x) _ (fun _ => None)).
    + rewrite Hfail by exact Hx. reflexivity.
    + exact Hx.
    + intros y [Hy1 Hy2]. simpl in Hy1. unfold within in Hx.
      replace (Nat.eqb (endIndex y) (endIndex x)) with true; [reflexivity |].
      symmetry. apply Nat.eqb_eq. lia.
  - change (repeatUpTo m gs (S (S k)) x c)
      with (match m (clearCaptures gs x)
                    (fun y => if Nat.eqb (endIndex y) (endIndex x) then None
                              else repeatUpTo m gs (S k) y c) with
            | Some z => Some z
            | None => c x
            end).
    change (repeatUpTo m gs (S k) x c)
      with (match m (clearCaptures gs x)
                    (fun y => if Nat.eqb (endIndex y) (endIndex x) then None
                              else repeatUpTo m gs k y c) with
            | Some z => Some z
            | None => c x
            end).
    rewrite (Hm (clearCaptures gs x) _
               (fun y => if Nat.eqb (endIndex y) (endIndex x) then None
                         else repeatUpTo m gs k y c)); [reflexivity | exact Hx |].
    intros y [Hy1 Hy2]. simpl in Hy1.
    destruct (Nat.eqb (endIndex y) (endIndex x)) eqn:E; [reflexivity |].
    apply Nat.eqb_neq in E. apply IH; [exact Hy2 | lia].
Qed.

Lemma repeatUpTo_bound m gs :
  forward input m ->
  forall extra x c, within input x ->
    repeatUpTo m gs (String.length input - endIndex x + extra) x c
    = repeatUpTo m gs (String.length input - endIndex x) x c.
Proof.
  intros Hm extra. induction extra as [|extra IH]; intros x c Hx.
  - rewrite Nat.add_0_r. reflexivity.
  - rewrite Nat.add_succ_r, repeatUpTo_step by (auto; lia). apply IH, Hx.
Qed.

(** For a compiled pattern under an unbounded quantifier, any bound past the
    characters left gives the outcome of the bound the matcher uses. *)
Lemma unbounded_quantifier_bound r gs extra x c :
  within input x ->
  repeatUpTo (compile ignoreCase input r) gs
             (String.length input - endIndex x + extra) x c
  = repeatUpTo (compile ignoreCase input r) gs (String.length input - endIndex x) x c.
Proof. apply repeatUpTo_bound, forward_compile. Qed.

End Bound.

End RegExpFacts.

(** ** removeUnicodeExtensions *)

(** C3.  [removeUnicodeExtensions] cuts the tag at the private-use boundary
    and glues the two halves back together without touching the left one: it
    returns every tag unchanged, so a tag that carries a Unicode extension,
    such as [de-u-co-phonebk], keeps it. *)
Theorem removeUnicodeExtensions_unchanged :
  removeUnicodeExtensions "de-u-co-phonebk" = "de-u-co-phonebk"
  /\ forall locale : string, removeUnicodeExtensions locale = locale.
Proof.
  split; [reflexivity |].
  intros locale. unfold removeUnicodeExtensions.
  destruct (Str.startsWith locale "x-"); [reflexivity |].
  apply StrFacts.substring_split.
Qed.

(** ** The two loops of canonicalizeLanguageTag over the empty tables *)

Module LoopFacts.
Import WithTables.

Lemma ownProperty_empty {V} (key : string) :
  ownProperty (∅ : gmap string V) key = Normal None.
Proof. unfold ownProperty. rewrite !lookup_empty. reflexivity. Qed.

Lemma bind_Normal {A B} (a : A) (k : A -> completion B) : Normal a ≫= k = k a.
Proof. reflexivity. Qed.

Lemma bind_Throw {A B} (e : error) (k : A -> completion B) : Throw e ≫= k = Throw e.
Proof. reflexivity. Qed.

(** One turn of the first loop when no table has an entry. *)
Lemma standardLoop_turn fuel subtags i subtag :
  subtags !! i = Some subtag ->
  (String.length subtag =? 1)%nat && ((0 <? i)%nat || String.eqb subtag "x") = false ->
  standardLoop ∅ ∅ (S fuel) subtags i
  = standardLoop ∅ ∅ fuel (<[i := recase i subtag]> subtags) (S i).
Proof.
  intros Hi Hb. simpl. rewrite Hi, Hb.
  rewrite !ownProperty_empty, !bind_Normal. reflexivity.
Qed.

Lemma standardLoop_break fuel subtags i subtag :
  subtags !! i = Some subtag ->
  (String.length subtag =? 1)%nat && ((0 <? i)%nat || String.eqb subtag "x") = true ->
  standardLoop ∅ ∅ fuel subtags i = Normal (subtags, i).
Proof. intros Hi Hb. destruct fuel; simpl; rewrite Hi, Hb; reflexivity. Qed.

(** If a one-character subtag other than [x] sits at [k > 0] and no [x]
    subtag lies in [i, k), the first loop started at [i] stops on a subtag
    that is not [x]. *)
Lemma standardLoop_stops_on_singleton fuel :
  forall (subtags : list string) (i k : nat) (s : string),
    i <= k -> k - i <= fuel -> 0 < k ->
    subtags !! k = Some s -> String.length s = 1 -> s <> "x" ->
    (forall j, i <= j < k -> subtags !! j <> Some "x") ->
    exists subtags' b s',
      standardLoop ∅ ∅ fuel subtags i = Normal (subtags', b)
      /\ subtags' !! b = Some s' /\ s' <> "x".
Proof.
  induction fuel as [|fuel IH]; intros subtags i k s Hik Hfuel Hk Hs Hlen Hx Hno.
  - assert (i = k) by lia; subst i.
    exists subtags, k, s. split; [|split]; auto.
    apply standardLoop_break with (subtag := s); auto.
    rewrite Hlen. destruct k; [lia | reflexivity].
  - destruct (subtags !! i) as [si|] eqn:Hsi.
    2: { apply lookup_ge_None in Hsi. apply lookup_lt_Some in Hs. lia. }
    destruct ((String.length si =? 1)%nat && ((0 <? i)%nat || String.eqb si "x")) eqn:Hb.
    + exists subtags, i, si. split; [|split]; auto.
      * eapply standardLoop_break; eauto.
      * intros ->. destruct (decide (i = k)) as [->|Hne].
        -- rewrite Hs in Hsi. congruence.
        -- apply (Hno i); [lia | assumption].
    + assert (i <> k) as Hne.
      { intros ->. rewrite Hs in Hsi. injection Hsi as <-.
        rewrite Hlen in Hb. destruct k; [lia | discriminate]. }
      rewrite (standardLoop_turn _ _ _ _ Hsi Hb).
      apply (IH _ (S i) k s); try lia; auto.
      * rewrite list_lookup_insert_ne by lia. assumption.
      * intros j Hj. rewrite list_lookup_insert_ne by lia. apply Hno. lia.
Qed.

(** Entering the body of the second loop evaluates [sybtags]. *)
Lemma extensionLoop_raises fuel subtags i extensions s :
  subtags !! i = Some s -> s <> "x" -> fuel <> 0 ->
  extensionLoop fuel subtags i extensions = Throw (ReferenceError "sybtags").
Proof.
  intros Hi Hx Hfuel. destruct fuel as [|fuel]; [congruence |].
  simpl. rewrite Hi.
  destruct (String.eqb s "x") eqn:E; [apply String.eqb_eq in E; congruence |].
  reflexivity.
Qed.

(** Turns of the first loop over arbitrary tables that do not hide
    [hasOwnProperty]. *)
Section Turns.

Variables subtagMappings : gmap string string.
Variable extlangs : gmap string extlangMapping.
Hypothesis subtagMappings_method : subtagMappings !! "hasOwnProperty" = None.
Hypothesis extlangs_method : extlangs !! "hasOwnProperty" = None.

Variables (fuel : nat) (subtags : list string) (i : nat) (subtag : string).
Hypothesis at_i : subtags !! i = Some subtag.
Hypothesis no_break :
  (String.length subtag =? 1)%nat && ((0 <? i)%nat || String.eqb subtag "x") = false.

Lemma standardLoop_unmapped :
  subtagMappings !! recase i subtag = None ->
  extlangs !! recase i subtag = None ->
  standardLoop subtagMappings extlangs (S fuel) subtags i
  = standardLoop subtagMappings extlangs fuel (<[i := recase i subtag]> subtags) (S i).
Proof.
  intros Hsub Hext. simpl. rewrite at_i, no_break. unfold ownProperty.
  rewrite subtagMappings_method, Hsub, bind_Normal.
  rewrite extlangs_method, Hext, bind_Normal. reflexivity.
Qed.

Lemma standardLoop_mapped (mapped : string) :
  subtagMappings !! recase i subtag = Some mapped ->
  standardLoop subtagMappings extlangs (S fuel) subtags i
  = standardLoop subtagMappings extlangs fuel (<[i := mapped]> subtags) (S i).
Proof.
  intros Hsub. simpl. rewrite at_i, no_break. unfold ownProperty.
  rewrite subtagMappings_method, Hsub, bind_Normal. reflexivity.
Qed.

Lemma standardLoop_elided (e e' : extlangMapping) :
  i = 1 ->
  subtagMappings !! recase i subtag = None ->
  extlangs !! recase i subtag = Some e ->
  extlangs !! preferred e = Some e' ->
  subtags !! 0 = Some (prefix e') ->
  standardLoop subtagMappings extlangs (S fuel) subtags i
  = standardLoop subtagMappings extlangs fuel (<[0 := preferred e]> (tail subtags)) 1.
Proof.
  intros Hi Hsub Hext Hpref H0. simpl. rewrite at_i, no_break. unfold ownProperty.
  rewrite subtagMappings_method, Hsub, bind_Normal.
  rewrite extlangs_method, Hext, bind_Normal.
  subst i. simpl. unfold prefixOf. rewrite Hpref, bind_Normal, H0.
  rewrite bool_decide_eq_true_2 by (split; [reflexivity | eexists; reflexivity]).
  reflexivity.
Qed.

End Turns.

End LoopFacts.

(** ** The loop bounds are enough *)

Module Fuel.
Import WithTables.

Section Bounds.

Variables subtagMappings : gmap string string.
Variable extlangs : gmap string extlangMapping.

Lemma standardLoop_done fuel (subtags : list string) i :
  length subtags <= i ->
  standardLoop subtagMappings extlangs fuel subtags i = Normal (subtags, i).
Proof.
  intros H. apply lookup_ge_None in H. destruct fuel; simpl; rewrite H; reflexivity.
Qed.

(** Any two bounds of at least [length subtags - i] turns give the same
    outcome: the first loop never stops for want of turns. *)
Lemma standardLoop_fuel n :
  forall m (subtags : list string) i,
    length subtags - i <= n -> length subtags - i <= m ->
    standardLoop subtagMappings extlangs n subtags i
    = standardLoop subtagMappings extlangs m subtags i.
Proof.
  induction n as [|n IH]; intros m subtags i Hn Hm.
  - rewrite !standardLoop_done by lia. reflexivity.
  - destruct m as [|m]; [rewrite !standardLoop_done by lia; reflexivity |].
    simpl. destruct (subtags !! i) as [s|] eqn:Hs; [| reflexivity].
    apply lookup_lt_Some in Hs.
    destruct (_ && _); [reflexivity |].
    destruct (ownProperty subtagMappings _) as [[mapped|]|e];
      rewrite ?LoopFacts.bind_Normal, ?LoopFacts.bind_Throw; try reflexivity.
    { apply IH; rewrite length_insert; lia. }
    destruct (ownProperty extlangs _) as [[e'|]|e];
      rewrite ?LoopFacts.bind_Normal, ?LoopFacts.bind_Throw; try reflexivity.
    2: { apply IH; rewrite length_insert; lia. }
    destruct (i =? 1)%nat eqn:Hi.
    2: { apply IH; rewrite length_insert; lia. }
    apply Nat.eqb_eq in Hi. subst i.
    destruct (prefixOf extlangs _) as [p|e];
      rewrite ?LoopFacts.bind_Normal, ?LoopFacts.bind_Throw; try reflexivity.
    destruct (bool_decide _).
    + apply IH; rewrite length_insert, length_tl; simpl; lia.
    + apply IH; rewrite length_insert; lia.
Qed.

End Bounds.

Lemma skipSubtags_fuel n :
  forall m (subtags : list string) i,
    length subtags - i <= n -> length subtags - i <= m ->
    skipSubtags n subtags i = skipSubtags m subtags i.
Proof.
  induction n as [|n IH]; intros m subtags i Hn Hm.
  - assert (subtags !! i = None) as H by (apply lookup_ge_None; lia).
    destruct m; simpl; rewrite H; reflexivity.
  - destruct m as [|m].
    + assert (subtags !! i = None) as H by (apply lookup_ge_None; lia).
      simpl; rewrite H; reflexivity.
    + simpl. destruct (subtags !! i) as [s|] eqn:Hs; [| reflexivity].
      apply lookup_lt_Some in Hs.
      destruct (1 <? String.length s)%nat; [| reflexivity].
      apply IH; lia.
Qed.

Lemma skipSubtags_bounds fuel :
  forall (subtags : list string) i, i <= skipSubtags fuel subtags i.
Proof.
  induction fuel as [|fuel IH]; intros subtags i; simpl.
  - destruct (subtags !! i) as [s|]; [destruct (1 <? String.length s)%nat |]; lia.
  - destruct (subtags !! i) as [s|]; [destruct (1 <? String.length s)%nat |]; try lia.
    specialize (IH subtags (S i)). lia.
Qed.

Lemma extensionLoop_fuel n :
  forall m (subtags : list string) i extensions,
    length subtags - i <= n -> length subtags - i <= m ->
    extensionLoop n subtags i extensions = extensionLoop m subtags i extensions.
Proof.
  induction n as [|n IH]; intros m subtags i extensions Hn Hm.
  - assert (subtags !! i = None) as H by (apply lookup_ge_None; lia).
    destruct m; simpl; rewrite H; reflexivity.
  - destruct m as [|m].
    + assert (subtags !! i = None) as H by (apply lookup_ge_None; lia).
      simpl; rewrite H; reflexivity.
    + simpl. destruct (subtags !! i) as [s|] eqn:Hs; [| reflexivity].
      destruct (String.eqb s "x"); reflexivity.
Qed.

End Fuel.

(** ** More on strings: case, split and join *)

Module CaseFacts.
Import Str.

Lemma charToLower_idem c : charToLower (charToLower c) = charToLower c.
Proof. destruct c as [[] [] [] [] [] [] [] []]; reflexivity. Qed.

Lemma charToLower_upper c : charToLower (charToUpper c) = charToLower c.
Proof. destruct c as [[] [] [] [] [] [] [] []]; reflexivity. Qed.

Lemma charToLower_hyphen c : charToLower c = "-"%char <-> c = "-"%char.
Proof. destruct c as [[] [] [] [] [] [] [] []]; split; intros H; first [reflexivity | discriminate H]. Qed.

Lemma toLowerCase_idem s : toLowerCase (toLowerCase s) = toLowerCase s.
Proof. induction s as [|c s IH]; simpl; [reflexivity |]. now rewrite charToLower_idem, IH. Qed.

Lemma toLowerCase_upper s : toLowerCase (toUpperCase s) = toLowerCase s.
Proof. induction s as [|c s IH]; simpl; [reflexivity |]. now rewrite charToLower_upper, IH. Qed.

Lemma append_cons c a b : String.append (String c a) b = String c (String.append a b).
Proof. reflexivity. Qed.

Lemma append_nil_l a : String.append "" a = a.
Proof. reflexivity. Qed.

Lemma toLowerCase_app a b :
  toLowerCase (String.append a b) = String.append (toLowerCase a) (toLowerCase b).
Proof.
  induction a as [|c a IH]; [reflexivity |].
  rewrite append_cons. simpl. rewrite IH. reflexivity.
Qed.

Lemma length_app a b :
  String.length (String.append a b) = String.length a + String.length b.
Proof. induction a as [|c a IH]; [reflexivity |]. rewrite append_cons. simpl. now rewrite IH. Qed.

Lemma split_nonempty sep s : split sep s <> [].
Proof.
  destruct s as [|c s]; simpl; [discriminate |].
  destruct (ascii_dec c sep); [discriminate |].
  destruct (split sep s); discriminate.
Qed.

Lemma split_lower s : split "-" (toLowerCase s) = map toLowerCase (split "-" s).
Proof.
  induction s as [|c s IH]; [reflexivity |]. simpl.
  destruct (ascii_dec c "-") as [->|Hc].
  - simpl. now rewrite IH.
  - destruct (ascii_dec (charToLower c) "-") as [E|_].
    + exfalso. apply Hc. apply charToLower_hyphen. exact E.
    + rewrite IH. destruct (split "-" s); reflexivity.
Qed.

Lemma join_cons sep x y l :
  join sep (x :: y :: l) = String.append x (String.append sep (join sep (y :: l))).
Proof. reflexivity. Qed.

Lemma join_split s : join "-" (split "-" s) = s.
Proof.
  induction s as [|c s IH]; [reflexivity |]. simpl.
  pose proof (split_nonempty "-" s) as Hne.
  destruct (ascii_dec c "-") as [->|Hc].
  - destruct (split "-" s) as [|w ws]; [congruence |].
    rewrite join_cons, IH. reflexivity.
  - destruct (split "-" s) as [|w ws]; [congruence |].
    destruct ws as [|w' ws].
    + simpl in *. now rewrite IH.
    + rewrite join_cons in *. rewrite append_cons, IH. reflexivity.
Qed.

Lemma toLowerCase_join l :
  toLowerCase (join "-" l) = join "-" (map toLowerCase l).
Proof.
  induction l as [|x [|y l] IH]; [reflexivity | reflexivity |].
  change (map toLowerCase (x :: y :: l))
    with (toLowerCase x :: toLowerCase y :: map toLowerCase l).
  rewrite !join_cons, !toLowerCase_app, IH. reflexivity.
Qed.

Lemma append_assoc a b c :
  String.append (String.append a b) c = String.append a (String.append b c).
Proof. induction a as [|x a IH]; [reflexivity |]. rewrite !append_cons, IH. reflexivity. Qed.

Lemma join_app sep l1 l2 :
  l1 <> [] -> l2 <> [] ->
  join sep (l1 ++ l2) = String.append (join sep l1) (String.append sep (join sep l2)).
Proof.
  intros H1 H2. induction l1 as [|x [|y l1] IH]; [congruence | |].
  - destruct l2 as [|z l2]; [congruence |]. reflexivity.
  - change ((x :: y :: l1) ++ l2) with (x :: y :: (l1 ++ l2)).
    rewrite !join_cons.
    change (y :: l1 ++ l2) with ((y :: l1) ++ l2).
    rewrite IH by discriminate. rewrite !append_assoc. reflexivity.
Qed.

Lemma join_empty l : join "-" l = "" -> l = [] \/ l = [""].
Proof.
  destruct l as [|x [|y l]]; [now left | |].
  - simpl. intros ->. now right.
  - rewrite join_cons. intros H. apply (f_equal String.length) in H.
    rewrite !length_app in H. simpl in H. lia.
Qed.

Lemma recase_lower i s : toLowerCase (WithTables.recase i s) = toLowerCase s.
Proof.
  unfold WithTables.recase.
  destruct (String.length s =? 4)%nat.
  - rewrite toLowerCase_app, toLowerCase_upper, <- toLowerCase_app.
    now rewrite StrFacts.substring_split.
  - destruct (negb (i =? 0)%nat && (String.length s =? 2)%nat);
      [apply toLowerCase_upper | reflexivity].
Qed.

End CaseFacts.

(** ** A returned tag canonicalizes to itself *)

Module Idempotence.
Import Str CaseFacts LoopFacts.

Lemma map_fmap {A B} (f : A -> B) (l : list A) : map f l = f <$> l.
Proof. reflexivity. Qed.

(** What the first loop leaves behind when no table has an entry. *)
Lemma standardLoop_plain fuel :
  forall (subtags : list string) i subtags' b,
    length subtags - i <= fuel -> i <= length subtags ->
    WithTables.standardLoop ∅ ∅ fuel subtags i = Normal (subtags', b) ->
    map toLowerCase subtags' = map toLowerCase subtags
    /\ List.skipn b subtags' = List.skipn b subtags
    /\ length subtags' = length subtags
    /\ i <= b <= length subtags
    /\ (b < length subtags ->
        exists s, subtags' !! b = Some s /\ String.length s = 1).
Proof.
  induction fuel as [|fuel IH]; intros subtags i subtags' b Hfuel Hi Hloop.
  - rewrite Fuel.standardLoop_done in Hloop by lia.
    injection Hloop as <- <-. repeat split; auto; lia.
  - destruct (subtags !! i) as [s|] eqn:Hs.
    2: { apply lookup_ge_None in Hs.
         rewrite Fuel.standardLoop_done in Hloop by lia.
         injection Hloop as <- <-. repeat split; auto; lia. }
    pose proof (lookup_lt_Some _ _ _ Hs) as Hlt.
    destruct ((String.length s =? 1)%nat && ((0 <? i)%nat || String.eqb s "x")) eqn:Hb.
    + rewrite (standardLoop_break _ _ _ _ Hs Hb) in Hloop.
      injection Hloop as <- <-. repeat split; auto; try lia.
      intros _. exists s. split; [assumption |].
      apply andb_true_iff in Hb as [Hb _]. now apply Nat.eqb_eq in Hb.
    + rewrite (standardLoop_turn _ _ _ _ Hs Hb) in Hloop.
      apply IH in Hloop; rewrite ?length_insert in *; try lia.
      destruct Hloop as (Hlow & Hdrop & Hlen & Hle & Hsingle).
      repeat split; auto; try lia.
      * rewrite Hlow, !map_fmap, list_fmap_insert, recase_lower.
        apply list_insert_id. rewrite list_lookup_fmap, Hs. reflexivity.
      * rewrite Hdrop. apply drop_insert_lt. lia.
Qed.

(** The second loop returns only when it does not enter its body. *)
Lemma extensionLoop_normal fuel (subtags : list string) i extensions extensions' i' :
  WithTables.extensionLoop fuel subtags i extensions = Normal (extensions', i') ->
  extensions' = extensions /\ i' = i
  /\ (fuel <> 0 -> subtags !! i = None \/ subtags !! i = Some "x").
Proof.
  destruct fuel as [|fuel]; simpl;
    destruct (subtags !! i) as [s|]; try destruct (String.eqb s "x") eqn:E;
    intros H; try discriminate H; injection H as <- <-;
    repeat split; auto; try congruence.
  intros _. right. apply String.eqb_eq in E. now subst.
Qed.

Lemma extensionLoop_private fuel (subtags : list string) i extensions :
  subtags !! i = Some "x" ->
  WithTables.extensionLoop fuel subtags i extensions = Normal (extensions, i).
Proof. intros H. destruct fuel; simpl; rewrite H; reflexivity. Qed.

Lemma canonicalizeLanguageTag_case (t t' : string) :
  toLowerCase t = toLowerCase t' ->
  canonicalizeLanguageTag t = canonicalizeLanguageTag t'.
Proof.
  intros H. unfold canonicalizeLanguageTag, WithTables.canonicalizeLanguageTag.
  rewrite H. reflexivity.
Qed.

(** Whenever canonicalization returns a tag, canonicalizing that tag
    returns it again. *)
Lemma canonicalizeLanguageTag_fixed (t c : string) :
  canonicalizeLanguageTag t = Normal c -> canonicalizeLanguageTag c = Normal c.
Proof.
  intros Hc. pose proof Hc as Hc0.
  unfold canonicalizeLanguageTag, WithTables.canonicalizeLanguageTag,
    langTagMappings, langSubtagMappings, extlangMappings in Hc.
  rewrite ownProperty_empty, bind_Normal in Hc.
  set (L := split "-" (toLowerCase t)) in *.
  assert (map toLowerCase L = L) as HL.
  { unfold L. rewrite <- split_lower, toLowerCase_idem. reflexivity. }
  assert (join "-" L = toLowerCase t) as Hjoin by apply join_split.
  assert (L <> []) as HLne by apply split_nonempty.
  destruct (WithTables.standardLoop ∅ ∅ (length L) L 0) as [[L' b]|e] eqn:Hloop;
    [| discriminate Hc].
  rewrite bind_Normal in Hc.
  destruct (WithTables.extensionLoop (length L') L' b []) as [[exts i']|e] eqn:Hext;
    [| discriminate Hc].
  rewrite bind_Normal in Hc.
  apply extensionLoop_normal in Hext as (-> & -> & Hstop).
  apply standardLoop_plain in Hloop as (Hlow & Hdrop & Hlen & Hb & Hsingle); [| lia | lia].
  rewrite HL in Hlow.
  injection Hc as Hc.
  change (Str.sort []) with (@nil string) in Hc.
  change (length (@nil string)) with 0 in Hc.
  change (0 <? 0)%nat with false in Hc.
  cbv beta iota in Hc.
  unfold slice, sliceFrom in Hc. rewrite Nat.sub_0_r, drop_0 in Hc.
  assert (join "-" L' = c -> canonicalizeLanguageTag c = Normal c) as Hsame.
  { intros <-. rewrite <- Hc0. apply canonicalizeLanguageTag_case.
    rewrite toLowerCase_join, Hlow, Hjoin. reflexivity. }
  destruct (b <? length L')%nat eqn:Hbl.
  2: { apply Nat.ltb_ge in Hbl. simpl in Hc.
       apply Hsame. rewrite <- Hc, take_ge by lia. reflexivity. }
  apply Nat.ltb_lt in Hbl.
  destruct Hsingle as (s & Hs & Hs1); [lia |].
  assert (s = "x") as ->.
  { destruct Hstop as [Hnone | Hx]; [lia | congruence | congruence]. }
  pose proof (drop_S _ _ _ Hs) as Hprivate.
  assert (0 < String.length (join "-" (list.drop b L'))) as Hpos.
  { rewrite Hprivate. destruct (list.drop (S b) L').
    - simpl. lia.
    - rewrite join_cons, length_app. simpl. lia. }
  apply Nat.ltb_lt in Hpos. rewrite Hpos in Hc.
  destruct (0 <? String.length (join "-" (list.take b L')))%nat eqn:Hnormal.
  { apply Hsame. rewrite <- Hc, <- join_app, take_drop; [reflexivity | |].
    - intros E. rewrite E in Hnormal. discriminate Hnormal.
    - rewrite Hprivate. discriminate. }
  apply Nat.ltb_ge in Hnormal.
  assert (join "-" (list.take b L') = "") as Hempty.
  { destruct (join "-" (list.take b L')); [reflexivity | simpl in Hnormal; lia]. }
  apply join_empty in Hempty as [Hnil | Hone].
  { apply Hsame. apply (f_equal (@length string)) in Hnil.
    rewrite length_take_le in Hnil by lia. simpl in Hnil. subst b.
    rewrite <- Hc, drop_0. reflexivity. }
  (* the standard part is one empty subtag: the result is the private-use part *)
  assert (b = 1) as ->.
  { apply (f_equal (@length string)) in Hone.
    rewrite length_take_le in Hone by lia. exact Hone. }
  set (M := list.drop 1 L') in *.
  assert (L' = "" :: M) as HL'.
  { rewrite <- (take_drop 1 L'), Hone. reflexivity. }
  assert (L = "" :: M) as HLM.
  { rewrite <- Hlow, HL'. simpl. f_equal.
    rewrite map_fmap, <- (drop_0 (toLowerCase <$> M)).
    change (toLowerCase <$> M) with (list.drop 1 (toLowerCase <$> ("" :: M))).
    rewrite <- HL', <- map_fmap, Hlow, <- Hdrop. reflexivity. }
  assert (toLowerCase t = String "-" c) as Ht.
  { rewrite <- Hjoin, HLM, <- Hc, Hprivate. reflexivity. }
  assert (toLowerCase c = c) as Hcl.
  { pose proof (toLowerCase_idem t) as H. rewrite Ht in H. simpl in H.
    injection H as H. exact H. }
  assert (split "-" c = M) as Hsplit.
  { pose proof (eq_refl L) as H. unfold L at 1 in H. rewrite Ht, HLM in H.
    simpl in H. injection H as H. exact H. }
  assert (M !! 0 = Some "x") as HM0.
  { unfold M. rewrite lookup_drop. exact Hs. }
  unfold canonicalizeLanguageTag, WithTables.canonicalizeLanguageTag,
    langTagMappings, langSubtagMappings, extlangMappings.
  rewrite ownProperty_empty, bind_Normal, Hcl, Hsplit.
  rewrite (standardLoop_break _ _ _ _ HM0 eq_refl), bind_Normal.
  rewrite (extensionLoop_private _ _ _ _ HM0), bind_Normal.
  f_equal.
  change (Str.sort []) with (@nil string).
  unfold slice, sliceFrom. rewrite drop_0.
  assert (0 < length M) as HMlen by (apply lookup_lt_Some in HM0; exact HM0).
  apply Nat.ltb_lt in HMlen. rewrite HMlen, Hpos. exact Hc.
Qed.

End Idempotence.

(** Canonicalization is idempotent wherever it returns: the tag returned
    for a structurally valid tag canonicalizes to itself. *)
Theorem canonicalizeLanguageTag_again (t c : string) :
  isStructurallyValidLanguageTag t = true ->
  canonicalizeLanguageTag t = Normal c -> canonicalizeLanguageTag c = Normal c.
Proof. intros _. apply Idempotence.canonicalizeLanguageTag_fixed. Qed.

Lemma canonicalizeLanguageTag_again_witness :
  isStructurallyValidLanguageTag "Zh-NAN-haNS-bu-x-PRIVATE" = true
  /\ canonicalizeLanguageTag "Zh-NAN-haNS-bu-x-PRIVATE" = Normal "zh-nan-Hans-BU-x-private"
  /\ canonicalizeLanguageTag "zh-nan-Hans-BU-x-private" = Normal "zh-nan-Hans-BU-x-private".
Proof.
  split; [vm_compute; reflexivity |].
  split; [vm_compute; reflexivity |].
  apply (canonicalizeLanguageTag_again "Zh-NAN-haNS-bu-x-PRIVATE");
    vm_compute; reflexivity.
Defined.

(** ** canonicalizeLocaleList: order, duplicates, first failure *)

Module ListFacts.

Lemma firstOccurrences_elem (l : list string) (x : string) :
  x ∈ firstOccurrences l <-> x ∈ l.
Proof.
  induction l as [|y l IH]; simpl; [reflexivity |].
  rewrite !elem_of_cons, list_elem_of_filter, IH.
  destruct (decide (x = y)); intuition.
Qed.

Lemma firstOccurrences_NoDup (l : list string) : NoDup (firstOccurrences l).
Proof.
  induction l as [|y l IH]; simpl; constructor.
  - rewrite list_elem_of_filter. intros [H _]. apply H. reflexivity.
  - apply NoDup_filter, IH.
Qed.

(** Insertions into the [Set], one after the other. *)
Lemma Set_add_all (tags seen : list string) :
  fold_left WithTables.Set_add tags seen
  = seen ++ filter (fun y => y ∉ seen) (firstOccurrences tags).
Proof.
  revert seen. induction tags as [|x tags IH]; intros seen; simpl.
  - rewrite app_nil_r. reflexivity.
  - rewrite IH. unfold WithTables.Set_add. case_bool_decide as Hx.
    + rewrite filter_cons_False by (intros H; apply H, Hx).
      rewrite list_filter_filter_l; [reflexivity |].
      intros y Hy ->. apply Hy, Hx.
    + rewrite filter_cons_True by exact Hx.
      rewrite <- app_assoc. simpl. do 2 f_equal.
      rewrite list_filter_filter. apply list_filter_iff.
      intros y. rewrite not_elem_of_app, list_elem_of_singleton. reflexivity.
Qed.

Lemma Set_add_all_fresh (tags : list string) :
  fold_left WithTables.Set_add tags [] = firstOccurrences tags.
Proof.
  rewrite Set_add_all. simpl.
  induction (firstOccurrences tags) as [|x l IH]; [reflexivity |].
  rewrite filter_cons_True by apply not_elem_of_nil. f_equal. exact IH.
Qed.

Lemma visit_canonical (seen : list string) (t c : string) :
  isStructurallyValidLanguageTag t = true ->
  canonicalizeLanguageTag t = Normal c ->
  WithTables.visit langTagMappings langSubtagMappings extlangMappings seen t
  = Normal (WithTables.Set_add seen c).
Proof.
  intros Hv Hc. unfold WithTables.visit. rewrite Hv. simpl.
  fold canonicalizeLanguageTag. rewrite Hc. reflexivity.
Qed.

Lemma forEach_app (before rest cs : list string) :
  canonicalForms before cs ->
  forall seen,
    forEachTag (before ++ rest) seen
    = forEachTag rest (fold_left WithTables.Set_add cs seen).
Proof.
  induction 1 as [|t c tags cs [Hv Hc] _ IH]; intros seen; [reflexivity |].
  unfold forEachTag in *. simpl.
  rewrite (visit_canonical seen t c Hv Hc). apply IH.
Qed.

Lemma forEach_canonical (tags cs : list string) :
  canonicalForms tags cs ->
  forall seen, forEachTag tags seen = Normal (fold_left WithTables.Set_add cs seen).
Proof.
  intros H seen. rewrite <- (app_nil_r tags), (forEach_app tags [] cs H). reflexivity.
Qed.

(** [forEach] stops at the first element on which the callback throws. *)
Lemma forEach_raises (t : string) (after : list string) :
  (forall seen,
      raises (WithTables.visit langTagMappings langSubtagMappings extlangMappings seen t)) ->
  forall before seen, raises (forEachTag (before ++ t :: after) seen).
Proof.
  intros Ht before. unfold forEachTag.
  induction before as [|u before IH]; intros seen; simpl.
  - destruct (Ht seen) as [e He]. rewrite He. exists e. reflexivity.
  - destruct (WithTables.visit _ _ _ seen u) as [seen'|e].
    + apply IH.
    + exists e. reflexivity.
Qed.

End ListFacts.

(** When every element is valid and canonicalizes, the result holds the
    canonical forms once each, in the order in which they first appear. *)
Theorem canonicalizeLocaleList_first_seen (tags cs : list string) :
  canonicalForms tags cs ->
  canonicalizeLocaleList (LocalesList tags) = Normal (firstOccurrences cs)
  /\ NoDup (firstOccurrences cs)
  /\ forall c, c ∈ firstOccurrences cs <-> c ∈ cs.
Proof.
  intros H. split; [| split].
  - change (forEachTag tags [] = Normal (firstOccurrences cs)).
    rewrite (ListFacts.forEach_canonical _ _ H), ListFacts.Set_add_all_fresh.
    reflexivity.
  - apply ListFacts.firstOccurrences_NoDup.
  - intros c. apply ListFacts.firstOccurrences_elem.
Qed.

Lemma canonicalizeLocaleList_first_seen_witness :
  canonicalForms ["de"; "FR-fr"; "DE"; "en-x-a"] ["de"; "fr-FR"; "de"; "en-x-a"]
  /\ canonicalizeLocaleList (LocalesList ["de"; "FR-fr"; "DE"; "en-x-a"])
     = Normal ["de"; "fr-FR"; "en-x-a"].
Proof.
  assert (canonicalForms ["de"; "FR-fr"; "DE"; "en-x-a"] ["de"; "fr-FR"; "de"; "en-x-a"])
    as H by (repeat constructor; vm_compute; reflexivity).
  split; [exact H |].
  exact (proj1 (canonicalizeLocaleList_first_seen _ _ H)).
Defined.

(** A list [a, b, a] of valid tags with distinct canonical forms yields
    the two forms, in that order. *)
Theorem canonicalizeLocaleList_a_b_a (a b ca cb : string) :
  isStructurallyValidLanguageTag a = true -> canonicalizeLanguageTag a = Normal ca ->
  isStructurallyValidLanguageTag b = true -> canonicalizeLanguageTag b = Normal cb ->
  ca <> cb ->
  canonicalizeLocaleList (LocalesList [a; b; a]) = Normal [ca; cb].
Proof.
  intros Ha Hca Hb Hcb Hne.
  assert (canonicalForms [a; b; a] [ca; cb; ca]) as H by (repeat constructor; assumption).
  change (forEachTag [a; b; a] [] = Normal [ca; cb]).
  rewrite (ListFacts.forEach_canonical _ _ H), ListFacts.Set_add_all_fresh.
  repeat first [ progress cbn [firstOccurrences filter list_filter] | case_decide ];
    congruence.
Qed.

Lemma canonicalizeLocaleList_a_b_a_witness :
  isStructurallyValidLanguageTag "DE" = true /\ canonicalizeLanguageTag "DE" = Normal "de"
  /\ isStructurallyValidLanguageTag "fr-fr" = true
  /\ canonicalizeLanguageTag "fr-fr" = Normal "fr-FR"
  /\ "de" <> "fr-FR"
  /\ canonicalizeLocaleList (LocalesList ["DE"; "fr-fr"; "DE"]) = Normal ["de"; "fr-FR"].
Proof.
  do 4 (split; [vm_compute; reflexivity |]).
  split; [discriminate |].
  apply (canonicalizeLocaleList_a_b_a "DE" "fr-fr" "de" "fr-FR");
    try (vm_compute; reflexivity); discriminate.
Defined.

(** When the elements before the first invalid one canonicalize, the call
    raises the RangeError that names the invalid element. *)
Theorem canonicalizeLocaleList_first_invalid (before after cs : list string) (t : string) :
  canonicalForms before cs ->
  isStructurallyValidLanguageTag t = false ->
  canonicalizeLocaleList (LocalesList (before ++ t :: after))
  = Throw (RangeError (String.append "invalid language tag " t)).
Proof.
  intros H Ht.
  change (forEachTag (before ++ t :: after) []
          = Throw (RangeError (String.append "invalid language tag " t))).
  rewrite (ListFacts.forEach_app _ _ _ H).
  unfold forEachTag. simpl. unfold WithTables.visit. rewrite Ht. reflexivity.
Qed.

Lemma canonicalizeLocaleList_first_invalid_witness :
  canonicalForms ["de"] ["de"]
  /\ isStructurallyValidLanguageTag "wrong-tag" = false
  /\ canonicalizeLocaleList (LocalesList (["de"] ++ "wrong-tag" :: ["fr-FR"]))
     = Throw (RangeError "invalid language tag wrong-tag").
Proof.
  assert (canonicalForms ["de"] ["de"]) as H by (repeat constructor; vm_compute; reflexivity).
  split; [exact H |]. split; [vm_compute; reflexivity |].
  apply (canonicalizeLocaleList_first_invalid ["de"] ["fr-FR"] ["de"] "wrong-tag" H).
  vm_compute; reflexivity.
Defined.

(** A list with a structurally invalid element never yields a set, not even
    a partial one: the call raises. *)
Theorem canonicalizeLocaleList_invalid_raises (before after : list string) (t : string) :
  isStructurallyValidLanguageTag t = false ->
  raises (canonicalizeLocaleList (LocalesList (before ++ t :: after))).
Proof.
  intros Ht. apply (ListFacts.forEach_raises t after).
  intros seen. unfold WithTables.visit. rewrite Ht. eexists. reflexivity.
Qed.

Lemma canonicalizeLocaleList_invalid_raises_witness :
  isStructurallyValidLanguageTag "wrong-tag" = false
  /\ raises (canonicalizeLocaleList
               (LocalesList (["en-a-bb"; "de"] ++ "wrong-tag" :: ["fr-FR"]))).
Proof.
  split; [vm_compute; reflexivity |].
  apply (canonicalizeLocaleList_invalid_raises ["en-a-bb"; "de"] ["fr-FR"] "wrong-tag").
  vm_compute; reflexivity.
Defined.

(** ** Tags with an extension sequence *)

Lemma canonicalizeLanguageTag_sybtags (t : string) :
  hasExtensionSequence (Str.split "-" (Str.toLowerCase t)) ->
  canonicalizeLanguageTag t = Throw (ReferenceError "sybtags").
Proof.
  intros (k & s & Hk & Hs & Hlen & Hx & Hno).
  unfold canonicalizeLanguageTag, WithTables.canonicalizeLanguageTag,
    langTagMappings, langSubtagMappings, extlangMappings.
  rewrite LoopFacts.ownProperty_empty, LoopFacts.bind_Normal.
  destruct (LoopFacts.standardLoop_stops_on_singleton
              (length (Str.split "-" (Str.toLowerCase t)))
              (Str.split "-" (Str.toLowerCase t)) 0 k s)
    as (subtags' & b & s' & Hloop & Hb & Hx'); auto; try lia.
  { apply lookup_lt_Some in Hs. lia. }
  { intros j Hj. apply Hno. lia. }
  rewrite Hloop, LoopFacts.bind_Normal.
  rewrite (LoopFacts.extensionLoop_raises _ _ _ _ _ Hb Hx'); [reflexivity |].
  apply lookup_lt_Some in Hb. lia.
Qed.

(** C9, amended.  A structurally valid tag whose lower-cased form has no
    whole-tag mapping and whose subtag list holds an extension sequence, a
    one-character subtag other than [x] after position 0 and before any
    [x] subtag, makes [canonicalizeLanguageTag] raise a ReferenceError for
    [sybtags] instead of returning, and [canonicalizeLocaleList] raises on
    the tag alone and on every list that contains it. *)
Theorem extension_sequence_raises (t : string) :
  isStructurallyValidLanguageTag t = true ->
  langTagMappings !! Str.toLowerCase t = None ->
  hasExtensionSequence (Str.split "-" (Str.toLowerCase t)) ->
  canonicalizeLanguageTag t = Throw (ReferenceError "sybtags")
  /\ raises (canonicalizeLocaleList (LocalesString t))
  /\ forall before after : list string,
       raises (canonicalizeLocaleList (LocalesList (before ++ t :: after))).
Proof.
  intros Hvalid _ Hext.
  pose proof (canonicalizeLanguageTag_sybtags t Hext) as Hcanon.
  assert (forall seen, raises (WithTables.visit langTagMappings langSubtagMappings
                                 extlangMappings seen t)) as Hvisit.
  { intros seen. unfold WithTables.visit. rewrite Hvalid. simpl.
    fold canonicalizeLanguageTag. rewrite Hcanon. eexists. reflexivity. }
  split; [assumption | split].
  - apply (ListFacts.forEach_raises t [] Hvisit [] []).
  - intros before after. apply (ListFacts.forEach_raises t after Hvisit before []).
Qed.

Lemma extension_sequence_raises_witness :
  isStructurallyValidLanguageTag "en-u-ca-gregory" = true
  /\ langTagMappings !! Str.toLowerCase "en-u-ca-gregory" = None
  /\ hasExtensionSequence (Str.split "-" (Str.toLowerCase "en-u-ca-gregory"))
  /\ (canonicalizeLanguageTag "en-u-ca-gregory" = Throw (ReferenceError "sybtags")
      /\ raises (canonicalizeLocaleList (LocalesString "en-u-ca-gregory"))
      /\ forall before after : list string,
           raises (canonicalizeLocaleList
                     (LocalesList (before ++ "en-u-ca-gregory" :: after)))).
Proof.
  assert (hasExtensionSequence (Str.split "-" (Str.toLowerCase "en-u-ca-gregory"))) as H.
  { exists 1, "u". repeat split; try reflexivity; try lia; try discriminate.
    intros [|j] Hj; [discriminate | lia]. }
  split; [vm_compute; reflexivity |].
  split; [reflexivity |].
  split; [exact H |].
  apply (extension_sequence_raises "en-u-ca-gregory");
    [vm_compute; reflexivity | reflexivity | exact H].
Defined.

(** C9, without "before any [x] subtag": in [en-x-a-bb] and in [x-a-b] the
    one-character subtag [a] stands after position 0 and is not [x]; both
    tags are structurally valid and have no whole-tag mapping, and both
    calls return, since the second loop stops at [x]. *)
Lemma extension_sequence_after_x_returns :
  (isStructurallyValidLanguageTag "en-x-a-bb" = true
   /\ langTagMappings !! Str.toLowerCase "en-x-a-bb" = None
   /\ (exists (k : nat) (s : string),
         0 < k /\ Str.split "-" (Str.toLowerCase "en-x-a-bb") !! k = Some s
         /\ String.length s = 1 /\ s <> "x")
   /\ canonicalizeLanguageTag "en-x-a-bb" = Normal "en-x-a-bb"
   /\ canonicalizeLocaleList (LocalesString "en-x-a-bb") = Normal ["en-x-a-bb"])
  /\ (isStructurallyValidLanguageTag "x-a-b" = true
      /\ langTagMappings !! Str.toLowerCase "x-a-b" = None
      /\ (exists (k : nat) (s : string),
            0 < k /\ Str.split "-" (Str.toLowerCase "x-a-b") !! k = Some s
            /\ String.length s = 1 /\ s <> "x")
      /\ canonicalizeLanguageTag "x-a-b" = Normal "x-a-b"
      /\ canonicalizeLocaleList (LocalesString "x-a-b") = Normal ["x-a-b"]).
Proof.
  split.
  - split; [vm_compute; reflexivity |]. split; [reflexivity |].
    split; [| split; vm_compute; reflexivity].
    exists 2, "a". repeat split; try reflexivity; try lia; discriminate.
  - split; [vm_compute; reflexivity |]. split; [reflexivity |].
    split; [| split; vm_compute; reflexivity].
    exists 1, "a". repeat split; try reflexivity; try lia; discriminate.
Qed.

(** ** canonicalizeLanguageTag on concrete tags *)

(** C2.  On the structurally valid tag [en-a-bb] canonicalization does not
    produce a tag at all: the call raises a ReferenceError, so there is no
    value for a second application to reproduce. *)
Theorem canonicalize_twice_en_a_bb :
  isStructurallyValidLanguageTag "en-a-bb" = true
  /\ canonicalizeLanguageTag "en-a-bb" = Throw (ReferenceError "sybtags")
  /\ (canonicalizeLanguageTag "en-a-bb" ≫= canonicalizeLanguageTag)
     = Throw (ReferenceError "sybtags").
Proof. repeat split; vm_compute; reflexivity. Qed.

(** C4.  The structurally valid tag [en-u-ca-chinese-t-zh-latn], whose two
    extension sequences stand in reversed order, is not returned with the
    sequences sorted: the call raises a ReferenceError while it collects the
    first sequence. *)
Theorem canonicalize_unsorted_extensions :
  isStructurallyValidLanguageTag "en-u-ca-chinese-t-zh-latn" = true
  /\ canonicalizeLanguageTag "en-u-ca-chinese-t-zh-latn" = Throw (ReferenceError "sybtags")
  /\ canonicalizeLanguageTag "en-u-ca-chinese-t-zh-latn"
     <> Normal "en-t-zh-latn-u-ca-chinese".
Proof. repeat split; try (vm_compute; reflexivity). vm_compute. discriminate. Qed.

(** C5.  The three tables of the program are empty, so nothing is
    remapped: [Zh-NAN-haNS-bu] is only re-cased, to [zh-nan-Hans-BU], and
    not turned into [nan-Hans-MM] as the comments of the function have
    it. *)
Lemma canonicalize_Zh_NAN_haNS_bu_empty_tables :
  canonicalizeLanguageTag "Zh-NAN-haNS-bu" = Normal "zh-nan-Hans-BU"
  /\ canonicalizeLanguageTag "Zh-NAN-haNS-bu" <> Normal "nan-Hans-MM".
Proof. split; vm_compute; [reflexivity | discriminate]. Qed.

(** The loop itself does what its comments say once the tables carry the
    entries: with tables in which the subtag table maps [BU] to [MM], the
    extlang table maps [nan] to preferred [nan] with prefix [zh], and no
    other entry applies to the tag or its subtags, [Zh-NAN-haNS-bu]
    canonicalizes to [nan-Hans-MM]. *)
Theorem canonicalize_Zh_NAN_haNS_bu
    (tagMappings subtagMappings : gmap string string)
    (extlangs : gmap string extlangMapping) :
  tagMappings !! "hasOwnProperty" = None ->
  subtagMappings !! "hasOwnProperty" = None ->
  extlangs !! "hasOwnProperty" = None ->
  tagMappings !! "zh-nan-hans-bu" = None ->
  subtagMappings !! "zh" = None -> extlangs !! "zh" = None ->
  subtagMappings !! "nan" = None ->
  extlangs !! "nan" = Some {| preferred := "nan"; prefix := "zh" |} ->
  subtagMappings !! "Hans" = None -> extlangs !! "Hans" = None ->
  subtagMappings !! "BU" = Some "MM" ->
  WithTables.canonicalizeLanguageTag tagMappings subtagMappings extlangs "Zh-NAN-haNS-bu"
  = Normal "nan-Hans-MM".
Proof.
  intros Ht Hs He Hwhole Hzh Hzh' Hnan Hnan' Hhans Hhans' Hbu.
  unfold WithTables.canonicalizeLanguageTag.
  change (Str.toLowerCase "Zh-NAN-haNS-bu") with "zh-nan-hans-bu".
  unfold ownProperty at 1. rewrite Ht, Hwhole, LoopFacts.bind_Normal.
  change (Str.split "-" "zh-nan-hans-bu") with ["zh"; "nan"; "hans"; "bu"].
  change (length ["zh"; "nan"; "hans"; "bu"]) with 4.
  (* zh *)
  rewrite (LoopFacts.standardLoop_unmapped _ _ Hs He 3 ["zh"; "nan"; "hans"; "bu"] 0 "zh"
             eq_refl eq_refl Hzh Hzh').
  evaluate_subtags.
  (* nan: replaced by its preferred value, the prefix zh dropped *)
  rewrite (LoopFacts.standardLoop_elided _ _ Hs He 2 ["zh"; "nan"; "hans"; "bu"] 1 "nan"
             eq_refl eq_refl
             {| preferred := "nan"; prefix := "zh" |} {| preferred := "nan"; prefix := "zh" |}
             eq_refl Hnan Hnan' Hnan' eq_refl).
  evaluate_subtags.
  (* hans -> Hans *)
  rewrite (LoopFacts.standardLoop_unmapped _ _ Hs He 1 ["nan"; "hans"; "bu"] 1 "hans"
             eq_refl eq_refl Hhans Hhans').
  evaluate_subtags.
  (* bu -> BU -> MM *)
  rewrite (LoopFacts.standardLoop_mapped _ _ Hs 0 ["nan"; "Hans"; "bu"] 2 "bu"
             eq_refl eq_refl "MM" Hbu).
  reflexivity.
Qed.

Lemma canonicalize_Zh_NAN_haNS_bu_witness :
  let tagMappings : gmap string string := ∅ in
  let subtagMappings : gmap string string := {[ "BU" := "MM" ]} in
  let extlangs : gmap string extlangMapping :=
    {[ "nan" := {| preferred := "nan"; prefix := "zh" |} ]} in
  (tagMappings !! "hasOwnProperty" = None
   /\ subtagMappings !! "hasOwnProperty" = None
   /\ extlangs !! "hasOwnProperty" = None
   /\ tagMappings !! "zh-nan-hans-bu" = None
   /\ subtagMappings !! "zh" = None /\ extlangs !! "zh" = None
   /\ subtagMappings !! "nan" = None
   /\ extlangs !! "nan" = Some {| preferred := "nan"; prefix := "zh" |}
   /\ subtagMappings !! "Hans" = None /\ extlangs !! "Hans" = None
   /\ subtagMappings !! "BU" = Some "MM")
  /\ WithTables.canonicalizeLanguageTag tagMappings subtagMappings extlangs "Zh-NAN-haNS-bu"
     = Normal "nan-Hans-MM".
Proof.
  cbv zeta. split; [repeat split; vm_compute; reflexivity |].
  apply (canonicalize_Zh_NAN_haNS_bu
           ∅ {[ "BU" := "MM" ]} {[ "nan" := {| preferred := "nan"; prefix := "zh" |} ]});
    vm_compute; reflexivity.
Defined.

(** ** isStructurallyValidLanguageTag on concrete tags *)

Example duplicate_singleton_rejected :
  isStructurallyValidLanguageTag "en-a-bbb-a-ccc" = false
  /\ isStructurallyValidLanguageTag "en-a-bbb" = true.
Proof. split; vm_compute; reflexivity. Qed.

Example duplicate_variant_rejected :
  isStructurallyValidLanguageTag "en-fonipa-fonipa" = false
  /\ isStructurallyValidLanguageTag "en-fonipa" = true.
Proof. split; vm_compute; reflexivity. Qed.

(** A grammatical tag that starts with a lower-case [x-] is accepted without
    a look at duplicates. *)
Lemma private_use_short_circuit (locale : string) :
  RegExp.test languageTagRE locale = true ->
  Str.startsWith locale "x-" = true ->
  isStructurallyValidLanguageTag locale = true.
Proof.
  intros Hre Hx. unfold isStructurallyValidLanguageTag. rewrite Hre, Hx. reflexivity.
Qed.

(** C6.  The tag [en-fonipa-FONIPA] repeats the variant [fonipa] in another
    letter case.  It matches the grammar, holds no private-use part, and the
    validator accepts it: the back-reference of [duplicateVariantRE] compares
    letter for letter, the pattern having no [i] flag. *)
Theorem duplicate_variant_other_case_accepted :
  RegExp.test languageTagRE "en-fonipa-FONIPA" = true
  /\ RegExp.test duplicateVariantRE "en-fonipa-FONIPA" = false
  /\ isStructurallyValidLanguageTag "en-fonipa-FONIPA" = true.
Proof. repeat split; vm_compute; reflexivity. Qed.

(** The same slip on the other checks: a repeated singleton in another case
    passes, and a private-use tag written with a capital [X] is searched for
    duplicates. *)
Example duplicate_checks_case_sensitive :
  isStructurallyValidLanguageTag "en-a-bb-A-cc" = true
  /\ isStructurallyValidLanguageTag "X-abcde-abcde-abcde" = false
  /\ isStructurallyValidLanguageTag "x-abcde-abcde-abcde" = true.
Proof. repeat split; vm_compute; reflexivity. Qed.

(** ** canonicalizeLocaleList on concrete lists *)

Example canonicalizeLocaleList_basics :
  canonicalizeLocaleList LocalesUndefined = Normal []
  /\ canonicalizeLocaleList (LocalesList []) = Normal []
  /\ canonicalizeLocaleList (LocalesString "fr-FR") = Normal ["fr-FR"]
  /\ canonicalizeLocaleList (LocalesList ["de"; "fr-FR"]) = Normal ["de"; "fr-FR"]
  /\ canonicalizeLocaleList (LocalesList ["de"; "wrong-tag"; "fr-FR"])
     = Throw (RangeError "invalid language tag wrong-tag").
Proof. repeat split; vm_compute; reflexivity. Qed.

(** C1.  In the list [en-a-bb, wrong-tag] the first structurally invalid
    element is [wrong-tag], yet the call ends at the valid element before it
    with a ReferenceError, not with a RangeError naming [wrong-tag]. *)
Theorem canonicalizeLocaleList_error_before_invalid :
  isStructurallyValidLanguageTag "en-a-bb" = true
  /\ isStructurallyValidLanguageTag "wrong-tag" = false
  /\ canonicalizeLocaleList (LocalesList ["en-a-bb"; "wrong-tag"])
     = Throw (ReferenceError "sybtags").
Proof. repeat split; vm_compute; reflexivity. Qed.

(** C8.  On the list [en-a-bb, de, en-a-bb] of structurally valid tags the
    call returns no set: it raises a ReferenceError at the first element. *)
Theorem canonicalizeLocaleList_valid_tags_raise :
  Forall (fun t => isStructurallyValidLanguageTag t = true) ["en-a-bb"; "de"; "en-a-bb"]
  /\ canonicalizeLocaleList (LocalesList ["en-a-bb"; "de"; "en-a-bb"])
     = Throw (ReferenceError "sybtags").
Proof.
  split; [| vm_compute; reflexivity].
  repeat constructor; vm_compute; reflexivity.
Qed.

(** ** resolveLocale *)

Lemma resolveLocale_always_raises
    (availableLocales requestedLocales options relevantExtensionKeys localeData : value) :
  raises (resolveLocale availableLocales requestedLocales options
            relevantExtensionKeys localeData).
Proof.
  unfold resolveLocale.
  destruct options; simpl; try (eexists; reflexivity);
    match goal with
    | |- context [strictEquals ?m ?s] => destruct (strictEquals m s)
    end; eexists; reflexivity.
Qed.

(** C7.  With an empty requested list, one available locale and the lookup
    matcher chosen, [resolveLocale] raises a ReferenceError for
    [LookupMatcher]; whatever its arguments, it raises and returns no
    result. *)
Theorem resolveLocale_raises :
  resolveLocale (Array [Text "en-US"]) (Array [])
                (Object [("localeMatcher", Text "lookup")]) (Array []) (Object [])
  = Throw (ReferenceError "LookupMatcher")
  /\ forall availableLocales requestedLocales options relevantExtensionKeys localeData,
       raises (resolveLocale availableLocales requestedLocales options
                 relevantExtensionKeys localeData).
Proof. split; [reflexivity | apply resolveLocale_always_raises]. Qed.

(** C10.  The exported [Locale.resolveLocale] returns [undefined] for every
    argument list, the same for any two argument lists, and differs from the
    internal [resolveLocale] called with the same arguments. *)
Theorem exported_resolveLocale_is_empty (args args' : list value) :
  Exports.resolveLocale Locale args = Normal Undefined
  /\ Exports.resolveLocale Locale args = Exports.resolveLocale Locale args'
  /\ Exports.resolveLocale Locale args <> callResolveLocale args.
Proof.
  repeat split.
  intros H. unfold callResolveLocale in H.
  destruct (resolveLocale_always_raises (nth 0 args Undefined) (nth 1 args Undefined)
              (nth 2 args Undefined) (nth 3 args Undefined) (nth 4 args Undefined))
    as [e He].
  rewrite He in H. discriminate H.
Qed.

(** * Further properties *)

(** ** The first loop in closed form *)

Module Standard.
Import CaseFacts LoopFacts.

Lemma standardLoop_closed_form fuel :
  forall (subtags : list string) i,
    length subtags - i <= fuel -> i <= length subtags ->
    WithTables.standardLoop ∅ ∅ fuel subtags i
    = Normal (take i subtags ++ recaseStandard i (drop i subtags),
              i + standardLength i (drop i subtags)).
Proof.
  induction fuel as [|fuel IH]; intros subtags i Hfuel Hi.
  - rewrite Fuel.standardLoop_done by lia.
    rewrite drop_ge, take_ge by lia. simpl. rewrite app_nil_r, Nat.add_0_r. reflexivity.
  - destruct (subtags !! i) as [s|] eqn:Hs.
    2: { apply lookup_ge_None in Hs. rewrite Fuel.standardLoop_done by lia.
         rewrite drop_ge, take_ge by lia. simpl.
         rewrite app_nil_r, Nat.add_0_r. reflexivity. }
    pose proof (lookup_lt_Some _ _ _ Hs) as Hlt.
    rewrite (drop_S _ _ _ Hs). cbn [recaseStandard standardLength].
    destruct (breaks i s) eqn:Hb.
    + rewrite (standardLoop_break _ _ _ _ Hs Hb).
      rewrite take_drop_middle by exact Hs. rewrite Nat.add_0_r. reflexivity.
    + rewrite (standardLoop_turn _ _ _ _ Hs Hb).
      rewrite IH by (rewrite ?length_insert; lia).
      rewrite drop_insert_lt by lia.
      rewrite (take_S_r _ _ (WithTables.recase i s))
        by (apply list_lookup_insert_eq; lia).
      rewrite take_insert_ge by lia.
      rewrite <- app_assoc, Nat.add_succ_r. reflexivity.
Qed.

(** From the start of the array. *)
Lemma standardLoop_whole (subtags : list string) :
  WithTables.standardLoop ∅ ∅ (length subtags) subtags 0
  = Normal (recaseStandard 0 subtags, standardLength 0 subtags).
Proof.
  rewrite standardLoop_closed_form by lia. rewrite drop_0, take_0. reflexivity.
Qed.

Lemma standardLength_le i (subtags : list string) :
  standardLength i subtags <= length subtags.
Proof.
  revert i. induction subtags as [|s rest IH]; intros i; simpl; [lia |].
  destruct (breaks i s); [lia |]. specialize (IH (S i)). lia.
Qed.

Lemma recaseStandard_length i (subtags : list string) :
  length (recaseStandard i subtags) = length subtags.
Proof.
  revert i. induction subtags as [|s rest IH]; intros i; simpl; [reflexivity |].
  destruct (breaks i s); simpl; [reflexivity |]. now rewrite IH.
Qed.

(** No subtag before the end of the standard part ends the loop. *)
Lemma standardLength_before i (subtags : list string) j s :
  j < standardLength i subtags -> subtags !! j = Some s -> breaks (i + j) s = false.
Proof.
  revert i j. induction subtags as [|s0 rest IH]; intros i j; simpl; [lia |].
  destruct (breaks i s0) eqn:Hb; [lia |].
  destruct j as [|j]; simpl.
  - intros _ [= <-]. rewrite Nat.add_0_r. exact Hb.
  - intros Hj Hs. rewrite Nat.add_succ_r. apply (IH (S i) j); [lia | exact Hs].
Qed.

(** The subtag at the end of the standard part, if any, ends the loop and
    is left as it was, like all that follow it. *)
Lemma standardLength_at i (subtags : list string) :
  standardLength i subtags < length subtags ->
  exists s, subtags !! standardLength i subtags = Some s
            /\ breaks (i + standardLength i subtags) s = true.
Proof.
  revert i. induction subtags as [|s0 rest IH]; intros i; simpl; [lia |].
  destruct (breaks i s0) eqn:Hb.
  - intros _. exists s0. rewrite Nat.add_0_r. auto.
  - intros H. destruct (IH (S i)) as (s & Hs & Hbs); [lia |].
    exists s. rewrite Nat.add_succ_r. auto.
Qed.

Lemma recaseStandard_drop i (subtags : list string) :
  drop (standardLength i subtags) (recaseStandard i subtags)
  = drop (standardLength i subtags) subtags.
Proof.
  revert i. induction subtags as [|s0 rest IH]; intros i; simpl; [reflexivity |].
  destruct (breaks i s0); [reflexivity |]. simpl. apply IH.
Qed.

Lemma recaseStandard_lower i (subtags : list string) :
  map Str.toLowerCase (recaseStandard i subtags) = map Str.toLowerCase subtags.
Proof.
  revert i. induction subtags as [|s0 rest IH]; intros i; simpl; [reflexivity |].
  destruct (breaks i s0); [reflexivity |]. simpl. now rewrite recase_lower, IH.
Qed.

(** When the standard part stops on a subtag other than [x], the list holds
    an extension sequence. *)
Lemma stop_is_extension (subtags : list string) s :
  subtags !! standardLength 0 subtags = Some s -> s <> "x" ->
  hasExtensionSequence subtags.
Proof.
  intros Hs Hx.
  pose proof (lookup_lt_Some _ _ _ Hs) as Hlt.
  destruct (standardLength_at 0 subtags Hlt) as (s' & Hs' & Hb).
  rewrite Hs in Hs'. injection Hs' as <-. simpl in Hb.
  unfold breaks in Hb. apply andb_true_iff in Hb as [Hlen Hor].
  apply Nat.eqb_eq in Hlen.
  exists (standardLength 0 subtags), s. repeat split; auto.
  - apply orb_true_iff in Hor as [H|H]; [now apply Nat.ltb_lt in H |].
    apply String.eqb_eq in H. contradiction.
  - intros j Hj Hjx.
    pose proof (standardLength_before 0 subtags j "x" Hj Hjx) as Hn.
    simpl in Hn. unfold breaks in Hn. simpl in Hn.
    rewrite orb_true_r in Hn. discriminate Hn.
Qed.

(** When the standard part ends the list or stops on [x], the call
    returns. *)
Lemma returns_at_private (t : string) :
  let L := Str.split "-" (Str.toLowerCase t) in
  (forall s, L !! standardLength 0 L = Some s -> s = "x") ->
  exists c, canonicalizeLanguageTag t = Normal c.
Proof.
  intros L Hstop.
  unfold canonicalizeLanguageTag, WithTables.canonicalizeLanguageTag,
    langTagMappings, langSubtagMappings, extlangMappings.
  rewrite ownProperty_empty, bind_Normal. fold L.
  rewrite standardLoop_whole, bind_Normal.
  assert (WithTables.extensionLoop (length (recaseStandard 0 L)) (recaseStandard 0 L)
            (standardLength 0 L) []
          = Normal ([], standardLength 0 L)) as ->.
  { destruct (recaseStandard 0 L !! standardLength 0 L) as [s|] eqn:Hs.
    - assert (L !! standardLength 0 L = Some s) as HsL.
      { rewrite <- (Nat.add_0_r (standardLength 0 L)), <- !lookup_drop in *.
        rewrite recaseStandard_drop in Hs. exact Hs. }
      rewrite (Hstop s HsL) in Hs.
      apply Idempotence.extensionLoop_private. exact Hs.
    - destruct (length (recaseStandard 0 L)); simpl; rewrite Hs; reflexivity. }
  rewrite bind_Normal. eexists. reflexivity.
Qed.

(** The two outcomes of [canonicalizeLanguageTag]. *)
Lemma outcome (t : string) :
  let L := Str.split "-" (Str.toLowerCase t) in
  (hasExtensionSequence L /\ canonicalizeLanguageTag t = Throw (ReferenceError "sybtags"))
  \/ (~ hasExtensionSequence L /\ exists c, canonicalizeLanguageTag t = Normal c).
Proof.
  intros L.
  destruct (L !! standardLength 0 L) as [s|] eqn:Hs.
  - destruct (String.eqb s "x") eqn:E.
    + apply String.eqb_eq in E. subst s. right.
      destruct (returns_at_private t) as [c Hc].
      { fold L. intros s Hs'. rewrite Hs in Hs'. now injection Hs' as <-. }
      split; [| exists c; exact Hc].
      intros Hext. rewrite (canonicalizeLanguageTag_sybtags t Hext) in Hc. discriminate Hc.
    + left. assert (hasExtensionSequence L) as Hext.
      { apply (stop_is_extension L s Hs). intros ->. discriminate E. }
      split; [exact Hext | apply canonicalizeLanguageTag_sybtags, Hext].
  - right. destruct (returns_at_private t) as [c Hc].
    { fold L. intros s Hs'. rewrite Hs in Hs'. discriminate Hs'. }
    split; [| exists c; exact Hc].
    intros Hext. rewrite (canonicalizeLanguageTag_sybtags t Hext) in Hc. discriminate Hc.
Qed.

End Standard.

(** X6.  On a structurally valid tag [canonicalizeLanguageTag] returns exactly
    when the lower-cased subtag list holds no extension sequence, and
    raises the ReferenceError for [sybtags] exactly when it holds one. *)
Theorem canonicalizeLanguageTag_outcome (t : string) :
  isStructurallyValidLanguageTag t = true ->
  ((exists c, canonicalizeLanguageTag t = Normal c)
   <-> ~ hasExtensionSequence (Str.split "-" (Str.toLowerCase t)))
  /\ (canonicalizeLanguageTag t = Throw (ReferenceError "sybtags")
      <-> hasExtensionSequence (Str.split "-" (Str.toLowerCase t))).
Proof.
  intros _. destruct (Standard.outcome t) as [[Hext Hthrow] | [Hno [c Hc]]]; cbv zeta in *.
  - split; split; auto.
    + intros [c Hc]. rewrite Hthrow in Hc. discriminate Hc.
    + intros Hno. contradiction.
  - split; split; auto.
    + exists c. exact Hc.
    + intros Hthrow. rewrite Hc in Hthrow. discriminate Hthrow.
    + intros Hext. contradiction.
Qed.

Lemma canonicalizeLanguageTag_outcome_witness :
  isStructurallyValidLanguageTag "zh-Hans-CN-x-a-bb" = true
  /\ (((exists c, canonicalizeLanguageTag "zh-Hans-CN-x-a-bb" = Normal c)
       <-> ~ hasExtensionSequence (Str.split "-" (Str.toLowerCase "zh-Hans-CN-x-a-bb")))
      /\ (canonicalizeLanguageTag "zh-Hans-CN-x-a-bb" = Throw (ReferenceError "sybtags")
          <-> hasExtensionSequence (Str.split "-" (Str.toLowerCase "zh-Hans-CN-x-a-bb")))).
Proof.
  split; [vm_compute; reflexivity |].
  apply (canonicalizeLanguageTag_outcome "zh-Hans-CN-x-a-bb"). vm_compute; reflexivity.
Defined.

(** ** canonicalizeLocaleList: when it returns, and what *)

Module ListOutcome.

Lemma forEach_inversion (tags : list string) :
  forall seen r,
    forEachTag tags seen = Normal r ->
    exists cs, canonicalForms tags cs /\ r = fold_left WithTables.Set_add cs seen.
Proof.
  unfold forEachTag.
  induction tags as [|t tags IH]; intros seen r H; simpl in H.
  - injection H as <-. exists []. split; [constructor | reflexivity].
  - unfold WithTables.visit in H at 1.
    destruct (isStructurallyValidLanguageTag t) eqn:Hv; simpl in H; [| discriminate H].
    fold canonicalizeLanguageTag in H.
    destruct (canonicalizeLanguageTag t) as [c|e] eqn:Hc; simpl in H; [| discriminate H].
    apply IH in H as (cs & Hcs & ->).
    exists (c :: cs). split; [constructor; auto | reflexivity].
Qed.

Lemma firstOccurrences_length (l : list string) :
  length (firstOccurrences l) <= length l.
Proof.
  induction l as [|x l IH]; simpl; [lia |].
  pose proof (length_filter (fun y => y <> x) (firstOccurrences l)). lia.
Qed.

Lemma canonicalForms_elem (tags cs : list string) (c : string) :
  canonicalForms tags cs -> c ∈ cs ->
  exists t, t ∈ tags /\ isStructurallyValidLanguageTag t = true
            /\ canonicalizeLanguageTag t = Normal c.
Proof.
  induction 1 as [|t c' tags cs [Hv Hc] _ IH]; intros Hin.
  - apply elem_of_nil in Hin. contradiction.
  - apply elem_of_cons in Hin as [-> | Hin].
    + exists t. split; [left | auto].
    + destruct (IH Hin) as (t' & Ht' & H'). exists t'. split; [right; exact Ht' | exact H'].
Qed.

Lemma canonicalForms_exist (tags : list string) :
  Forall (fun t => isStructurallyValidLanguageTag t = true
                   /\ ~ hasExtensionSequence (Str.split "-" (Str.toLowerCase t))) tags ->
  exists cs, canonicalForms tags cs.
Proof.
  induction 1 as [|t tags [Hv Hno] _ [cs IH]].
  - exists []. constructor.
  - destruct (Standard.outcome t) as [[Hext _] | [_ [c Hc]]]; [contradiction |].
    exists (c :: cs). constructor; auto.
Qed.

Lemma canonicalForms_all (tags cs : list string) :
  canonicalForms tags cs ->
  Forall (fun t => isStructurallyValidLanguageTag t = true
                   /\ ~ hasExtensionSequence (Str.split "-" (Str.toLowerCase t))) tags.
Proof.
  induction 1 as [|t c tags cs [Hv Hc] _ IH]; constructor; [| exact IH].
  split; [exact Hv |]. intros Hext.
  rewrite (canonicalizeLanguageTag_sybtags t Hext) in Hc. discriminate Hc.
Qed.

End ListOutcome.

(** X8.  [canonicalizeLocaleList] returns a set for a list of tags exactly when
    every tag is structurally valid and holds no extension sequence. *)
Theorem canonicalizeLocaleList_returns_iff (tags : list string) :
  (exists r, canonicalizeLocaleList (LocalesList tags) = Normal r)
  <-> Forall (fun t => isStructurallyValidLanguageTag t = true
                       /\ ~ hasExtensionSequence (Str.split "-" (Str.toLowerCase t))) tags.
Proof.
  split.
  - intros [r Hr]. simpl in Hr.
    apply ListOutcome.forEach_inversion in Hr as (cs & Hcs & _).
    apply (ListOutcome.canonicalForms_all _ _ Hcs).
  - intros H. destruct (ListOutcome.canonicalForms_exist tags H) as [cs Hcs].
    exists (fold_left WithTables.Set_add cs []). simpl.
    apply (ListFacts.forEach_canonical _ _ Hcs).
Qed.

(** X9.  Whatever set [canonicalizeLocaleList] returns has no duplicates, is no
    longer than the list it was given, and holds only tags that are the
    canonical form of a valid element and canonicalize to themselves. *)
Theorem canonicalizeLocaleList_result (tags r : list string) :
  canonicalizeLocaleList (LocalesList tags) = Normal r ->
  NoDup r
  /\ length r <= length tags
  /\ forall c, c ∈ r ->
       canonicalizeLanguageTag c = Normal c
       /\ exists t, t ∈ tags /\ isStructurallyValidLanguageTag t = true
                    /\ canonicalizeLanguageTag t = Normal c.
Proof.
  intros Hr. simpl in Hr.
  apply ListOutcome.forEach_inversion in Hr as (cs & Hcs & ->).
  rewrite ListFacts.Set_add_all_fresh.
  split; [apply ListFacts.firstOccurrences_NoDup | split].
  - pose proof (ListOutcome.firstOccurrences_length cs) as H1.
    pose proof (Forall2_length _ _ _ Hcs) as H2. lia.
  - intros c Hc. apply (proj1 (ListFacts.firstOccurrences_elem _ _)) in Hc.
    destruct (ListOutcome.canonicalForms_elem _ _ _ Hcs Hc) as (t & Ht & Hv & Hcanon).
    split; [| exists t; auto].
    apply (Idempotence.canonicalizeLanguageTag_fixed t c Hcanon).
Qed.

Lemma canonicalizeLocaleList_result_witness :
  canonicalizeLocaleList (LocalesList ["DE"; "fr-fr"; "de"; "zh-hans-cn"])
  = Normal ["de"; "fr-FR"; "zh-Hans-CN"]
  /\ NoDup ["de"; "fr-FR"; "zh-Hans-CN"]
  /\ length ["de"; "fr-FR"; "zh-Hans-CN"] <= length ["DE"; "fr-fr"; "de"; "zh-hans-cn"].
Proof.
  assert (canonicalizeLocaleList (LocalesList ["DE"; "fr-fr"; "de"; "zh-hans-cn"])
          = Normal ["de"; "fr-FR"; "zh-Hans-CN"]) as H by (vm_compute; reflexivity).
  split; [exact H |].
  pose proof (canonicalizeLocaleList_result _ _ H) as (H1 & H2 & _).
  split; [exact H1 | exact H2].
Defined.

(** ** Tables with entries: the unguarded read of the prefix *)

Module Unclosed.
Import LoopFacts.

Section Read.

Variables subtagMappings : gmap string string.
Variable extlangs : gmap string extlangMapping.
Hypothesis subtagMappings_method : subtagMappings !! "hasOwnProperty" = None.
Hypothesis extlangs_method : extlangs !! "hasOwnProperty" = None.


End Read.

End Unclosed.



(** ** The turns of the first loop *)

Module Exit.
Import LoopFacts.

(** With [length subtags - i] turns or more, a state the loop returns is a
    state in which it has left: its index is past the end of the array, or
    the subtag at its index is one on which it breaks.  Every turn makes
    [length subtags - i] smaller by one, the turn that drops the first
    subtag and steps [i] back included. *)
Lemma standardLoop_left (subtagMappings : gmap string string)
    (extlangs : gmap string extlangMapping) (fuel : nat) :
  forall (subtags : list string) (i : nat) (subtags' : list string) (i' : nat),
    length subtags - i <= fuel ->
    WithTables.standardLoop subtagMappings extlangs fuel subtags i = Normal (subtags', i') ->
    subtags' !! i' = None
    \/ exists s, subtags' !! i' = Some s /\ breaks i' s = true.
Proof.
  induction fuel as [|fuel IH]; intros subtags i subtags' i' Hfuel H.
  - rewrite Fuel.standardLoop_done in H by lia. injection H as <- <-.
    left. apply lookup_ge_None. lia.
  - simpl in H. destruct (subtags !! i) as [s|] eqn:Hs;
      [| injection H as <- <-; left; exact Hs].
    pose proof (lookup_lt_Some _ _ _ Hs) as Hlt.
    destruct (_ && _) eqn:Hb in H.
    { injection H as <- <-. right. exists s. split; [exact Hs | exact Hb]. }
    destruct (ownProperty subtagMappings _) as [[mapped|]|e];
      rewrite ?bind_Normal, ?bind_Throw in H; try discriminate H.
    { apply IH in H; [exact H | rewrite length_insert; lia]. }
    destruct (ownProperty extlangs _) as [[e'|]|e];
      rewrite ?bind_Normal, ?bind_Throw in H; try discriminate H.
    2: { apply IH in H; [exact H | rewrite length_insert; lia]. }
    destruct (i =? 1)%nat eqn:Hi.
    2: { apply IH in H; [exact H | rewrite length_insert; lia]. }
    apply Nat.eqb_eq in Hi. subst i.
    destruct (WithTables.prefixOf extlangs _) as [p|e];
      rewrite ?bind_Normal, ?bind_Throw in H; try discriminate H.
    destruct (bool_decide _).
    + apply IH in H; [exact H |]. rewrite length_insert, length_tl. simpl. lia.
    + apply IH in H; [exact H | rewrite length_insert; lia].
Qed.

End Exit.

(** X15.  Whatever the tables hold, the first loop of
    [canonicalizeLanguageTag] has ended after [subtags.length - i] turns:
    unless it has raised an error, it has left at an index past the end
    of the array or at a subtag on which its break test holds. *)
Theorem standardLoop_ends (subtagMappings : gmap string string)
    (extlangs : gmap string extlangMapping) (turns : nat)
    (subtags : list string) (i : nat) (subtags' : list string) (i' : nat) :
  length subtags - i <= turns ->
  WithTables.standardLoop subtagMappings extlangs turns subtags i = Normal (subtags', i') ->
  subtags' !! i' = None
  \/ exists s, subtags' !! i' = Some s /\ breaks i' s = true.
Proof. apply Exit.standardLoop_left. Qed.

Lemma standardLoop_ends_witness :
  length ["zh"; "yue"; "hk"; "u"; "ca"] - 0 <= 5
  /\ WithTables.standardLoop ∅ {[ "yue" := {| preferred := "yue"; prefix := "zh" |} ]}
       5 ["zh"; "yue"; "hk"; "u"; "ca"] 0
     = Normal (["yue"; "HK"; "u"; "ca"], 2)
  /\ (["yue"; "HK"; "u"; "ca"] !! 2 = None
      \/ exists s, ["yue"; "HK"; "u"; "ca"] !! 2 = Some s /\ breaks 2 s = true).
Proof.
  assert (WithTables.standardLoop ∅ {[ "yue" := {| preferred := "yue"; prefix := "zh" |} ]}
            5 ["zh"; "yue"; "hk"; "u"; "ca"] 0
          = Normal (["yue"; "HK"; "u"; "ca"], 2)) as H by (vm_compute; reflexivity).
  split; [simpl; lia |]. split; [exact H |].
  apply (standardLoop_ends _ _ 5 ["zh"; "yue"; "hk"; "u"; "ca"] 0 _ _ ltac:(simpl; lia) H).
Defined.

(** ** Shapes: the matcher only finds what the shapes of a pattern allow *)

Module ShapeFacts.
Import Shape.

Lemma eqb_eq a b : eqb a b = true <-> a = b.
Proof.
  destruct a, b; simpl; split; intros H; try discriminate H; try reflexivity.
  - apply Nat.eqb_eq in H. now subst.
  - injection H as ->. apply Nat.eqb_refl.
  - apply andb_true_iff in H as [H1 H2].
    apply Nat.eqb_eq in H1, H2. now subst.
  - injection H as -> ->. now rewrite !Nat.eqb_refl.
Qed.

Lemma mem_In a A : mem a A = true <-> In a A.
Proof.
  unfold mem. rewrite existsb_exists. split.
  - intros (b & Hb & E). apply eqb_eq in E. now subst.
  - intros H. exists a. split; [exact H | now apply eqb_eq].
Qed.

Lemma In_add a b A : In a (add b A) <-> a = b \/ In a A.
Proof.
  unfold add. destruct (mem b A) eqn:E; simpl.
  - apply mem_In in E. split; [auto | intros [-> | H]; auto].
  - split; intros [H | H]; auto.
Qed.

Lemma In_union a A B : In a (union A B) <-> In a A \/ In a B.
Proof.
  unfold union. induction A as [|x A IH]; simpl.
  - split; [auto | intros [[] | H]; exact H].
  - rewrite In_add, IH. split; intros H; intuition auto.
Qed.

Lemma In_row_keep a x B acc :
  In a acc -> In a (fold_right (fun b0 acc' => add (mul x b0) acc') acc B).
Proof.
  intros Hacc. induction B as [|y B IH]; simpl; [exact Hacc |].
  apply In_add. now right.
Qed.

Lemma In_row x b B acc :
  In b B -> In (mul x b) (fold_right (fun b0 acc' => add (mul x b0) acc') acc B).
Proof.
  intros Hb. induction B as [|y B IH]; simpl; [contradiction |].
  apply In_add. destruct Hb as [-> | Hb]; [now left | right; now apply IH].
Qed.

Lemma In_products a b A B : In a A -> In b B -> In (mul a b) (products A B).
Proof.
  intros Ha Hb. unfold products. induction A as [|x A IH]; simpl; [contradiction |].
  destruct Ha as [-> | Ha].
  - now apply In_row.
  - now apply In_row_keep, IH.
Qed.

Lemma subset_In A B : subset A B = true -> forall a, In a A -> In a B.
Proof.
  unfold subset. rewrite forallb_forall. intros H a Ha. apply mem_In, H, Ha.
Qed.

Lemma In_allChars c : In c allChars.
Proof.
  unfold allChars. rewrite <- (ascii_nat_embedding c).
  apply in_map, in_seq. pose proof (nat_ascii_bounded c). lia.
Qed.

Lemma In_charShapes p c : p c = true -> In (ofChar c) (charShapes p).
Proof.
  intros Hp. unfold charShapes. pose proof (In_allChars c) as Hc.
  induction allChars as [|x l IH]; simpl; [contradiction |].
  destruct Hc as [-> | Hc].
  - rewrite Hp. apply In_add. now left.
  - destruct (p x); [apply In_add; right |]; apply IH, Hc.
Qed.

Lemma mul_Bad_r a : mul a Bad = Bad.
Proof. destruct a; reflexivity. Qed.

Lemma mul_unit_l a : normal a = true -> mul (Run 0) a = a.
Proof.
  destruct a as [|n|f l]; simpl; intros H; [reflexivity | now rewrite H |].
  apply andb_true_iff in H as [H _]. now rewrite H.
Qed.

Lemma ofChar_unit_r c : mul (ofChar c) (Run 0) = ofChar c.
Proof. unfold ofChar. destruct (isAlnum c); [| destruct (ascii_dec c "-")]; reflexivity. Qed.

Ltac split_tests :=
  repeat (cbn [mul normal];
          match goal with
          | |- context [if ?t then _ else _] => destruct t eqn:?
          end);
  cbn [mul normal].

Ltac to_arith :=
  unfold subtagLength in *;
  repeat match goal with
         | H : (_ <=? _)%nat = true |- _ => apply Nat.leb_le in H
         | H : (_ <=? _)%nat = false |- _ => apply Nat.leb_gt in H
         | H : _ && _ = true |- _ => apply andb_true_iff in H as [? ?]
         | H : _ && _ = false |- _ => apply andb_false_iff in H as [? | ?]
         end.

Lemma mul_assoc a b c : mul (mul a b) c = mul a (mul b c).
Proof.
  destruct a as [|n|f l], b as [|m|f' l'], c as [|k|f'' l'']; split_tests;
    try reflexivity; to_arith;
    first [ f_equal; lia | exfalso; lia ].
Qed.

Lemma mul_normal a b : normal a = true -> normal b = true -> normal (mul a b) = true.
Proof.
  destruct a as [|n|f l], b as [|m|f' l']; cbn [normal]; intros Ha Hb; split_tests;
    try reflexivity; to_arith;
    first [ apply Nat.leb_le; lia
          | apply andb_true_iff; split; apply Nat.leb_le; lia ].
Qed.

Lemma ofChar_normal c : normal (ofChar c) = true.
Proof. unfold ofChar. destruct (isAlnum c); [| destruct (ascii_dec c "-")]; reflexivity. Qed.

Lemma shapeOf_normal s : normal (shapeOf s) = true.
Proof.
  induction s as [|c s IH]; [reflexivity |].
  apply mul_normal; [apply ofChar_normal | exact IH].
Qed.

Lemma shapeOf_app a b : shapeOf (String.append a b) = mul (shapeOf a) (shapeOf b).
Proof.
  induction a as [|c a IH].
  - symmetry. apply mul_unit_l, shapeOf_normal.
  - rewrite CaseFacts.append_cons.
    change (mul (ofChar c) (shapeOf (String.append a b))
            = mul (mul (ofChar c) (shapeOf a)) (shapeOf b)).
    now rewrite IH, mul_assoc.
Qed.

(** Pieces of the subject. *)

Lemma take_add n k s :
  Str.take (n + k) s = String.append (Str.take n s) (Str.take k (Str.drop n s)).
Proof.
  revert s. induction n as [|n IH]; intros s.
  - destruct s; reflexivity.
  - destruct s as [|c s]; simpl.
    + destruct k; reflexivity.
    + rewrite CaseFacts.append_cons, IH. reflexivity.
Qed.

Lemma drop_add n k s : Str.drop k (Str.drop n s) = Str.drop (n + k) s.
Proof.
  revert s. induction n as [|n IH]; intros s.
  - destruct s; reflexivity.
  - destruct s as [|c s]; simpl; [destruct k; reflexivity | apply IH].
Qed.

Lemma take_0 s : Str.take 0 s = "".
Proof. destruct s; reflexivity. Qed.

Lemma piece_refl input x : piece input x x = "".
Proof. unfold piece. rewrite Nat.sub_diag. apply take_0. Qed.

Lemma piece_trans input x y z :
  ahead input x y -> ahead input y z ->
  piece input x z = String.append (piece input x y) (piece input y z).
Proof.
  intros [Hxy _] [Hyz _]. unfold piece.
  replace (RegExp.endIndex z - RegExp.endIndex x)
    with ((RegExp.endIndex y - RegExp.endIndex x) + (RegExp.endIndex z - RegExp.endIndex y))
    by lia.
  rewrite take_add, drop_add.
  replace (RegExp.endIndex x + (RegExp.endIndex y - RegExp.endIndex x))
    with (RegExp.endIndex y) by lia.
  reflexivity.
Qed.

Lemma ahead_refl input x : within input x -> ahead input x x.
Proof. intros H. split; [lia | exact H]. Qed.

Lemma ahead_trans input x y z : ahead input x y -> ahead input y z -> ahead input x z.
Proof. intros [H1 H2] [H3 H4]. split; [lia | exact H4]. Qed.

Lemma take_one n s ch :
  String.get n s = Some ch -> Str.take 1 (Str.drop n s) = String ch "".
Proof.
  revert n. induction s as [|c s IH]; intros [|n] H; simpl in *; try discriminate H.
  - injection H as ->. destruct s; reflexivity.
  - apply IH, H.
Qed.

Lemma clearCaptures_nil x : RegExp.clearCaptures [] x = x.
Proof.
  destruct x as [e caps]. unfold RegExp.clearCaptures. simpl. f_equal.
  induction caps as [|p caps IH]; simpl; [reflexivity | now rewrite IH].
Qed.

(** A pattern with shapes holds no group. *)
Lemma shapes_groupsOf ignoreCase (r : RegExp.regex) :
  forall T, shapes ignoreCase r = Some T -> RegExp.groupsOf r = [].
Proof.
  induction r as [| a | ranges | r1 IH1 r2 IH2 | r1 IH1 r2 IH2
                 | min max r IH | n r IH | n | r IH | |]; intros T HT;
    cbn [shapes] in HT; simpl; try reflexivity; try discriminate HT.
  - destruct (shapes ignoreCase r1) as [A|]; [| discriminate HT].
    destruct (shapes ignoreCase r2) as [B|]; [| discriminate HT].
    now rewrite (IH1 A), (IH2 B).
  - destruct (shapes ignoreCase r1) as [A|]; [| discriminate HT].
    destruct (shapes ignoreCase r2) as [B|]; [| discriminate HT].
    now rewrite (IH1 A), (IH2 B).
  - destruct (shapes ignoreCase r) as [A|]; [| discriminate HT]. now apply (IH A).
  - destruct (shapes ignoreCase r) as [A|]; [| discriminate HT]. now apply (IH A).
Qed.

Section Soundness.

Variable ignoreCase : bool.
Variable input : string.

Lemma sound_unit (m : RegExp.matcher) :
  (forall x c z, m x c = Some z -> c x = Some z) -> sound input m [Run 0].
Proof.
  intros Hm x c z Hx H. exists x. split; [now apply ahead_refl |].
  split; [reflexivity |].
  split; [now apply Hm | rewrite piece_refl; reflexivity].
Qed.

Lemma sound_charMatcher p : sound input (RegExp.charMatcher input p) (charShapes p).
Proof.
  intros x c z Hx H. unfold RegExp.charMatcher in H.
  destruct (String.get (RegExp.endIndex x) input) as [ch|] eqn:Hget; [| discriminate H].
  destruct (p ch) eqn:Hp; [| discriminate H].
  exists (RegExp.MState (S (RegExp.endIndex x)) (RegExp.captures x)).
  split; [| split; [reflexivity | split; [exact H |]]].
  - apply RegExpFacts.get_within in Hget. split; simpl; lia.
  - apply mem_In. unfold piece. cbn [RegExp.endIndex].
    replace (S (RegExp.endIndex x) - RegExp.endIndex x) with 1 by lia.
    rewrite (take_one _ _ _ Hget). cbn [shapeOf]. rewrite ofChar_unit_r.
    apply In_charShapes, Hp.
Qed.

Lemma sound_seq (m1 m2 : RegExp.matcher) A B :
  sound input m1 A -> sound input m2 B ->
  sound input (fun x c => m1 x (fun y => m2 y c)) (products A B).
Proof.
  intros H1 H2 x c z Hx H.
  destruct (H1 x _ z Hx H) as (y1 & Hy1 & Hk1 & Hc1 & Hs1).
  destruct (H2 y1 c z (proj2 Hy1) Hc1) as (y2 & Hy2 & Hk2 & Hc2 & Hs2).
  exists y2. split; [eapply ahead_trans; eauto |].
  split; [congruence | split; [exact Hc2 |]].
  apply mem_In. rewrite (piece_trans _ _ _ _ Hy1 Hy2), shapeOf_app.
  apply In_products; now apply mem_In.
Qed.

Lemma sound_repeatMin (m rest : RegExp.matcher) T R :
  sound input m T -> sound input rest R ->
  forall n, sound input (RegExp.repeatMin m [] n rest) (power n T R).
Proof.
  intros Hm Hrest n. induction n as [|n IH]; [exact Hrest |].
  intros x c z Hx H. simpl in H. rewrite clearCaptures_nil in H.
  apply (sound_seq _ _ T (power n T R) Hm IH x c z Hx H).
Qed.

Lemma sound_repeatUpTo (m : RegExp.matcher) T C :
  sound input m T -> In (Run 0) C ->
  (forall a, In a (products T C) -> In a C) ->
  forall k, sound input (RegExp.repeatUpTo m [] k) C.
Proof.
  intros Hm Hunit Hclosed k. induction k as [|k IH]; intros x c z Hx H; simpl in H.
  - exists x. split; [now apply ahead_refl | split; [reflexivity | split; [exact H |]]].
    rewrite piece_refl. apply mem_In, Hunit.
  - rewrite clearCaptures_nil in H.
    destruct (m x _) as [z0|] eqn:Hiter.
    + injection H as ->.
      destruct (Hm x _ z Hx Hiter) as (y1 & Hy1 & Hk1 & Hc1 & Hs1).
      destruct (Nat.eqb (RegExp.endIndex y1) (RegExp.endIndex x)); [discriminate Hc1 |].
      destruct (IH y1 c z (proj2 Hy1) Hc1) as (y2 & Hy2 & Hk2 & Hc2 & Hs2).
      exists y2. split; [eapply ahead_trans; eauto |].
      split; [congruence | split; [exact Hc2 |]].
      apply mem_In, Hclosed.
      rewrite (piece_trans _ _ _ _ Hy1 Hy2), shapeOf_app.
      apply In_products; now apply mem_In.
    + exists x. split; [now apply ahead_refl | split; [reflexivity | split; [exact H |]]].
      rewrite piece_refl. apply mem_In, Hunit.
Qed.

Lemma sound_upTo (m : RegExp.matcher) T :
  sound input m T -> forall k, sound input (RegExp.repeatUpTo m [] k) (upTo k T).
Proof.
  intros Hm k. induction k as [|k IH]; intros x c z Hx H; simpl in H.
  - exists x. split; [now apply ahead_refl | split; [reflexivity | split; [exact H |]]].
    rewrite piece_refl. reflexivity.
  - rewrite clearCaptures_nil in H.
    destruct (m x _) as [z0|] eqn:Hiter.
    + injection H as ->.
      destruct (Hm x _ z Hx Hiter) as (y1 & Hy1 & Hk1 & Hc1 & Hs1).
      destruct (Nat.eqb (RegExp.endIndex y1) (RegExp.endIndex x)); [discriminate Hc1 |].
      destruct (IH y1 c z (proj2 Hy1) Hc1) as (y2 & Hy2 & Hk2 & Hc2 & Hs2).
      exists y2. split; [eapply ahead_trans; eauto |].
      split; [congruence | split; [exact Hc2 |]].
      apply mem_In. simpl. apply In_add. right.
      rewrite (piece_trans _ _ _ _ Hy1 Hy2), shapeOf_app.
      apply In_products; now apply mem_In.
    + exists x. split; [now apply ahead_refl | split; [reflexivity | split; [exact H |]]].
      rewrite piece_refl. apply mem_In. simpl. apply In_add. now left.
Qed.

Lemma closure_closed fuel T :
  forall C C', closure fuel T C = Some C' -> In (Run 0) C ->
    In (Run 0) C' /\ forall a, In a (products T C') -> In a C'.
Proof.
  induction fuel as [|fuel IH]; intros C C' H Hunit; simpl in H;
    destruct (subset (products T C) C) eqn:Hsub.
  - injection H as <-. split; [exact Hunit | now apply subset_In].
  - discriminate H.
  - injection H as <-. split; [exact Hunit | now apply subset_In].
  - apply (IH _ _ H). apply In_union. now right.
Qed.

Theorem shapes_sound (r : RegExp.regex) :
  forall T, shapes ignoreCase r = Some T ->
            sound input (RegExp.compile ignoreCase input r) T.
Proof.
  induction r as [| a | ranges | r1 IH1 r2 IH2 | r1 IH1 r2 IH2
                 | min max r IH | n r IH | n | r IH | |]; intros T HT; cbn [shapes] in HT.
  - injection HT as <-. apply sound_unit. auto.
  - injection HT as <-. apply sound_charMatcher.
  - injection HT as <-. apply sound_charMatcher.
  - destruct (shapes ignoreCase r1) as [A|]; [| discriminate HT].
    destruct (shapes ignoreCase r2) as [B|]; [| discriminate HT].
    injection HT as <-.
    exact (sound_seq _ _ A B (IH1 A eq_refl) (IH2 B eq_refl)).
  - destruct (shapes ignoreCase r1) as [A|]; [| discriminate HT].
    destruct (shapes ignoreCase r2) as [B|]; [| discriminate HT].
    injection HT as <-. intros x c z Hx H. simpl in H.
    destruct (RegExp.compile ignoreCase input r1 x c) as [z0|] eqn:E.
    + injection H as ->.
      destruct (IH1 A eq_refl x c z Hx E) as (y & Hy & Hk & Hc & Hs).
      exists y. split; [exact Hy | split; [exact Hk | split; [exact Hc |]]].
      apply mem_In, In_union. left. now apply mem_In.
    + destruct (IH2 B eq_refl x c z Hx H) as (y & Hy & Hk & Hc & Hs).
      exists y. split; [exact Hy | split; [exact Hk | split; [exact Hc |]]].
      apply mem_In, In_union. right. now apply mem_In.
  - destruct (shapes ignoreCase r) as [T0|] eqn:HT0; [| discriminate HT].
    pose proof (shapes_groupsOf _ _ _ HT0) as Hgs.
    specialize (IH T0 eq_refl).
    destruct max as [mx|].
    + injection HT as <-. simpl. unfold RegExp.repeatMatcher. rewrite Hgs.
      apply sound_repeatMin; [exact IH |].
      intros x c z Hx H. apply (sound_upTo _ _ IH _ x c z Hx H).
    + destruct (closure 64 T0 [Run 0]) as [C|] eqn:HC; [| discriminate HT].
      injection HT as <-.
      destruct (closure_closed _ _ _ _ HC (or_introl eq_refl)) as [Hunit Hclosed].
      simpl. unfold RegExp.repeatMatcher. rewrite Hgs.
      apply sound_repeatMin; [exact IH |].
      intros x c z Hx H. apply (sound_repeatUpTo _ _ _ IH Hunit Hclosed _ x c z Hx H).
  - discriminate HT.
  - discriminate HT.
  - destruct (shapes ignoreCase r) as [T0|]; [| discriminate HT].
    injection HT as <-. apply sound_unit. intros x c z H. simpl in H.
    destruct (RegExp.compile ignoreCase input r x _); [discriminate H | exact H].
  - injection HT as <-. apply sound_unit. intros x c z H. simpl in H.
    destruct (Nat.eqb _ _); [exact H | discriminate H].
  - injection HT as <-. apply sound_unit. intros x c z H. simpl in H.
    destruct (Nat.eqb _ _); [exact H | discriminate H].
Qed.

End Soundness.

End ShapeFacts.

(** ** Shapes and subtags *)

Module SubtagFacts.
Import Shape.

Lemma isAlnum_not_hyphen c : isAlnum c = true -> c <> "-"%char.
Proof. intros H ->. discriminate H. Qed.

Lemma shapeOf_cut s : cut s (shapeOf s).
Proof.
  induction s as [|c s IH]; [simpl; auto |].
  change (shapeOf (String c s)) with (mul (ofChar c) (shapeOf s)).
  unfold ofChar. destruct (isAlnum c) eqn:Hc.
  - pose proof (isAlnum_not_hyphen c Hc) as Hne.
    destruct (shapeOf s) as [|m|f l]; [exact I | |]; cbn [mul];
      destruct (_ <=? _)%nat; try exact I.
    + destruct IH as (Hs & Ha & Hl). simpl. rewrite Hs.
      destruct (ascii_dec c "-"); [contradiction |].
      rewrite Hc, Ha, Hl. repeat split; auto.
    + destruct IH as (w & ws & w' & Hs & Hw & Hf & Hws & Hw' & Hl). simpl. rewrite Hs.
      destruct (ascii_dec c "-"); [contradiction |].
      exists (String c w), ws, w'. simpl. rewrite Hc, Hw, Hf. repeat split; auto.
  - destruct (ascii_dec c "-") as [-> | Hne]; [| exact I].
    destruct (shapeOf s) as [|m|f l]; [exact I | |]; cbn [mul].
    + destruct (_ <=? _)%nat; [| exact I].
      destruct IH as (Hs & Ha & Hl). simpl. exists "", [], s. rewrite Hs.
      repeat split; auto.
    + change (0 + f) with f.
      destruct (subtagLength f) eqn:Hf'; [| exact I].
      destruct IH as (w & ws & w' & Hs & Hw & Hf & Hws & Hw' & Hl).
      simpl. exists "", (w :: ws), w'. rewrite Hs. repeat split; auto.
      constructor; [| exact Hws]. unfold subtag. now rewrite Hf, Hf', Hw.
Qed.

Lemma wellFormed_subtags s :
  wellFormed (shapeOf s) = true -> Forall (fun w => subtag w = true) (Str.split "-" s).
Proof.
  intros H. pose proof (shapeOf_cut s) as Hcut.
  destruct (shapeOf s) as [|n|f l]; simpl in *; [discriminate H | |].
  - destruct Hcut as (Hs & Ha & Hl). rewrite Hs. constructor; [| constructor].
    unfold subtag. now rewrite Hl, H, Ha.
  - destruct Hcut as (w & ws & w' & Hs & Hw & Hf & Hws & Hw' & Hl). rewrite Hs.
    apply andb_true_iff in H as [H1 H2].
    constructor; [unfold subtag; now rewrite Hf, H1, Hw |].
    apply Forall_app. split; [exact Hws |].
    constructor; [| constructor]. unfold subtag. now rewrite Hl, H2, Hw'.
Qed.

Lemma drop_0 s : Str.drop 0 s = s.
Proof. destruct s; reflexivity. Qed.

(** The shapes of the three alternatives of [languageTag] are all well
    formed. *)
Lemma languageTagBody_shapes :
  option_map (forallb wellFormed) (shapes true languageTagBody) = Some true.
Proof. vm_compute. reflexivity. Qed.

(** A match of the anchored pattern spans the whole subject, so the subject
    has one of the shapes of the body. *)
Lemma languageTagRE_wellFormed t :
  RegExp.test languageTagRE t = true -> wellFormed (shapeOf t) = true.
Proof.
  intros H. unfold RegExp.test in H. apply existsb_exists in H as (start & _ & H).
  unfold RegExp.matchAt in H. cbn [RegExp.pattern RegExp.flagIgnoreCase languageTagRE] in H.
  destruct (RegExp.compile true t languageTag (RegExp.MState start []) (fun y => Some y))
    as [z|] eqn:Hm; [clear H | discriminate H].
  change languageTag
    with (RegExp.Seq RegExp.Bol (RegExp.Seq languageTagBody RegExp.Eol)) in Hm.
  cbn [RegExp.compile RegExp.endIndex] in Hm.
  destruct (Nat.eqb start 0) eqn:Hstart; [| discriminate Hm].
  apply Nat.eqb_eq in Hstart. subst start.
  pose proof languageTagBody_shapes as HT.
  destruct (shapes true languageTagBody) as [T|] eqn:HTs; [| discriminate HT].
  injection HT as HT.
  destruct (ShapeFacts.shapes_sound true t languageTagBody T HTs
              (RegExp.MState 0 []) _ z (Nat.le_0_l _) Hm) as (y & [_ Hy] & _ & Hc & Hs).
  destruct (Nat.eqb (RegExp.endIndex y) (String.length t)) eqn:He; [| discriminate Hc].
  apply Nat.eqb_eq in He.
  unfold piece in Hs. cbn [RegExp.endIndex] in Hs.
  rewrite He, Nat.sub_0_r, drop_0, StrFacts.take_all in Hs by lia.
  apply ShapeFacts.mem_In in Hs.
  exact (proj1 (forallb_forall _ _) HT _ Hs).
Qed.

End SubtagFacts.

(** X10.  Every string that [languageTagRE] matches is a sequence of subtags of
    one to eight ASCII letters and digits each, separated by single hyphens:
    it is not empty, and has no hyphen at either end and no two in a row. *)
Theorem languageTagRE_subtags (t : string) :
  RegExp.test languageTagRE t = true ->
  Forall (fun w => Shape.subtag w = true) (Str.split "-" t).
Proof.
  intros H. apply SubtagFacts.wellFormed_subtags, SubtagFacts.languageTagRE_wellFormed, H.
Qed.

Lemma languageTagRE_subtags_witness :
  RegExp.test languageTagRE "sl-rozaj-biske-1994" = true
  /\ Forall (fun w => Shape.subtag w = true) (Str.split "-" "sl-rozaj-biske-1994").
Proof.
  assert (RegExp.test languageTagRE "sl-rozaj-biske-1994" = true) as H
    by (vm_compute; reflexivity).
  split; [exact H | apply (languageTagRE_subtags _ H)].
Defined.

(** ** The [i] flag: letter case of the subject *)

Module IgnoreCase.
Import Str.

Lemma charToUpper_lower c : charToUpper (charToLower c) = charToUpper c.
Proof. destruct c as [[] [] [] [] [] [] [] []]; reflexivity. Qed.

Lemma charToUpper_or_lower c : charToUpper c = c \/ charToLower c = c.
Proof. destruct c as [[] [] [] [] [] [] [] []]; auto. Qed.

Lemma length_toLowerCase s : String.length (toLowerCase s) = String.length s.
Proof. induction s as [|c s IH]; simpl; [reflexivity | now rewrite IH]. Qed.

Lemma get_toLowerCase n s :
  String.get n (toLowerCase s) = option_map charToLower (String.get n s).
Proof.
  revert n. induction s as [|c s IH]; intros [|n]; simpl; try reflexivity. apply IH.
Qed.

Lemma litTest_case a ch ch' :
  charToLower ch = charToLower ch' -> Shape.litTest true a ch = Shape.litTest true a ch'.
Proof.
  intros H. unfold Shape.litTest, RegExp.canonicalize.
  rewrite <- (charToUpper_lower ch), H, charToUpper_lower. reflexivity.
Qed.

Lemma classTest_folded ranges ch :
  Shape.classTest true ranges ch
  = RegExp.inRanges ranges (charToUpper ch) || RegExp.inRanges ranges (charToLower ch).
Proof.
  unfold Shape.classTest.
  destruct (charToUpper_or_lower ch) as [H | H]; rewrite H;
    destruct (RegExp.inRanges ranges ch), (RegExp.inRanges ranges (charToUpper ch)),
      (RegExp.inRanges ranges (charToLower ch)); try reflexivity; congruence.
Qed.

Lemma classTest_case ranges ch ch' :
  charToLower ch = charToLower ch' ->
  Shape.classTest true ranges ch = Shape.classTest true ranges ch'.
Proof.
  intros H. rewrite !classTest_folded, H.
  assert (charToUpper ch = charToUpper ch') as ->
    by (rewrite <- (charToUpper_lower ch), H; apply charToUpper_lower).
  reflexivity.
Qed.

Section Simulation.

(** Two subjects that differ in the case of ASCII letters only. *)
Variables s s' : string.
Hypothesis same : toLowerCase s = toLowerCase s'.

Lemma same_length : String.length s = String.length s'.
Proof. rewrite <- (length_toLowerCase s), same. apply length_toLowerCase. Qed.

Lemma same_get n :
  option_map charToLower (String.get n s) = option_map charToLower (String.get n s').
Proof. rewrite <- !get_toLowerCase, same. reflexivity. Qed.

Lemma inStep_charMatcher p :
  (forall ch ch', charToLower ch = charToLower ch' -> p ch = p ch') ->
  inStep (RegExp.charMatcher s p) (RegExp.charMatcher s' p).
Proof.
  intros Hp x x' c c' Hx Hc. unfold RegExp.charMatcher. rewrite <- Hx.
  pose proof (same_get (RegExp.endIndex x)) as Hget.
  destruct (String.get (RegExp.endIndex x) s) as [ch|],
           (String.get (RegExp.endIndex x) s') as [ch'|];
    simpl in Hget; try discriminate Hget; [| reflexivity].
  injection Hget as Hget. rewrite (Hp ch ch' Hget).
  destruct (p ch'); [| reflexivity]. apply Hc. reflexivity.
Qed.

Lemma inStep_repeatMin (m m' rest rest' : RegExp.matcher) gs :
  inStep m m' -> inStep rest rest' ->
  forall n, inStep (RegExp.repeatMin m gs n rest) (RegExp.repeatMin m' gs n rest').
Proof.
  intros Hm Hrest n. induction n as [|n IH]; intros x x' c c' Hx Hc; simpl.
  - now apply Hrest.
  - apply Hm; [exact Hx |]. intros y y' Hy. now apply IH.
Qed.

Lemma inStep_repeatUpTo (m m' : RegExp.matcher) gs :
  inStep m m' ->
  forall k, inStep (RegExp.repeatUpTo m gs k) (RegExp.repeatUpTo m' gs k).
Proof.
  intros Hm k. induction k as [|k IH]; intros x x' c c' Hx Hc; simpl.
  - now apply Hc.
  - match goal with
    | |- found (match ?a with _ => _ end) = found (match ?b with _ => _ end) =>
        assert (found a = found b) as Hiter
    end.
    { apply Hm; [exact Hx |]. intros y y' Hy. rewrite Hy, Hx.
      destruct (Nat.eqb _ _); [reflexivity | now apply IH]. }
    destruct (m _ _), (m' _ _); simpl in Hiter; try discriminate Hiter;
      [reflexivity | now apply Hc].
Qed.

Lemma inStep_compile (r : RegExp.regex) :
  backrefFree r = true -> inStep (RegExp.compile true s r) (RegExp.compile true s' r).
Proof.
  induction r as [| a | ranges | r1 IH1 r2 IH2 | r1 IH1 r2 IH2
                 | min max r IH | n r IH | n | r IH | |]; intros Hr; simpl in Hr.
  - intros x x' c c' Hx Hc. now apply Hc.
  - apply (inStep_charMatcher (Shape.litTest true a)). apply litTest_case.
  - apply (inStep_charMatcher (Shape.classTest true ranges)). apply classTest_case.
  - apply andb_true_iff in Hr as [H1 H2]. intros x x' c c' Hx Hc. simpl.
    apply (IH1 H1); [exact Hx |]. intros y y' Hy. now apply (IH2 H2).
  - apply andb_true_iff in Hr as [H1 H2]. intros x x' c c' Hx Hc. simpl.
    pose proof (IH1 H1 x x' c c' Hx Hc) as E1.
    pose proof (IH2 H2 x x' c c' Hx Hc) as E2.
    destruct (RegExp.compile true s r1 x c), (RegExp.compile true s' r1 x' c');
      simpl in E1; try discriminate E1; [reflexivity | exact E2].
  - simpl. unfold RegExp.repeatMatcher.
    apply inStep_repeatMin; [exact (IH Hr) |].
    intros x x' c c' Hx Hc. cbv zeta. rewrite <- same_length, <- Hx.
    now apply (inStep_repeatUpTo _ _ _ (IH Hr)).
  - intros x x' c c' Hx Hc. simpl. apply (IH Hr); [exact Hx |].
    intros y y' Hy. apply Hc. exact Hy.
  - discriminate Hr.
  - intros x x' c c' Hx Hc. simpl.
    pose proof (IH Hr x x' (fun y => Some y) (fun y => Some y) Hx (fun _ _ _ => eq_refl)) as E.
    destruct (RegExp.compile true s r x _), (RegExp.compile true s' r x' _);
      simpl in E; try discriminate E; [reflexivity | now apply Hc].
  - intros x x' c c' Hx Hc. simpl. rewrite <- Hx.
    destruct (Nat.eqb _ _); [now apply Hc | reflexivity].
  - intros x x' c c' Hx Hc. simpl. rewrite <- Hx, <- same_length.
    destruct (Nat.eqb _ _); [now apply Hc | reflexivity].
Qed.

Lemma test_same (r : RegExp.regex) :
  backrefFree r = true ->
  RegExp.test {| RegExp.pattern := r; RegExp.flagIgnoreCase := true |} s
  = RegExp.test {| RegExp.pattern := r; RegExp.flagIgnoreCase := true |} s'.
Proof.
  intros Hr. unfold RegExp.test. cbn [RegExp.pattern RegExp.flagIgnoreCase].
  rewrite <- same_length.
  induction (seq 0 (S (String.length s))) as [|start l IH]; [reflexivity |].
  cbn [existsb]. rewrite IH. f_equal.
  apply (inStep_compile r Hr (RegExp.MState start []) (RegExp.MState start [])
           (fun y => Some y) (fun y => Some y) eq_refl).
  reflexivity.
Qed.

End Simulation.

End IgnoreCase.

(** X11.  [languageTagRE] gives one answer for two strings that differ only in
    the case of ASCII letters. *)
Theorem languageTagRE_ignores_case (t t' : string) :
  Str.toLowerCase t = Str.toLowerCase t' ->
  RegExp.test languageTagRE t = RegExp.test languageTagRE t'.
Proof.
  intros H. apply (IgnoreCase.test_same t t' H languageTag). vm_compute. reflexivity.
Qed.

Lemma languageTagRE_ignores_case_witness :
  Str.toLowerCase "ZH-hANS-cn" = Str.toLowerCase "zh-Hans-CN"
  /\ RegExp.test languageTagRE "ZH-hANS-cn" = RegExp.test languageTagRE "zh-Hans-CN".
Proof.
  split; [reflexivity | apply (languageTagRE_ignores_case "ZH-hANS-cn" "zh-Hans-CN")].
  reflexivity.
Defined.

(** ** The value [canonicalizeLanguageTag] returns *)

Module Canonical.
Import CaseFacts LoopFacts.

(** Subtags hold no hyphen. *)
Lemma split_single s :
  Forall (fun w => Str.split "-" w = [w]) (Str.split "-" s).
Proof.
  induction s as [|c s IH]; [repeat constructor |]. simpl.
  destruct (ascii_dec c "-") as [-> | Hc]; [constructor; [reflexivity | exact IH] |].
  pose proof (split_nonempty "-" s) as Hne.
  destruct (Str.split "-" s) as [|w ws]; [congruence |].
  inversion IH as [|? ? Hw Hws]; subst.
  constructor; [| exact Hws]. simpl.
  destruct (ascii_dec c "-"); [contradiction |]. now rewrite Hw.
Qed.

Lemma split_append x rest :
  Str.split "-" x = [x] ->
  Str.split "-" (String.append x (String "-" rest)) = x :: Str.split "-" rest.
Proof.
  induction x as [|a x IH]; intros Hx; [reflexivity |].
  rewrite append_cons. simpl in *.
  destruct (ascii_dec a "-"); [discriminate Hx |].
  pose proof (split_nonempty "-" x) as Hne.
  destruct (Str.split "-" x) as [|u us]; [congruence |].
  injection Hx as -> ->. rewrite IH by reflexivity. reflexivity.
Qed.

Lemma split_join (l : list string) :
  l <> [] -> Forall (fun w => Str.split "-" w = [w]) l ->
  Str.split "-" (Str.join "-" l) = l.
Proof.
  induction l as [|x [|y l] IH]; intros Hne Hl; [congruence | |].
  - inversion Hl; subst. assumption.
  - inversion Hl as [|? ? Hx Hrest]; subst.
    rewrite join_cons.
    change (String.append "-" (Str.join "-" (y :: l)))
      with (String "-" (Str.join "-" (y :: l))).
    rewrite (split_append _ _ Hx), IH; [reflexivity | discriminate | exact Hrest].
Qed.

Lemma single_lower w :
  Str.split "-" w = [w] <-> Str.split "-" (Str.toLowerCase w) = [Str.toLowerCase w].
Proof.
  rewrite split_lower. split; intros H.
  - now rewrite H.
  - pose proof (join_split w) as Hj.
    destruct (Str.split "-" w) as [|u [|v us]]; try discriminate H.
    simpl in Hj. now subst.
Qed.

Lemma recaseStandard_single i (l : list string) :
  Forall (fun w => Str.split "-" w = [w]) l ->
  Forall (fun w => Str.split "-" w = [w]) (recaseStandard i l).
Proof.
  intros Hl. revert i. induction Hl as [|w l Hw Hl IH]; intros i; simpl; [constructor |].
  destruct (breaks i w); constructor; auto.
  apply (proj2 (single_lower _)). rewrite recase_lower.
  apply (proj1 (single_lower w)), Hw.
Qed.

(** The value returned: the subtags as the first loop leaves them, joined;
    or, when the first of them is empty and [x] follows it, the rest of
    them joined. *)
Lemma returned (t c : string) :
  canonicalizeLanguageTag t = Normal c ->
  let L' := recaseStandard 0 (Str.split "-" (Str.toLowerCase t)) in
  c = Str.join "-" L' \/ exists M, L' = "" :: M.
Proof.
  intros Hc L'.
  unfold canonicalizeLanguageTag, WithTables.canonicalizeLanguageTag,
    langTagMappings, langSubtagMappings, extlangMappings in Hc.
  rewrite ownProperty_empty, bind_Normal in Hc.
  set (L := Str.split "-" (Str.toLowerCase t)) in *.
  rewrite Standard.standardLoop_whole, bind_Normal in Hc. fold L' in Hc.
  set (b := standardLength 0 L) in *.
  destruct (WithTables.extensionLoop (length L') L' b []) as [[exts i']|e] eqn:Hext;
    [| discriminate Hc].
  rewrite bind_Normal in Hc.
  apply Idempotence.extensionLoop_normal in Hext as (-> & -> & Hstop).
  injection Hc as Hc.
  change (Str.sort []) with (@nil string) in Hc.
  change (length (@nil string)) with 0 in Hc.
  change (0 <? 0)%nat with false in Hc.
  cbv beta iota in Hc.
  unfold Str.slice, Str.sliceFrom in Hc. rewrite Nat.sub_0_r, drop_0 in Hc.
  destruct (b <? length L')%nat eqn:Hbl.
  2: { apply Nat.ltb_ge in Hbl. simpl in Hc. left.
       rewrite <- Hc, take_ge by lia. reflexivity. }
  apply Nat.ltb_lt in Hbl.
  destruct (L' !! b) as [s|] eqn:Hs; [| apply lookup_ge_None in Hs; lia].
  pose proof (drop_S _ _ _ Hs) as Hprivate.
  assert (0 < String.length (Str.join "-" (drop b L'))) as Hpos.
  { assert (String.length s = 1) as Hs1.
    { destruct Hstop as [Hnone | Hx]; [lia | discriminate Hnone |].
      now injection Hx as ->. }
    rewrite Hprivate. destruct (drop (S b) L').
    - simpl. lia.
    - rewrite join_cons, length_app. lia. }
  apply Nat.ltb_lt in Hpos. rewrite Hpos in Hc.
  destruct (0 <? String.length (Str.join "-" (take b L')))%nat eqn:Hnormal.
  { left. rewrite <- Hc, <- join_app, take_drop; [reflexivity | |].
    - intros E. rewrite E in Hnormal. discriminate Hnormal.
    - rewrite Hprivate. discriminate. }
  apply Nat.ltb_ge in Hnormal.
  assert (Str.join "-" (take b L') = "") as Hempty.
  { destruct (Str.join "-" (take b L')); [reflexivity | simpl in Hnormal; lia]. }
  apply join_empty in Hempty as [Hnil | Hone].
  - left. apply (f_equal (@length string)) in Hnil.
    rewrite length_take_le in Hnil by lia. simpl in Hnil.
    rewrite <- Hc, Hnil, drop_0. reflexivity.
  - right. exists (drop b L'). rewrite <- (take_drop b L') at 1. now rewrite Hone.
Qed.

(** The first subtag of a string that [languageTagRE] matches is not empty,
    before and after the first loop. *)
Lemma first_subtag (t : string) (M : list string) :
  RegExp.test languageTagRE t = true ->
  recaseStandard 0 (Str.split "-" (Str.toLowerCase t)) <> "" :: M.
Proof.
  intros Hre HM.
  pose proof (SubtagFacts.wellFormed_subtags t
                (SubtagFacts.languageTagRE_wellFormed t Hre)) as Hsub.
  apply (f_equal (map Str.toLowerCase)) in HM.
  rewrite Standard.recaseStandard_lower, split_lower in HM.
  destruct (Str.split "-" t) as [|w ws]; [discriminate HM |].
  inversion Hsub as [|? ? Hw _]; subst.
  simpl in HM. injection HM as HM _.
  destruct w; [discriminate Hw | discriminate HM].
Qed.

Lemma valid_matches (t : string) :
  isStructurallyValidLanguageTag t = true -> RegExp.test languageTagRE t = true.
Proof.
  unfold isStructurallyValidLanguageTag.
  destruct (RegExp.test languageTagRE t); [reflexivity | discriminate].
Qed.

Lemma joined (t c : string) :
  isStructurallyValidLanguageTag t = true ->
  canonicalizeLanguageTag t = Normal c ->
  c = Str.join "-" (recaseStandard 0 (Str.split "-" (Str.toLowerCase t))).
Proof.
  intros Hv Hc. destruct (returned t c Hc) as [H | [M HM]]; [exact H |].
  exfalso. exact (first_subtag t M (valid_matches t Hv) HM).
Qed.

Lemma lower (t c : string) :
  isStructurallyValidLanguageTag t = true ->
  canonicalizeLanguageTag t = Normal c ->
  Str.toLowerCase c = Str.toLowerCase t.
Proof.
  intros Hv Hc. rewrite (joined t c Hv Hc).
  rewrite toLowerCase_join, Standard.recaseStandard_lower, <- split_lower.
  rewrite toLowerCase_idem. apply join_split.
Qed.

End Canonical.

(** X12.  For a structurally valid tag, what [canonicalizeLanguageTag] returns
    differs from the tag in the case of ASCII letters only, and
    [languageTagRE] still matches it. *)
Theorem canonicalizeLanguageTag_letter_case (t c : string) :
  isStructurallyValidLanguageTag t = true ->
  canonicalizeLanguageTag t = Normal c ->
  Str.toLowerCase c = Str.toLowerCase t /\ RegExp.test languageTagRE c = true.
Proof.
  intros Hv Hc. pose proof (Canonical.lower t c Hv Hc) as Hl.
  split; [exact Hl |].
  rewrite <- (Canonical.valid_matches t Hv).
  apply (IgnoreCase.test_same c t Hl languageTag). vm_compute. reflexivity.
Qed.

Lemma canonicalizeLanguageTag_letter_case_witness :
  isStructurallyValidLanguageTag "SR-lATN-rs-X-Private" = true
  /\ canonicalizeLanguageTag "SR-lATN-rs-X-Private" = Normal "sr-Latn-RS-x-private"
  /\ Str.toLowerCase "sr-Latn-RS-x-private" = Str.toLowerCase "SR-lATN-rs-X-Private"
  /\ RegExp.test languageTagRE "sr-Latn-RS-x-private" = true.
Proof.
  assert (isStructurallyValidLanguageTag "SR-lATN-rs-X-Private" = true) as Hv
    by (vm_compute; reflexivity).
  assert (canonicalizeLanguageTag "SR-lATN-rs-X-Private" = Normal "sr-Latn-RS-x-private")
    as Hc by (vm_compute; reflexivity).
  split; [exact Hv |]. split; [exact Hc |].
  exact (canonicalizeLanguageTag_letter_case _ _ Hv Hc).
Defined.

(** *** The letter case of the subtags *)

Module Casing.
Import CaseFacts.

Lemma toUpperCase_lower s : Str.toUpperCase (Str.toLowerCase s) = Str.toUpperCase s.
Proof.
  induction s as [|c s IH]; simpl; [reflexivity |].
  now rewrite IgnoreCase.charToUpper_lower, IH.
Qed.

(** The re-casing at the head of the loop body, on a lower-cased subtag. *)
Lemma recase_lowered i u : WithTables.recase i (Str.toLowerCase u) = subtagCase i u.
Proof.
  unfold WithTables.recase, subtagCase. rewrite IgnoreCase.length_toLowerCase.
  destruct (String.length u =? 4)%nat eqn:H4.
  - apply Nat.eqb_eq in H4.
    destruct u as [|c1 [|c2 [|c3 [|c4 [|c5 u]]]]]; try discriminate H4.
    cbn [Str.toLowerCase titleCase].
    rewrite StrFacts.substring_prefix, StrFacts.substringFrom_suffix.
    match goal with
    | |- context [Str.clamp ?s 1] => change (Str.clamp s 1) with 1
    end.
    cbn [Str.take Str.drop Str.toUpperCase].
    rewrite append_cons, append_nil_l, IgnoreCase.charToUpper_lower. reflexivity.
  - rewrite (andb_comm (negb _)).
    destruct (_ && _); [apply toUpperCase_lower | reflexivity].
Qed.

Lemma breaks_lowered i u : breaks i (Str.toLowerCase u) = opensRest i u.
Proof.
  unfold breaks, opensRest. rewrite IgnoreCase.length_toLowerCase.
  destruct i; reflexivity.
Qed.

Lemma recaseStandard_canonicalCase (l : list string) :
  forall i, recaseStandard i (map Str.toLowerCase l) = canonicalCase i l.
Proof.
  induction l as [|u l IH]; intros i; [reflexivity |].
  cbn [map recaseStandard canonicalCase]. rewrite breaks_lowered.
  destruct (opensRest i u); [reflexivity |].
  now rewrite recase_lowered, IH.
Qed.

(** The subtags of the result, as the first loop leaves them. *)
Lemma subtags_of_result (t c : string) :
  isStructurallyValidLanguageTag t = true ->
  canonicalizeLanguageTag t = Normal c ->
  Str.split "-" c = recaseStandard 0 (Str.split "-" (Str.toLowerCase t)).
Proof.
  intros Hv Hc. rewrite (Canonical.joined t c Hv Hc).
  apply Canonical.split_join.
  - intros E. apply (f_equal (@length string)) in E.
    rewrite Standard.recaseStandard_length in E.
    pose proof (split_nonempty "-" (Str.toLowerCase t)) as Hne.
    destruct (Str.split "-" (Str.toLowerCase t)); [congruence | discriminate E].
  - apply Canonical.recaseStandard_single, Canonical.split_single.
Qed.

End Casing.

(** X13.  For a structurally valid tag on which [canonicalizeLanguageTag]
    returns, the subtags of the result are those of the tag in the letter
    case of [canonicalCase]: up to the first subtag of one character that
    is not the first subtag (or a first subtag [x]), a subtag of four
    characters has its first letter in upper case and the others in lower
    case, a subtag of two characters that is not the first is in upper
    case, and any other subtag is in lower case; that subtag and all
    those after it are in lower case. *)
Theorem canonicalizeLanguageTag_subtags (t c : string) :
  isStructurallyValidLanguageTag t = true ->
  canonicalizeLanguageTag t = Normal c ->
  Str.split "-" c = canonicalCase 0 (Str.split "-" t).
Proof.
  intros Hv Hc. rewrite (Casing.subtags_of_result t c Hv Hc).
  rewrite CaseFacts.split_lower. apply Casing.recaseStandard_canonicalCase.
Qed.

Lemma canonicalizeLanguageTag_subtags_witness :
  isStructurallyValidLanguageTag "SR-lATN-rs-X-Private" = true
  /\ canonicalizeLanguageTag "SR-lATN-rs-X-Private" = Normal "sr-Latn-RS-x-private"
  /\ canonicalCase 0 (Str.split "-" "SR-lATN-rs-X-Private")
     = ["sr"; "Latn"; "RS"; "x"; "private"]
  /\ Str.split "-" "sr-Latn-RS-x-private"
     = canonicalCase 0 (Str.split "-" "SR-lATN-rs-X-Private").
Proof.
  assert (isStructurallyValidLanguageTag "SR-lATN-rs-X-Private" = true) as Hv
    by (vm_compute; reflexivity).
  assert (canonicalizeLanguageTag "SR-lATN-rs-X-Private" = Normal "sr-Latn-RS-x-private")
    as Hc by (vm_compute; reflexivity).
  split; [exact Hv |]. split; [exact Hc |]. split; [vm_compute; reflexivity |].
  exact (canonicalizeLanguageTag_subtags _ _ Hv Hc).
Defined.

(** ** Duplicate subtags: what the two patterns with a back-reference find *)

Module Duplicates.
Import Shape ShapeFacts CaseFacts.

Lemma append_nil_r a : String.append a "" = a.
Proof. induction a as [|c a IH]; [reflexivity |]. now rewrite append_cons, IH. Qed.

Lemma split_hyphen X R :
  Str.split "-" (String.append X (String "-" R)) = Str.split "-" X ++ Str.split "-" R.
Proof.
  induction X as [|c X IH]; [reflexivity |].
  rewrite append_cons. simpl. rewrite IH.
  destruct (ascii_dec c "-"); [reflexivity |].
  pose proof (split_nonempty "-" X) as Hne.
  destruct (Str.split "-" X); [congruence | reflexivity].
Qed.

Lemma run_single s n : shapeOf s = Run n -> Str.split "-" s = [s] /\ String.length s = n.
Proof.
  intros H. pose proof (SubtagFacts.shapeOf_cut s) as Hcut. rewrite H in Hcut.
  destruct Hcut as (Hs & _ & Hl). auto.
Qed.

Lemma ends s : forall f, shapeOf s = Split f 0 -> exists s', s = String.append s' "-".
Proof.
  induction s as [|c s IH]; intros f H; [discriminate H |].
  change (shapeOf (String c s)) with (mul (ofChar c) (shapeOf s)) in H.
  unfold ofChar in H. destruct (isAlnum c).
  - destruct (shapeOf s) as [|m|f' l']; cbn [mul] in H; [discriminate H | |];
      destruct (_ <=? _)%nat; try discriminate H.
    injection H as _ ->. destruct (IH f' eq_refl) as [s' ->].
    exists (String c s'). reflexivity.
  - destruct (ascii_dec c "-") as [-> |]; [| discriminate H].
    destruct (shapeOf s) as [|m|f' l'] eqn:Hs; cbn [mul] in H; [discriminate H | |].
    + destruct (_ <=? _)%nat; [| discriminate H]. injection H as _ H.
      simpl in H. subst m. apply run_single in Hs as [_ Hl].
      destruct s; [| discriminate Hl]. exists "". reflexivity.
    + destruct (subtagLength _); [| discriminate H]. injection H as _ ->.
      destruct (IH f' eq_refl) as [s' ->]. exists (String "-" s'). reflexivity.
Qed.

Lemma begins s l : shapeOf s = Split 0 l -> exists s', s = String "-" s'.
Proof.
  destruct s as [|c s]; intros H; [discriminate H |].
  change (shapeOf (String c s)) with (mul (ofChar c) (shapeOf s)) in H.
  unfold ofChar in H. destruct (isAlnum c).
  - destruct (shapeOf s) as [|m|f' l']; cbn [mul] in H; [discriminate H | |];
      destruct (_ <=? _)%nat; discriminate H.
  - destruct (ascii_dec c "-") as [-> |]; [| discriminate H]. exists s. reflexivity.
Qed.

Lemma not_bad_app a b :
  shapeOf (String.append a b) <> Bad -> shapeOf a <> Bad /\ shapeOf b <> Bad.
Proof.
  rewrite shapeOf_app. intros H. split; intros E; rewrite E in H; apply H;
    [reflexivity | apply mul_Bad_r].
Qed.

(** Predicates on shapes, read on strings. *)
Lemma closed_ends s :
  closed (shapeOf s) = true -> shapeOf s <> Bad -> exists s', s = String.append s' "-".
Proof.
  intros H Hb. destruct (shapeOf s) as [|n|f [|l]] eqn:E; try discriminate H;
    [congruence | apply (ends s f E)].
Qed.

Lemma emptyOrClosed_ends s :
  emptyOrClosed (shapeOf s) = true -> shapeOf s <> Bad ->
  s = "" \/ exists s', s = String.append s' "-".
Proof.
  intros H Hb. destruct (shapeOf s) as [|[|n]|f [|l]] eqn:E; try discriminate H;
    [congruence | left | right; apply (ends s f E)].
  apply run_single in E as [_ E]. destruct s; [reflexivity | discriminate E].
Qed.

Lemma hyphens_both s :
  hyphens (shapeOf s) = true -> shapeOf s <> Bad ->
  exists s', s = String "-" s' /\ (s' = "" \/ exists s'', s' = String.append s'' "-").
Proof.
  intros H Hb. destruct (shapeOf s) as [|n|[|f] [|l]] eqn:E; try discriminate H;
    [congruence |].
  destruct (begins s 0 E) as [s' ->]. destruct (ends _ 0 E) as [s'' Hs''].
  exists s'. split; [reflexivity |].
  destruct s'' as [|a s0]; simpl in Hs''.
  - injection Hs'' as Hs''. left. exact Hs''.
  - injection Hs'' as _ Hs''. right. exists s0. exact Hs''.
Qed.

Lemma isRun_single s :
  isRun (shapeOf s) = true -> Str.split "-" s = [s] /\ s <> "".
Proof.
  intros H. destruct (shapeOf s) as [|[|n]|f l] eqn:E; try discriminate H.
  apply run_single in E as [Hs Hl]. split; [exact Hs |]. intros ->. discriminate Hl.
Qed.

(** A subtag [v] that stands twice between hyphens is twice in the list of
    subtags. *)
Lemma twice (pre A v D S post : string) :
  (exists A', A = String.append A' "-") ->
  Str.split "-" v = [v] ->
  (exists D', D = String "-" D' /\ (D' = "" \/ exists D'', D' = String.append D'' "-")) ->
  (S = "" \/ exists S', S = String.append S' "-") ->
  (post = "" \/ exists p, post = String "-" p) ->
  exists l1 l2 l3,
    Str.split "-" (String.append pre (String.append A (String.append v
                     (String.append D (String.append S (String.append v post))))))
    = l1 ++ v :: l2 ++ v :: l3.
Proof.
  intros [A' ->] Hv (D' & -> & HD') HS Hpost.
  assert (exists l3, Str.split "-" (String.append v post) = v :: l3) as [l3 Hlast].
  { destruct Hpost as [-> | [p ->]].
    - rewrite append_nil_r, Hv. now exists [].
    - rewrite split_hyphen, Hv. now exists (Str.split "-" p). }
  assert (String.append D' S = ""
          \/ exists M', String.append D' S = String.append M' "-") as HM.
  { destruct HS as [-> | [S' ->]].
    - rewrite append_nil_r. exact HD'.
    - right. exists (String.append D' S'). now rewrite append_assoc. }
  assert (exists l2, Str.split "-" (String.append D' (String.append S (String.append v post)))
                     = l2 ++ v :: l3) as [l2 Hmid].
  { rewrite <- append_assoc. destruct HM as [-> | [M' ->]].
    - exists []. exact Hlast.
    - rewrite append_assoc.
      change (String.append "-" (String.append v post)) with (String "-" (String.append v post)).
      rewrite split_hyphen, Hlast. now exists (Str.split "-" M'). }
  exists (Str.split "-" (String.append pre A')), l2, l3.
  rewrite (append_assoc A' "-"), <- (append_assoc pre A').
  change (String.append "-" ?x) with (String "-" x).
  rewrite split_hyphen. f_equal.
  change (String.append (String "-" D') ?x) with (String "-" (String.append D' x)).
  rewrite split_hyphen, Hv, Hmid. reflexivity.
Qed.

Lemma sameChars_eq a : forall b, RegExp.sameChars false a b = true -> a = b.
Proof.
  induction a as [|x a IH]; intros [|y b] H; simpl in H; try discriminate H;
    [reflexivity |].
  unfold RegExp.canonicalize in H. destruct (ascii_dec x y) as [-> |]; [| discriminate H].
  now rewrite (IH b H).
Qed.

Lemma isAlnum_ranges ch :
  isAlnum ch
  = RegExp.inRanges [("a", "z"); ("A", "Z")]%char ch
    || RegExp.inRanges [("0", "9")]%char ch.
Proof. destruct ch as [[] [] [] [] [] [] [] []]; reflexivity. Qed.

Lemma drop_get n s ch p : Str.drop n s = String ch p -> String.get n s = Some ch.
Proof.
  revert n. induction s as [|c s IH]; intros [|n] H; simpl in *; try discriminate H.
  - now injection H as -> _.
  - apply IH, H.
Qed.

Section Doubled.

(** The subject, all of alphanumerics and hyphens. *)
Variable input : string.
Hypothesis input_shape : shapeOf input <> Bad.

Lemma whole x y :
  ahead input x y ->
  input = String.append (Str.take (RegExp.endIndex x) input)
            (String.append (piece input x y) (Str.drop (RegExp.endIndex y) input)).
Proof.
  intros [Hxy _]. unfold piece.
  rewrite <- (StrFacts.take_drop (RegExp.endIndex x) input) at 1. f_equal.
  rewrite <- (StrFacts.take_drop (RegExp.endIndex y - RegExp.endIndex x)
                (Str.drop (RegExp.endIndex x) input)) at 1.
  rewrite drop_add. do 2 f_equal. lia.
Qed.

Lemma piece_shape x y : ahead input x y -> shapeOf (piece input x y) <> Bad.
Proof.
  intros H. pose proof input_shape as Hi. rewrite (whole x y H) in Hi.
  apply not_bad_app in Hi as [_ Hi]. apply not_bad_app in Hi as [Hi _]. exact Hi.
Qed.

Lemma rest_shape n : shapeOf (Str.drop n input) <> Bad.
Proof.
  pose proof input_shape as Hi. rewrite <- (StrFacts.take_drop n input) in Hi.
  apply not_bad_app in Hi as [_ Hi]. exact Hi.
Qed.

(** After a failed look-ahead for an alphanumeric, the subject ends or goes
    on with a hyphen. *)
Lemma lookahead_rest y :
  RegExp.compile false input alphanum y (fun y' => Some y') = None ->
  Str.drop (RegExp.endIndex y) input = ""
  \/ exists p, Str.drop (RegExp.endIndex y) input = String "-" p.
Proof.
  intros H. destruct (Str.drop (RegExp.endIndex y) input) as [|ch p] eqn:Hrest;
    [now left | right].
  pose proof (rest_shape (RegExp.endIndex y)) as Hs. rewrite Hrest in Hs.
  apply drop_get in Hrest.
  assert (isAlnum ch = false) as Hch.
  { rewrite isAlnum_ranges.
    unfold alphanum, ALPHA, DIGIT in H. simpl in H.
    unfold RegExp.classMatcher, RegExp.charMatcher in H. rewrite Hrest in H.
    destruct (RegExp.inRanges [("a", "z"); ("A", "Z")]%char ch); [discriminate H |].
    destruct (RegExp.inRanges [("0", "9")]%char ch); [discriminate H | reflexivity]. }
  change (shapeOf (String ch p)) with (mul (ofChar ch) (shapeOf p)) in Hs.
  unfold ofChar in Hs. rewrite Hch in Hs.
  destruct (ascii_dec ch "-") as [-> |]; [now exists p | exfalso; now apply Hs].
Qed.

(** A match of a pattern of the form of the two that look for duplicates: a
    part that ends with a hyphen, a captured subtag, a hyphen, further
    subtags with their hyphens, the captured subtag again, and no
    alphanumeric next. *)
Lemma doubling (RA RV RD RS : RegExp.regex) (TA TV TD TS : list shape) x z :
  shapes false RA = Some TA -> forallb closed TA = true ->
  shapes false RV = Some TV -> forallb isRun TV = true ->
  shapes false RD = Some TD -> forallb hyphens TD = true ->
  shapes false RS = Some TS -> forallb emptyOrClosed TS = true ->
  within input x ->
  RegExp.compile false input
    (Seqs [RA; RegExp.Group 1 RV; RD; RS; RegExp.Backref 1; RegExp.NegLookahead alphanum])
    x (fun y => Some y) = Some z ->
  exists v l1 l2 l3,
    mem (shapeOf v) TV = true
    /\ Str.split "-" input = l1 ++ v :: l2 ++ v :: l3.
Proof.
  intros HA HAc HV HVc HD HDc HS HSc Hx Hm.
  cbn [Seqs RegExp.compile] in Hm.
  destruct (shapes_sound false input RA TA HA x _ z Hx Hm)
    as (y1 & Hy1 & Hk1 & Hm1 & Hs1).
  destruct (shapes_sound false input RV TV HV y1 _ z (proj2 Hy1) Hm1)
    as (y2 & Hy2 & Hk2 & Hm2 & Hs2).
  set (v := piece input y1 y2) in *.
  change (Str.take (RegExp.endIndex y2 - RegExp.endIndex y1)
            (Str.drop (RegExp.endIndex y1) input)) with v in Hm2.
  set (y2' := RegExp.MState (RegExp.endIndex y2) ((1, v) :: RegExp.captures y2)) in *.
  assert (ahead input y2 y2') as Hy2' by (split; [simpl; lia | exact (proj2 Hy2)]).
  destruct (shapes_sound false input RD TD HD y2' _ z (proj2 Hy2') Hm2)
    as (y3 & Hy3 & Hk3 & Hm3 & Hs3).
  destruct (shapes_sound false input RS TS HS y3 _ z (proj2 Hy3) Hm3)
    as (y4 & Hy4 & Hk4 & Hm4 & Hs4).
  unfold RegExp.backrefMatcher in Hm4. rewrite Hk4, Hk3 in Hm4.
  cbn [RegExp.captures y2' RegExp.capture Nat.eqb] in Hm4. cbv zeta in Hm4.
  destruct (_ && _) eqn:Hback in Hm4; [| discriminate Hm4].
  apply andb_true_iff in Hback as [Hlen Hsame].
  apply Nat.leb_le in Hlen. apply sameChars_eq in Hsame.
  set (y5 := RegExp.MState (RegExp.endIndex y4 + String.length v)
               ((1, v) :: RegExp.captures y2)) in *.
  assert (ahead input y4 y5) as Hy5 by (split; simpl; lia).
  assert (piece input y4 y5 = v) as Hv5.
  { unfold piece. cbn [y5 RegExp.endIndex].
    replace (RegExp.endIndex y4 + String.length v - RegExp.endIndex y4)
      with (String.length v) by lia.
    symmetry. exact Hsame. }
  destruct (RegExp.compile false input alphanum y5 (fun y => Some y)) eqn:Hlook;
    [discriminate Hm4 |].
  clear Hm Hm1 Hm2 Hm3 Hm4.
  (* the subject, piece by piece *)
  assert (ahead input y1 y2') as H12 by exact Hy2.
  pose proof (ahead_trans _ _ _ _ H12 Hy3) as H13.
  pose proof (ahead_trans _ _ _ _ H13 Hy4) as H14.
  pose proof (ahead_trans _ _ _ _ H14 Hy5) as H15.
  pose proof (ahead_trans _ _ _ _ Hy1 H15) as H05.
  pose proof (whole x y5 H05) as Hwhole.
  rewrite (piece_trans _ _ _ _ Hy1 H15), (piece_trans _ _ _ _ H12 (ahead_trans _ _ _ _ Hy3 (ahead_trans _ _ _ _ Hy4 Hy5))),
    (piece_trans _ _ _ _ Hy3 (ahead_trans _ _ _ _ Hy4 Hy5)),
    (piece_trans _ _ _ _ Hy4 Hy5), Hv5 in Hwhole.
  change (piece input y1 y2') with v in Hwhole.
  rewrite !append_assoc in Hwhole.
  (* what the shapes say *)
  apply mem_In in Hs1, Hs3, Hs4.
  pose proof (proj1 (forallb_forall _ _) HAc _ Hs1) as HA1.
  pose proof (proj1 (forallb_forall _ _) HVc _ (proj1 (mem_In _ _) Hs2)) as HV1.
  pose proof (proj1 (forallb_forall _ _) HDc _ Hs3) as HD1.
  pose proof (proj1 (forallb_forall _ _) HSc _ Hs4) as HS1.
  destruct (isRun_single v HV1) as [Hvs _].
  destruct (twice (Str.take (RegExp.endIndex x) input) (piece input x y1) v
              (piece input y2' y3) (piece input y3 y4)
              (Str.drop (RegExp.endIndex y5) input))
    as (l1 & l2 & l3 & Hsplit).
  - exact (closed_ends _ HA1 (piece_shape _ _ Hy1)).
  - exact Hvs.
  - exact (hyphens_both _ HD1 (piece_shape _ _ Hy3)).
  - exact (emptyOrClosed_ends _ HS1 (piece_shape _ _ Hy4)).
  - exact (lookahead_rest y5 Hlook).
  - exists v, l1, l2, l3. split; [exact Hs2 |]. rewrite <- Hsplit, <- Hwhole. reflexivity.
Qed.

End Doubled.

(** The parts of the two patterns have the shapes [doubling] asks for. *)
Lemma duplicateVariant_found input start :
  shapeOf input <> Bad -> start <= String.length input ->
  RegExp.matchAt false input duplicateVariant start = true ->
  exists v l1 l2 l3,
    mem (shapeOf v) [Run 5; Run 6; Run 7; Run 8; Run 4] = true
    /\ Str.split "-" input = l1 ++ v :: l2 ++ v :: l3.
Proof.
  intros Hi Hstart H. unfold RegExp.matchAt in H.
  destruct (RegExp.compile false input duplicateVariant _ _) as [z|] eqn:Hm;
    [| discriminate H].
  eapply (doubling input Hi
           (Plus (RegExp.Seq (Between 2 8 alphanum) (RegExp.Lit "-"))) variant
           (RegExp.Lit "-") (Star (RegExp.Seq (Between 2 8 alphanum) (RegExp.Lit "-"))));
    [.. | exact Hm]; [vm_compute; reflexivity .. | exact Hstart].
Qed.

Lemma duplicateSingleton_found input start :
  shapeOf input <> Bad -> start <= String.length input ->
  RegExp.matchAt false input duplicateSingleton start = true ->
  exists v l1 l2 l3,
    mem (shapeOf v) [Run 1] = true
    /\ Str.split "-" input = l1 ++ v :: l2 ++ v :: l3.
Proof.
  intros Hi Hstart H. unfold RegExp.matchAt in H.
  destruct (RegExp.compile false input duplicateSingleton _ _) as [z|] eqn:Hm;
    [| discriminate H].
  eapply (doubling input Hi
           (RegExp.Lit "-") singleton (RegExp.Lit "-")
           (Star (RegExp.Seq (Plus alphanum) (RegExp.Lit "-"))));
    [.. | exact Hm]; [vm_compute; reflexivity .. | exact Hstart].
Qed.

Lemma test_found (re : RegExp.RegExp) s :
  RegExp.test re s = true ->
  exists start, start <= String.length s
                /\ RegExp.matchAt (RegExp.flagIgnoreCase re) s (RegExp.pattern re) start = true.
Proof.
  unfold RegExp.test. intros H. apply existsb_exists in H as (start & Hin & H).
  exists start. split; [apply in_seq in Hin; lia | exact H].
Qed.

Lemma publicPart_shape t : shapeOf t <> Bad -> shapeOf (publicPart t) <> Bad.
Proof.
  intros Ht. unfold publicPart. cbv zeta. destruct (negb _); [| exact Ht].
  rewrite StrFacts.substring_prefix.
  rewrite <- (StrFacts.take_drop (Str.clamp t (Str.indexOf t "-x-")) t) in Ht.
  now apply not_bad_app in Ht as [Ht _].
Qed.

Lemma rejected (t : string) :
  RegExp.test languageTagRE t = true ->
  isStructurallyValidLanguageTag t = false ->
  RegExp.test duplicateVariantRE (publicPart t) = true
  \/ RegExp.test duplicateSingletonRE (publicPart t) = true.
Proof.
  intros Hre Hv. unfold isStructurallyValidLanguageTag in Hv. rewrite Hre in Hv.
  cbn [negb] in Hv. destruct (Str.startsWith t "x-"); [discriminate Hv |].
  cbv zeta in Hv. fold (publicPart t) in Hv.
  destruct (RegExp.test duplicateVariantRE (publicPart t)); [now left |].
  destruct (RegExp.test duplicateSingletonRE (publicPart t)); [now right |].
  discriminate Hv.
Qed.

(** What a rejection means. *)
Lemma repeated (t : string) :
  RegExp.test languageTagRE t = true ->
  isStructurallyValidLanguageTag t = false ->
  exists v l1 l2 l3,
    (String.length v = 1 \/ 4 <= String.length v <= 8)
    /\ Str.split "-" (publicPart t) = l1 ++ v :: l2 ++ v :: l3.
Proof.
  intros Hre Hv.
  assert (Shape.shapeOf (publicPart t) <> Shape.Bad) as Hshape.
  { apply publicPart_shape. intros E.
    pose proof (SubtagFacts.languageTagRE_wellFormed t Hre) as Hw.
    rewrite E in Hw. discriminate Hw. }
  destruct (rejected t Hre Hv) as [H | H];
    apply test_found in H as (start & Hstart & H).
  - destruct (duplicateVariant_found _ _ Hshape Hstart H)
      as (v & l1 & l2 & l3 & Hmem & Hsplit).
    exists v, l1, l2, l3. split; [right | exact Hsplit].
    apply ShapeFacts.mem_In in Hmem. simpl in Hmem.
    destruct Hmem as [E | [E | [E | [E | [E | []]]]]]; symmetry in E;
      apply run_single in E as [_ E]; lia.
  - destruct (duplicateSingleton_found _ _ Hshape Hstart H)
      as (v & l1 & l2 & l3 & Hmem & Hsplit).
    exists v, l1, l2, l3. split; [left | exact Hsplit].
    apply ShapeFacts.mem_In in Hmem. simpl in Hmem.
    destruct Hmem as [E | []]. symmetry in E.
    now apply run_single in E as [_ E].
Qed.

End Duplicates.

(** X14.  [isStructurallyValidLanguageTag] turns down a string that
    [languageTagRE] matches only when, before its private-use part, one
    subtag stands twice, letter for letter: a subtag of one character or of
    four to eight. *)
Theorem isStructurallyValidLanguageTag_rejects (t : string) :
  RegExp.test languageTagRE t = true ->
  isStructurallyValidLanguageTag t = false ->
  exists v l1 l2 l3,
    (String.length v = 1 \/ 4 <= String.length v <= 8)
    /\ Str.split "-" (publicPart t) = l1 ++ v :: l2 ++ v :: l3.
Proof. exact (Duplicates.repeated t). Qed.

Lemma isStructurallyValidLanguageTag_rejects_witness :
  RegExp.test languageTagRE "de-1996-1996-x-1996" = true
  /\ isStructurallyValidLanguageTag "de-1996-1996-x-1996" = false
  /\ exists v l1 l2 l3,
       (String.length v = 1 \/ 4 <= String.length v <= 8)
       /\ Str.split "-" (publicPart "de-1996-1996-x-1996") = l1 ++ v :: l2 ++ v :: l3.
Proof.
  assert (RegExp.test languageTagRE "de-1996-1996-x-1996" = true) as Hre
    by (vm_compute; reflexivity).
  assert (isStructurallyValidLanguageTag "de-1996-1996-x-1996" = false) as Hv
    by (vm_compute; reflexivity).
  split; [exact Hre |]. split; [exact Hv |].
  exact (isStructurallyValidLanguageTag_rejects _ Hre Hv).
Defined.

(** ** The matcher finds the strings of a pattern *)

Module Completeness.
Import CaseFacts.

Lemma drop_app w rest : Str.drop (String.length w) (String.append w rest) = rest.
Proof. induction w as [|c w IH]; [destruct rest; reflexivity | exact IH]. Qed.

Lemma take_app w rest : Str.take (String.length w) (String.append w rest) = w.
Proof.
  induction w as [|c w IH]; [destruct rest; reflexivity |].
  rewrite append_cons. simpl. now rewrite IH.
Qed.

Section Complete.

Variable ignoreCase : bool.
Variable input : string.

Lemma goesOn_next x w1 w2 :
  goesOn input x (String.append w1 w2) -> goesOn input (after x w1) w2.
Proof.
  intros [rest H]. exists rest. unfold after. cbn [RegExp.endIndex].
  rewrite <- ShapeFacts.drop_add, H, append_assoc. apply drop_app.
Qed.

Lemma goesOn_first x w1 w2 :
  goesOn input x (String.append w1 w2) -> goesOn input x w1.
Proof. intros [rest H]. exists (String.append w2 rest). now rewrite H, append_assoc. Qed.

Lemma goesOn_length x w :
  goesOn input x w -> String.length w <= String.length input - RegExp.endIndex x.
Proof.
  intros [rest H]. apply (f_equal String.length) in H.
  rewrite StrFacts.length_drop, length_app in H. lia.
Qed.

Lemma after_after x w1 w2 : after (after x w1) w2 = after x (String.append w1 w2).
Proof. unfold after. cbn. now rewrite length_app, Nat.add_assoc. Qed.

Lemma after_nil x : after x "" = x.
Proof. destruct x. unfold after. cbn. now rewrite Nat.add_0_r. Qed.

Lemma complete_charMatcher p :
  complete input (RegExp.charMatcher input p)
    (fun w => exists ch, w = String ch "" /\ p ch = true).
Proof.
  intros w x c (ch & -> & Hp) [rest Hrest] Hc. unfold RegExp.charMatcher.
  rewrite (Duplicates.drop_get _ _ _ _ Hrest), Hp.
  unfold after in Hc. cbn in Hc. now rewrite Nat.add_1_r in Hc.
Qed.

(** Iterations: the mandatory ones, then the further ones. *)
Lemma complete_repeatMin (m rest : RegExp.matcher) (L : string -> Prop) :
  complete input m L ->
  forall ws x c w,
    Forall L ws ->
    goesOn input x (String.append (String.concat "" ws) w) ->
    found (rest (after x (String.concat "" ws)) c) = true ->
    found (RegExp.repeatMin m [] (length ws) rest x c) = true.
Proof.
  intros Hm ws. induction ws as [|u ws IH]; intros x c w Hws Hon Hc.
  - simpl in *. now rewrite after_nil in Hc.
  - inversion Hws as [|? ? Hu Hws']; subst.
    cbn [length RegExp.repeatMin]. rewrite ShapeFacts.clearCaptures_nil.
    assert (String.concat "" (u :: ws) = String.append u (String.concat "" ws)) as E.
    { destruct ws; [now rewrite Duplicates.append_nil_r | reflexivity]. }
    rewrite E, append_assoc in Hon. rewrite E in Hc.
    apply (Hm u x _ Hu (goesOn_first _ _ _ Hon)).
    apply (IH (after x u) c w Hws' (goesOn_next _ _ _ Hon)).
    now rewrite after_after.
Qed.

Lemma complete_repeatUpTo (m : RegExp.matcher) (L : string -> Prop) :
  complete input m L ->
  forall ws k x c w,
    Forall (fun u => L u /\ u <> "") ws -> length ws <= k ->
    goesOn input x (String.append (String.concat "" ws) w) ->
    found (c (after x (String.concat "" ws))) = true ->
    found (RegExp.repeatUpTo m [] k x c) = true.
Proof.
  intros Hm ws. induction ws as [|u ws IH]; intros k x c w Hws Hk Hon Hc.
  - simpl in Hc. rewrite after_nil in Hc.
    destruct k; simpl; [exact Hc |].
    destruct (m _ _); [reflexivity | exact Hc].
  - inversion Hws as [|? ? [Hu Hne] Hws']; subst.
    destruct k as [|k]; [simpl in Hk; lia |]. simpl in Hk.
    cbn [RegExp.repeatUpTo]. rewrite ShapeFacts.clearCaptures_nil.
    assert (String.concat "" (u :: ws) = String.append u (String.concat "" ws)) as E.
    { destruct ws; [now rewrite Duplicates.append_nil_r | reflexivity]. }
    rewrite E, append_assoc in Hon. rewrite E in Hc.
    match goal with
    | |- found (match ?a with _ => _ end) = true => assert (found a = true) as Hiter
    end.
    { apply (Hm u x _ Hu (goesOn_first _ _ _ Hon)).
      assert (Nat.eqb (RegExp.endIndex (after x u)) (RegExp.endIndex x) = false) as ->.
      { apply Nat.eqb_neq. unfold after. cbn. destruct u; [congruence | simpl; lia]. }
      apply (IH k (after x u) c w Hws' ltac:(lia) (goesOn_next _ _ _ Hon)).
      now rewrite after_after. }
    destruct (m x _); [reflexivity | discriminate Hiter].
Qed.

Lemma concat_length (ws : list string) :
  Forall (fun u => u <> "") ws -> length ws <= String.length (String.concat "" ws).
Proof.
  induction 1 as [|u ws Hu _ IH]; [simpl; lia |].
  assert (String.concat "" (u :: ws) = String.append u (String.concat "" ws)) as ->.
  { destruct ws; [now rewrite Duplicates.append_nil_r | reflexivity]. }
  rewrite length_app. destruct u; [congruence | simpl; lia].
Qed.

Lemma concat_app (l1 l2 : list string) :
  String.concat "" (l1 ++ l2)
  = String.append (String.concat "" l1) (String.concat "" l2).
Proof.
  induction l1 as [|u l1 IH]; [reflexivity |].
  assert (forall l, String.concat "" (u :: l) = String.append u (String.concat "" l)) as E.
  { intros [|? ?]; [now rewrite Duplicates.append_nil_r | reflexivity]. }
  change ((u :: l1) ++ l2) with (u :: (l1 ++ l2)).
  now rewrite !E, IH, append_assoc.
Qed.

Theorem lang_complete (r : RegExp.regex) :
  RegExp.groupsOf r = [] ->
  complete input (RegExp.compile ignoreCase input r) (lang ignoreCase r).
Proof.
  induction r as [| a | ranges | r1 IH1 r2 IH2 | r1 IH1 r2 IH2
                 | min max r IH | n r IH | n | r IH | |]; intros Hg;
    try (intros w x c []; fail).
  - intros w x c -> _ Hc. simpl. now rewrite after_nil in Hc.
  - apply (complete_charMatcher (Shape.litTest ignoreCase a)).
  - apply (complete_charMatcher (Shape.classTest ignoreCase ranges)).
  - simpl in Hg. apply app_eq_nil in Hg as [Hg1 Hg2].
    intros w x c (w1 & w2 & -> & H1 & H2) Hon Hc. simpl.
    apply (IH1 Hg1 w1 x _ H1 (goesOn_first _ _ _ Hon)).
    apply (IH2 Hg2 w2 (after x w1) c H2 (goesOn_next _ _ _ Hon)).
    now rewrite after_after.
  - simpl in Hg. apply app_eq_nil in Hg as [Hg1 Hg2].
    intros w x c Hw Hon Hc. simpl.
    destruct (RegExp.compile ignoreCase input r1 x c) eqn:E; [reflexivity |].
    destruct Hw as [Hw | Hw].
    + pose proof (IH1 Hg1 w x c Hw Hon Hc) as H. rewrite E in H. discriminate H.
    + apply (IH2 Hg2 w x c Hw Hon Hc).
  - simpl in Hg. specialize (IH Hg).
    intros w x c (ws & -> & Hws & Hmin & Hmax) Hon Hc.
    simpl. unfold RegExp.repeatMatcher. rewrite Hg.
    rewrite <- (take_drop min ws) in Hon, Hc.
    rewrite concat_app in Hon, Hc.
    assert (length (take min ws) = min) as Hlen by (rewrite length_take; lia).
    rewrite <- Hlen at 1.
    assert (Forall (fun u => lang ignoreCase r u /\ u <> "") (drop min ws)) as Hrest
      by (apply Forall_drop; exact Hws).
    assert (Forall (lang ignoreCase r) (take min ws)) as Hfirst.
    { apply Forall_take. eapply Forall_impl; [exact Hws |]. intros u [Hu _]. exact Hu. }
    pose proof Hon as Hon'. rewrite <- (Duplicates.append_nil_r (String.append _ _)) in Hon.
    rewrite append_assoc in Hon.
    apply (complete_repeatMin _ _ _ IH _ x c _ Hfirst Hon).
    cbv zeta.
    apply (complete_repeatUpTo _ _ IH (drop min ws) _ _ c "" Hrest).
    + pose proof (goesOn_length _ _ (goesOn_next _ _ _ Hon')) as Hfit.
      pose proof (concat_length (drop min ws)) as Hcount.
      assert (length (drop min ws) <= String.length (String.concat "" (drop min ws))) as Hc'.
      { apply Hcount. eapply Forall_impl; [exact Hrest |]. intros u [_ Hu]. exact Hu. }
      destruct max as [mx|]; [rewrite length_drop; lia | lia].
    + rewrite Duplicates.append_nil_r. apply (goesOn_next _ _ _ Hon').
    + now rewrite after_after.
Qed.

End Complete.

End Completeness.

(** ** Duplicate subtags: what the two patterns do find *)

Module Found.
Import CaseFacts Completeness.

Lemma sameChars_refl a : RegExp.sameChars false a a = true.
Proof.
  induction a as [|x a IH]; [reflexivity |]. simpl.
  destruct (ascii_dec _ _); [exact IH | congruence].
Qed.

Lemma drop_nil_get n s : Str.drop n s = "" -> String.get n s = None.
Proof.
  revert n. induction s as [|c s IH]; intros [|n] H; simpl in *;
    try reflexivity; try discriminate H.
  apply IH, H.
Qed.

Lemma no_alphanum_next input y :
  Str.drop (RegExp.endIndex y) input = ""
  \/ (exists p, Str.drop (RegExp.endIndex y) input = String "-" p) ->
  RegExp.compile false input alphanum y (fun y' => Some y') = None.
Proof.
  intros H. unfold alphanum, ALPHA, DIGIT. simpl.
  unfold RegExp.classMatcher, RegExp.charMatcher.
  destruct H as [H | [p H]].
  - now rewrite (drop_nil_get _ _ H).
  - now rewrite (Duplicates.drop_get _ _ _ _ H).
Qed.

(** A subject in which a captured part comes back is matched at the
    position where the pattern finds its first part. *)
Lemma doubled (RA RV RD RS : RegExp.regex) (input pre a v d s post : string) :
  RegExp.groupsOf RA = [] -> RegExp.groupsOf RV = [] ->
  RegExp.groupsOf RD = [] -> RegExp.groupsOf RS = [] ->
  lang false RA a -> lang false RV v -> lang false RD d -> lang false RS s ->
  post = "" \/ (exists p, post = String "-" p) ->
  input = String.append pre (String.append a (String.append v (String.append d
            (String.append s (String.append v post))))) ->
  RegExp.matchAt false input
    (Seqs [RA; RegExp.Group 1 RV; RD; RS; RegExp.Backref 1; RegExp.NegLookahead alphanum])
    (String.length pre) = true.
Proof.
  intros HgA HgV HgD HgS HA HV HD HS Hpost Hinput.
  unfold RegExp.matchAt.
  match goal with
  | |- match ?o with _ => _ end = true => change (found o = true)
  end.
  cbn [Seqs RegExp.compile].
  set (x0 := RegExp.MState (String.length pre) []).
  assert (goesOn input x0
            (String.append a (String.append v (String.append d
               (String.append s (String.append v post)))))) as Hon0.
  { exists "". unfold x0. cbn [RegExp.endIndex].
    rewrite Hinput, drop_app, Duplicates.append_nil_r. reflexivity. }
  apply (lang_complete false input RA HgA a x0 _ HA (goesOn_first _ _ _ _ Hon0)).
  pose proof (goesOn_next _ _ _ _ Hon0) as Hon1.
  set (y1 := after x0 a) in *.
  apply (lang_complete false input RV HgV v y1 _ HV (goesOn_first _ _ _ _ Hon1)).
  pose proof (goesOn_next _ _ _ _ Hon1) as Hon2.
  assert (Str.take (RegExp.endIndex (after y1 v) - RegExp.endIndex y1)
            (Str.drop (RegExp.endIndex y1) input) = v) as ->.
  { destruct Hon1 as [rest ->]. unfold after. cbn [RegExp.endIndex].
    replace (RegExp.endIndex y1 + String.length v - RegExp.endIndex y1)
      with (String.length v) by lia.
    rewrite append_assoc. apply take_app. }
  set (y2 := RegExp.MState (RegExp.endIndex (after y1 v))
               ((1, v) :: RegExp.captures (after y1 v))).
  assert (goesOn input y2 (String.append d (String.append s (String.append v post))))
    as Hon2' by exact Hon2.
  apply (lang_complete false input RD HgD d y2 _ HD (goesOn_first _ _ _ _ Hon2')).
  pose proof (goesOn_next _ _ _ _ Hon2') as Hon3.
  set (y3 := after y2 d) in *.
  apply (lang_complete false input RS HgS s y3 _ HS (goesOn_first _ _ _ _ Hon3)).
  pose proof (goesOn_next _ _ _ _ Hon3) as Hon4.
  set (y4 := after y3 s) in *.
  unfold RegExp.backrefMatcher.
  change (RegExp.capture 1 (RegExp.captures y4)) with (Some v). cbv beta iota zeta.
  assert (RegExp.endIndex y4 + String.length v <= String.length input) as Hfit.
  { apply (f_equal String.length) in Hinput. rewrite !length_app in Hinput.
    unfold y4, y3, y2, y1, x0, after. cbn [RegExp.endIndex]. lia. }
  apply Nat.leb_le in Hfit. rewrite Hfit.
  pose proof (goesOn_next _ _ _ _ Hon4) as Hon5.
  destruct Hon4 as [rest4 Hrest4]. rewrite Hrest4, append_assoc, take_app, sameChars_refl.
  cbn [andb].
  rewrite (no_alphanum_next input (RegExp.MState (RegExp.endIndex y4 + String.length v)
                                     (RegExp.captures y4))); [reflexivity |].
  destruct Hon5 as [rest5 Hrest5]. unfold after in Hrest5. cbn [RegExp.endIndex] in *.
  rewrite Hrest5.
  assert (rest5 = "") as ->.
  { apply (f_equal String.length) in Hrest5, Hinput.
    rewrite StrFacts.length_drop, !length_app in *.
    apply Nat.leb_le in Hfit.
    unfold y4, y3, y2, y1, x0, after in *. cbn [RegExp.endIndex] in *.
    destruct rest5; [reflexivity | simpl in *; lia]. }
  rewrite Duplicates.append_nil_r. exact Hpost.
Qed.

(** *** The strings of the parts of the two patterns *)

Lemma lang_alphanum ch : Shape.isAlnum ch = true -> lang false alphanum (String ch "").
Proof.
  intros H. rewrite Duplicates.isAlnum_ranges in H. apply orb_true_iff in H as [H | H].
  - left. exists ch. split; [reflexivity | exact H].
  - right. exists ch. split; [reflexivity | exact H].
Qed.

Lemma concat_cons u (l : list string) :
  String.concat "" (u :: l) = String.append u (String.concat "" l).
Proof. destruct l; [now rewrite Duplicates.append_nil_r | reflexivity]. Qed.

Lemma concat_letters w : String.concat "" (letters w) = w.
Proof.
  induction w as [|ch w IH]; [reflexivity |].
  cbn [letters]. rewrite concat_cons, IH. reflexivity.
Qed.

Lemma length_letters w : length (letters w) = String.length w.
Proof. induction w as [|ch w IH]; simpl; [reflexivity | now rewrite IH]. Qed.

Lemma lang_letters w :
  Shape.allAlnum w = true ->
  Forall (fun u => lang false alphanum u /\ u <> "") (letters w).
Proof.
  induction w as [|ch w IH]; intros H; [constructor |].
  simpl in H. apply andb_true_iff in H as [Hch Hw].
  constructor; [| exact (IH Hw)].
  split; [exact (lang_alphanum ch Hch) | discriminate].
Qed.

Lemma lang_alphanums min max w :
  Shape.allAlnum w = true -> min <= String.length w ->
  match max with Some mx => String.length w <= mx | None => True end ->
  lang false (RegExp.Quant min max alphanum) w.
Proof.
  intros Hw Hmin Hmax. exists (letters w).
  rewrite concat_letters, length_letters. auto using lang_letters.
Qed.

Lemma lang_hyphen : lang false (RegExp.Lit "-") "-".
Proof. exists "-"%char. split; reflexivity. Qed.

Lemma lang_hyphenated (r : RegExp.regex) (l : list string) :
  Forall (lang false r) l ->
  lang false (Star (RegExp.Seq r (RegExp.Lit "-"))) (String.concat "" (hyphenated l)).
Proof.
  intros H. exists (hyphenated l). split; [reflexivity |].
  split; [| split; [simpl; lia | exact I]].
  unfold hyphenated. apply Forall_map. eapply Forall_impl; [exact H |].
  intros u Hu. split.
  - exists u, "-". split; [reflexivity | split; [exact Hu | exact lang_hyphen]].
  - intros E. apply (f_equal String.length) in E. rewrite length_app in E. simpl in E. lia.
Qed.

Lemma lang_variant v : variantLike v = true -> lang false variant v.
Proof.
  unfold variantLike. intros H. apply andb_true_iff in H as [Ha H].
  apply orb_true_iff in H as [H | H].
  - apply andb_true_iff in H as [H5 H8]. apply Nat.leb_le in H5, H8.
    left. now apply lang_alphanums.
  - apply andb_true_iff in H as [H4 Hd]. apply Nat.eqb_eq in H4.
    destruct v as [|d v']; [discriminate Hd |].
    simpl in Ha, H4. apply andb_true_iff in Ha as [_ Ha].
    right. exists (String d ""), v'. split; [reflexivity |]. split.
    + exists d. split; [reflexivity |].
      unfold Shape.classTest, RegExp.inRanges. simpl. rewrite orb_false_r. exact Hd.
    + apply lang_alphanums; [exact Ha | lia | lia].
Qed.

Lemma singleton_ranges ch :
  Shape.isAlnum ch && negb (Ascii.eqb ch "x") && negb (Ascii.eqb ch "X") = true ->
  RegExp.inRanges [("0", "9")]%char ch
  || RegExp.inRanges [("A", "W"); ("Y", "Z"); ("a", "w"); ("y", "z")]%char ch = true.
Proof. destruct ch as [[] [] [] [] [] [] [] []]; intros H; first [reflexivity | discriminate H]. Qed.

Lemma lang_singleton v : singletonLike v = true -> lang false singleton v.
Proof.
  destruct v as [|ch [|? ?]]; try discriminate. simpl. intros H.
  apply singleton_ranges in H. apply orb_true_iff in H as [H | H].
  - left. exists ch. split; [reflexivity | exact H].
  - right. exists ch. split; [reflexivity | exact H].
Qed.

(** *** The tag, from its subtags *)

Lemma join_hyphenated (l : list string) u (r : list string) :
  Str.join "-" (l ++ u :: r)
  = String.append (String.concat "" (hyphenated l)) (Str.join "-" (u :: r)).
Proof.
  induction l as [|x l IH]; [reflexivity |].
  change ((x :: l) ++ u :: r) with (x :: (l ++ u :: r)).
  assert (Str.join "-" (x :: l ++ u :: r)
          = String.append x (String.append "-" (Str.join "-" (l ++ u :: r)))) as ->
    by (destruct l; reflexivity).
  rewrite IH. unfold hyphenated. cbn [map]. rewrite concat_cons, !append_assoc. reflexivity.
Qed.

Lemma join_first u (r : list string) :
  exists post, Str.join "-" (u :: r) = String.append u post
               /\ (post = "" \/ exists p, post = String "-" p).
Proof.
  destruct r as [|y r].
  - exists "". split; [simpl; now rewrite Duplicates.append_nil_r | now left].
  - exists (String "-" (Str.join "-" (y :: r))). split; [reflexivity | right; eauto].
Qed.

Lemma subject (l1 l2 l3 : list string) (w v : string) :
  exists post,
    Str.join "-" (l1 ++ w :: v :: l2 ++ v :: l3)
    = String.append (String.concat "" (hyphenated l1))
        (String.append w (String.append "-" (String.append v (String.append "-"
           (String.append (String.concat "" (hyphenated l2)) (String.append v post))))))
    /\ (post = "" \/ exists p, post = String "-" p).
Proof.
  destruct (join_first v l3) as (post & Hv & Hpost). exists post. split; [| exact Hpost].
  rewrite join_hyphenated. f_equal.
  rewrite join_cons. do 2 f_equal.
  assert (Str.join "-" (v :: l2 ++ v :: l3)
          = String.append v (String.append "-" (Str.join "-" (l2 ++ v :: l3)))) as ->
    by (destruct l2; reflexivity).
  now rewrite join_hyphenated, Hv.
Qed.

(** *** The part of the tag before [-x-] *)

Lemma startsWith_prefix s p : Str.startsWith s p = true -> exists r, s = String.append p r.
Proof.
  revert s. induction p as [|a p IH]; intros s H; [now exists s |].
  destruct s as [|b s]; simpl in H; [discriminate H |].
  destruct (ascii_dec a b) as [-> |]; [| discriminate H].
  destruct (IH s H) as [r ->]. now exists r.
Qed.

Lemma indexOfFrom_found s p : forall k n,
  Str.indexOfFrom k s p = n -> (0 <= k)%Z -> n <> (-1)%Z ->
  exists a r, s = String.append a (String.append p r)
              /\ n = (k + Z.of_nat (String.length a))%Z.
Proof.
  induction s as [|c s IH]; intros k n H Hk Hn; cbn [Str.indexOfFrom] in H.
  - destruct (Str.startsWith "" p) eqn:E; [| congruence].
    apply startsWith_prefix in E as [r E]. exists "", r. split; [exact E | simpl; lia].
  - destruct (Str.startsWith (String c s) p) eqn:E.
    + apply startsWith_prefix in E as [r E]. exists "", r. split; [exact E | simpl; lia].
    + destruct (IH (k + 1)%Z n H ltac:(lia) Hn) as (a & r & -> & ->).
      exists (String c a), r. split; [reflexivity | simpl; lia].
Qed.

Lemma publicPart_prefix t :
  exists rest, Str.split "-" t = Str.split "-" (publicPart t) ++ rest.
Proof.
  unfold publicPart. cbv zeta.
  destruct (Z.eqb_spec (Str.indexOf t "-x-") (-1)) as [E | E];
    [exists []; now rewrite app_nil_r |].
  cbn [negb]. unfold Str.indexOf in *.
  destruct (indexOfFrom_found t "-x-" 0 _ eq_refl ltac:(lia) E) as (a & r & Ht & Hpos).
  rewrite Hpos, StrFacts.substring_prefix.
  assert (Str.clamp t (0 + Z.of_nat (String.length a)) = String.length a) as ->.
  { unfold Str.clamp. apply (f_equal String.length) in Ht. rewrite length_app in Ht. lia. }
  assert (Str.take (String.length a) t = a) as -> by (rewrite Ht at 1; apply take_app).
  exists (Str.split "-" (String.append "x-" r)).
  rewrite Ht at 1. change (String.append "-x-" r) with (String "-" (String.append "x-" r)).
  apply Duplicates.split_hyphen.
Qed.

Lemma publicPart_subtags t :
  Forall (fun u => Shape.subtag u = true) (Str.split "-" t) ->
  Forall (fun u => Shape.subtag u = true) (Str.split "-" (publicPart t)).
Proof.
  intros H. destruct (publicPart_prefix t) as [rest E]. rewrite E in H.
  now apply Forall_app in H as [H _].
Qed.

Lemma subtag_parts u :
  Shape.subtag u = true -> Shape.allAlnum u = true /\ 1 <= String.length u <= 8.
Proof.
  unfold Shape.subtag, Shape.subtagLength. intros H.
  apply andb_true_iff in H as [H Ha]. apply andb_true_iff in H as [H1 H8].
  apply Nat.leb_le in H1, H8. auto.
Qed.

(** A repeated variant, after a subtag of two characters or more and with
    such subtags only in between, is found by [duplicateVariantRE]. *)
Lemma variant_found (input : string) (l1 l2 l3 : list string) (w v : string) :
  Forall (fun u => Shape.subtag u = true) (Str.split "-" input) ->
  Str.split "-" input = l1 ++ w :: v :: l2 ++ v :: l3 ->
  variantLike v = true -> 2 <= String.length w ->
  Forall (fun u => 2 <= String.length u) l2 ->
  RegExp.test duplicateVariantRE input = true.
Proof.
  intros Hsub Hsplit Hv Hw Hl2. rewrite Hsplit in Hsub.
  apply Forall_app in Hsub as [_ Hsub].
  inversion Hsub as [|? ? Hw' Hsub1]; subst.
  inversion Hsub1 as [|? ? _ Hsub2]; subst.
  apply Forall_app in Hsub2 as [Hsub2 _].
  apply subtag_parts in Hw' as [Hwa Hwl].
  destruct (subject l1 l2 l3 w v) as (post & Hjoin & Hpost).
  rewrite <- Hsplit, join_split in Hjoin.
  unfold RegExp.test. apply existsb_exists.
  exists (String.length (String.concat "" (hyphenated l1))). split.
  { apply in_seq. apply (f_equal String.length) in Hjoin.
    rewrite length_app in Hjoin. lia. }
  cbn [RegExp.flagIgnoreCase RegExp.pattern duplicateVariantRE].
  apply (doubled (Plus (RegExp.Seq (Between 2 8 alphanum) (RegExp.Lit "-"))) variant
           (RegExp.Lit "-") (Star (RegExp.Seq (Between 2 8 alphanum) (RegExp.Lit "-")))
           input _ (String.append w "-") v "-" (String.concat "" (hyphenated l2)) post);
    try reflexivity.
  - exists [String.append w "-"]. split; [reflexivity |].
    split; [| split; [simpl; lia | exact I]].
    constructor; [| constructor]. split.
    + exists w, "-". split; [reflexivity |].
      split; [apply lang_alphanums; [exact Hwa | lia | simpl; lia] | exact lang_hyphen].
    + intros E. apply (f_equal String.length) in E. rewrite length_app in E. simpl in E. lia.
  - exact (lang_variant v Hv).
  - exact lang_hyphen.
  - apply lang_hyphenated.
    apply Forall_forall. intros u Hu.
    pose proof (proj1 (Forall_forall _ _) Hsub2 u Hu) as Hus.
    pose proof (proj1 (Forall_forall _ _) Hl2 u Hu) as Hul.
    apply subtag_parts in Hus as [Hua Hul8]. cbv beta in Hul.
    apply lang_alphanums; [exact Hua | lia | simpl; lia].
  - exact Hpost.
  - rewrite Hjoin, !append_assoc. reflexivity.
Qed.

(** A repeated singleton, after at least one subtag, is found by
    [duplicateSingletonRE]. *)
Lemma singleton_found (input : string) (l1 l2 l3 : list string) (w v : string) :
  Forall (fun u => Shape.subtag u = true) (Str.split "-" input) ->
  Str.split "-" input = l1 ++ w :: v :: l2 ++ v :: l3 ->
  singletonLike v = true ->
  RegExp.test duplicateSingletonRE input = true.
Proof.
  intros Hsub Hsplit Hv. rewrite Hsplit in Hsub.
  apply Forall_app in Hsub as [_ Hsub].
  inversion Hsub as [|? ? _ Hsub1]; subst.
  inversion Hsub1 as [|? ? _ Hsub2]; subst.
  apply Forall_app in Hsub2 as [Hsub2 _].
  destruct (subject l1 l2 l3 w v) as (post & Hjoin & Hpost).
  rewrite <- Hsplit, join_split in Hjoin.
  unfold RegExp.test. apply existsb_exists.
  exists (String.length (String.append (String.concat "" (hyphenated l1)) w)). split.
  { apply in_seq. apply (f_equal String.length) in Hjoin.
    rewrite !length_app in *. lia. }
  cbn [RegExp.flagIgnoreCase RegExp.pattern duplicateSingletonRE].
  apply (doubled (RegExp.Lit "-") singleton (RegExp.Lit "-")
           (Star (RegExp.Seq (Plus alphanum) (RegExp.Lit "-")))
           input _ "-" v "-" (String.concat "" (hyphenated l2)) post);
    try reflexivity.
  - exact lang_hyphen.
  - exact (lang_singleton v Hv).
  - exact lang_hyphen.
  - apply lang_hyphenated.
    apply Forall_forall. intros u Hu.
    pose proof (proj1 (Forall_forall _ _) Hsub2 u Hu) as Hus.
    apply subtag_parts in Hus as [Hua Hul8].
    apply lang_alphanums; [exact Hua | lia | exact I].
  - exact Hpost.
  - rewrite Hjoin, !append_assoc. reflexivity.
Qed.

End Found.

(** X16.  [isStructurallyValidLanguageTag] turns down every tag that does
    not begin with [x-] and in which, before any [-x-], a subtag stands
    twice letter for letter after at least one other subtag, when that
    subtag is a singleton, or is a variant that follows a subtag of two
    characters or more with only such subtags between its two places. *)
Theorem isStructurallyValidLanguageTag_duplicate
    (t : string) (l1 l2 l3 : list string) (w v : string) :
  Str.startsWith t "x-" = false ->
  Str.split "-" (publicPart t) = l1 ++ w :: v :: l2 ++ v :: l3 ->
  singletonLike v = true
  \/ (variantLike v = true /\ 2 <= String.length w
      /\ Forall (fun u => 2 <= String.length u) l2) ->
  isStructurallyValidLanguageTag t = false.
Proof.
  intros Hx Hsplit Hv. unfold isStructurallyValidLanguageTag.
  destruct (RegExp.test languageTagRE t) eqn:Hre; [| reflexivity].
  cbn [negb]. rewrite Hx. cbv zeta. fold (publicPart t).
  pose proof (Found.publicPart_subtags t
                (SubtagFacts.wellFormed_subtags t
                   (SubtagFacts.languageTagRE_wellFormed t Hre))) as Hsub.
  destruct Hv as [Hv | (Hv & Hw & Hl2)].
  - rewrite (Found.singleton_found _ _ _ _ _ _ Hsub Hsplit Hv). apply andb_false_r.
  - rewrite (Found.variant_found _ _ _ _ _ _ Hsub Hsplit Hv Hw Hl2). reflexivity.
Qed.

Lemma isStructurallyValidLanguageTag_duplicate_witness :
  Str.startsWith "sl-rozaj-biske-rozaj-x-rozaj" "x-" = false
  /\ Str.split "-" (publicPart "sl-rozaj-biske-rozaj-x-rozaj")
     = [] ++ "sl" :: "rozaj" :: ["biske"] ++ "rozaj" :: []
  /\ variantLike "rozaj" = true
  /\ isStructurallyValidLanguageTag "sl-rozaj-biske-rozaj-x-rozaj" = false.
Proof.
  split; [reflexivity |]. split; [vm_compute; reflexivity |]. split; [reflexivity |].
  apply (isStructurallyValidLanguageTag_duplicate
           "sl-rozaj-biske-rozaj-x-rozaj" [] ["biske"] [] "sl" "rozaj").
  - reflexivity.
  - vm_compute. reflexivity.
  - right. split; [reflexivity |]. split; [simpl; lia |].
    constructor; [simpl; lia | constructor].
Defined.

(** ** Canonical forms that are valid again *)

Module RoundTrip.
Import CaseFacts.

Lemma twice_filtered (P : string -> bool) (a b d : list string) (x : string) :
  P x = true -> ~ NoDup (List.filter P (a ++ x :: b ++ x :: d)).
Proof.
  intros Hx H. rewrite List.filter_app in H. cbn [List.filter] in H. rewrite Hx in H.
  apply NoDup_app in H as (_ & _ & H). apply NoDup_cons in H as [H _].
  apply H. apply list_elem_of_In, List.filter_In. split; [| exact Hx].
  apply in_or_app. right. now left.
Qed.

Lemma checkedLength_lower u : checkedLength (Str.toLowerCase u) = checkedLength u.
Proof. unfold checkedLength. now rewrite IgnoreCase.length_toLowerCase. Qed.

Lemma same_subtags (t c : string) :
  Str.toLowerCase c = Str.toLowerCase t ->
  map Str.toLowerCase (Str.split "-" c) = map Str.toLowerCase (Str.split "-" t).
Proof. intros H. now rewrite <- !split_lower, H. Qed.

(** A tag that differs in case only from one without repeated subtags of
    checked length, and that [languageTagRE] matches, is valid. *)
Lemma valid_again (t c : string) :
  Str.toLowerCase c = Str.toLowerCase t ->
  RegExp.test languageTagRE c = true ->
  NoDup (List.filter checkedLength (map Str.toLowerCase (Str.split "-" t))) ->
  isStructurallyValidLanguageTag c = true.
Proof.
  intros Hl Hre Hno.
  destruct (isStructurallyValidLanguageTag c) eqn:E; [reflexivity | exfalso].
  destruct (Duplicates.repeated c Hre E) as (v & l1 & l2 & l3 & Hlen & Hsplit).
  destruct (Found.publicPart_prefix c) as [rest Hrest].
  rewrite <- (same_subtags t c Hl), Hrest, Hsplit in Hno.
  rewrite <- !app_assoc in Hno. cbn [app] in Hno.
  rewrite <- app_assoc in Hno. cbn [app] in Hno.
  rewrite map_app in Hno. cbn [map] in Hno. rewrite map_app in Hno. cbn [map] in Hno.
  apply (twice_filtered _ _ _ _ _ ltac:(rewrite checkedLength_lower; unfold checkedLength;
           destruct Hlen as [-> | [H4 _]];
           [reflexivity | apply orb_true_iff; right; now apply Nat.leb_le]) Hno).
Qed.

Lemma filter_fresh (x : string) (l : list string) :
  x ∉ l -> filter (fun y => y <> x) l = l.
Proof.
  induction l as [|y l IH]; intros Hx; [reflexivity |].
  apply not_elem_of_cons in Hx as [Hxy Hx].
  rewrite filter_cons_True by congruence. f_equal. apply IH, Hx.
Qed.

Lemma firstOccurrences_NoDup_id (l : list string) : NoDup l -> firstOccurrences l = l.
Proof.
  induction 1 as [|x l Hx _ IH]; [reflexivity |]. simpl. rewrite IH. f_equal.
  apply filter_fresh, Hx.
Qed.

End RoundTrip.

(** X17.  When a structurally valid tag holds no two subtags of one
    character, or of four characters and more, that are equal up to the
    case of ASCII letters, what [canonicalizeLanguageTag] returns for it is
    structurally valid again. *)
Theorem canonicalizeLanguageTag_valid (t c : string) :
  isStructurallyValidLanguageTag t = true ->
  canonicalizeLanguageTag t = Normal c ->
  NoDup (List.filter checkedLength (map Str.toLowerCase (Str.split "-" t))) ->
  isStructurallyValidLanguageTag c = true.
Proof.
  intros Hv Hc Hno. pose proof (Canonical.lower t c Hv Hc) as Hl.
  apply (RoundTrip.valid_again t c Hl); [| exact Hno].
  rewrite <- (Canonical.valid_matches t Hv).
  apply (IgnoreCase.test_same c t Hl languageTag). vm_compute. reflexivity.
Qed.

Lemma canonicalizeLanguageTag_valid_witness :
  isStructurallyValidLanguageTag "DE-latn-de-1996-X-priv" = true
  /\ canonicalizeLanguageTag "DE-latn-de-1996-X-priv" = Normal "de-Latn-DE-1996-x-priv"
  /\ isStructurallyValidLanguageTag "de-Latn-DE-1996-x-priv" = true.
Proof.
  assert (isStructurallyValidLanguageTag "DE-latn-de-1996-X-priv" = true) as Hv
    by (vm_compute; reflexivity).
  assert (canonicalizeLanguageTag "DE-latn-de-1996-X-priv" = Normal "de-Latn-DE-1996-x-priv")
    as Hc by (vm_compute; reflexivity).
  split; [exact Hv |]. split; [exact Hc |].
  apply (canonicalizeLanguageTag_valid _ _ Hv Hc).
  apply (bool_decide_unpack _). vm_compute. exact I.
Defined.

(** X18.  When no tag of a list holds two subtags of one character, or of
    four characters and more, that are equal up to the case of ASCII
    letters, the set that [canonicalizeLocaleList] returns for the list is
    returned as it is when handed back to [canonicalizeLocaleList]. *)
Theorem canonicalizeLocaleList_again (tags r : list string) :
  canonicalizeLocaleList (LocalesList tags) = Normal r ->
  Forall (fun t => NoDup (List.filter checkedLength
                            (map Str.toLowerCase (Str.split "-" t)))) tags ->
  canonicalizeLocaleList (LocalesList r) = Normal r.
Proof.
  intros Hr Hno. simpl in Hr. simpl.
  apply ListOutcome.forEach_inversion in Hr as (cs & Hcs & ->).
  rewrite ListFacts.Set_add_all_fresh.
  assert (canonicalForms (firstOccurrences cs) (firstOccurrences cs)) as Hagain.
  { apply Forall2_same_length_lookup_2; [reflexivity |].
    intros i c c' Hc Hc'. rewrite Hc in Hc'. injection Hc' as <-.
    apply list_elem_of_lookup_2 in Hc.
    apply (proj1 (ListFacts.firstOccurrences_elem _ _)) in Hc.
    destruct (ListOutcome.canonicalForms_elem _ _ _ Hcs Hc) as (t & Ht & Hv & Hcanon).
    split; [| apply (Idempotence.canonicalizeLanguageTag_fixed t c Hcanon)].
    pose proof (Canonical.lower t c Hv Hcanon) as Hl.
    apply (RoundTrip.valid_again t c Hl).
    - rewrite <- (Canonical.valid_matches t Hv).
      apply (IgnoreCase.test_same c t Hl languageTag). vm_compute. reflexivity.
    - exact (proj1 (Forall_forall _ _) Hno t Ht). }
  rewrite (ListFacts.forEach_canonical _ _ Hagain), ListFacts.Set_add_all_fresh.
  f_equal. apply RoundTrip.firstOccurrences_NoDup_id, ListFacts.firstOccurrences_NoDup.
Qed.

Lemma canonicalizeLocaleList_again_witness :
  canonicalizeLocaleList (LocalesList ["DE-de"; "fr-latn-FR"; "de-DE"])
  = Normal ["de-DE"; "fr-Latn-FR"]
  /\ canonicalizeLocaleList (LocalesList ["de-DE"; "fr-Latn-FR"])
     = Normal ["de-DE"; "fr-Latn-FR"].
Proof.
  assert (canonicalizeLocaleList (LocalesList ["DE-de"; "fr-latn-FR"; "de-DE"])
          = Normal ["de-DE"; "fr-Latn-FR"]) as H by (vm_compute; reflexivity).
  split; [exact H |].
  apply (canonicalizeLocaleList_again _ _ H).
  repeat constructor; apply (bool_decide_unpack _); vm_compute; exact I.
Defined.
